(** * BPM: beam-propagation integrator and slab-waveguide mode solver

    A shallow embedding of [src/bpm/core.py] and [src/bpm/mode_solver.py].

    Numbers.  Python floats are modelled by the real numbers of the
    Standard Library and [complex128] by pairs of reals, so every
    statement below is about the exact-arithmetic reading of the code:
    rounding, overflow and NaN are outside the model.  Scalar arguments
    are Python floats, as [src/app.py] passes them, so a scalar division
    by zero raises; the numpy functions the code calls ([roll],
    [linspace], [trapezoid], broadcasting) are modelled by what numpy
    documents for them.

    Effects.  A Python exception is a value of [exn]; a function that can
    raise returns a [result].  [run_bpm] writes into the caller's array, so
    its model returns the array as it stands when the call ends, whether
    it ends by [return] or by an exception, together with the list of the
    columns it assigned, in the order of the assignments. *)

From Stdlib Require Import String Reals Lra Psatz List ZArith Lia Bool Sorted.
Import ListNotations.

Open Scope R_scope.

(** ** Exceptions and results *)

Inductive exn : Type :=
| ValueError (msg : string)
| IndexError
| ZeroDivisionError.

Inductive result (A : Type) : Type :=
| Ok (a : A)
| Err (e : exn).

Arguments Ok {A} a.
Arguments Err {A} e.

Definition bind {A B : Type} (r : result A) (k : A -> result B) : result B :=
  match r with
  | Ok a => k a
  | Err e => Err e
  end.

Notation "x <- r ;; k" := (bind r (fun x => k))
  (at level 61, r at next level, right associativity).

(** Division of two Python floats: a zero divisor raises. *)
Definition pydiv (a b : R) : result R :=
  if Req_dec_T b 0 then Err ZeroDivisionError else Ok (a / b).

(** ** Complex numbers *)

Record C : Type := mkC { Re : R; Im : R }.

Definition C0 : C := mkC 0 0.
Definition Ci : C := mkC 0 1.
Definition RtoC (r : R) : C := mkC r 0.

Definition Cadd (a b : C) : C := mkC (Re a + Re b) (Im a + Im b).
Definition Csub (a b : C) : C := mkC (Re a - Re b) (Im a - Im b).
Definition Cmul (a b : C) : C :=
  mkC (Re a * Re b - Im a * Im b) (Re a * Im b + Im a * Re b).
(** A real factor on the left, a real factor on the right, a real divisor. *)
Definition Cscale (r : R) (a : C) : C := mkC (r * Re a) (r * Im a).
Definition Cmulr (a : C) (r : R) : C := mkC (Re a * r) (Im a * r).
Definition Cdivr (a : C) (r : R) : C := mkC (Re a / r) (Im a / r).
(** [np.abs] of a complex number. *)
Definition Cabs (a : C) : R := sqrt (Re a * Re a + Im a * Im a).

(** A Python complex divided by a Python float. *)
Definition pydiv_c (a : C) (b : R) : result C :=
  if Req_dec_T b 0 then Err ZeroDivisionError else Ok (Cdivr a b).

(** ** One-dimensional arrays *)

Definition map2 {A B T : Type} (op : A -> B -> T) (a : list A) (b : list B)
  : list T :=
  map (fun p => op (fst p) (snd p)) (combine a b).

(** Elementwise operation of two 1-D arrays under numpy's broadcasting
    rule: equal lengths, or one operand of length one. *)
Definition broadcast {A B T : Type} (op : A -> B -> T)
    (a : list A) (b : list B) : result (list T) :=
  if Nat.eqb (length a) (length b) then Ok (map2 op a b)
  else match a, b with
       | [u], _ => Ok (map (op u) b)
       | _, [v] => Ok (map (fun u => op u v) a)
       | _, _ => Err (ValueError "operands could not be broadcast together")
       end.

(** [np.roll(a, shift)] on a 1-D array: the elements move [shift] places
    towards higher indices and those pushed past the end re-enter at the
    start. *)
Definition roll {A : Type} (a : list A) (shift : Z) : list A :=
  match a with
  | [] => []
  | _ => let n := length a in
         let k := Z.to_nat (shift mod Z.of_nat n) in
         skipn (n - k) a ++ firstn (n - k) a
  end.

(** ** [compute_dE_dz] *)

(** Lines 14 to 18.  The division by [dx ** 2] is that of the reals: the
    model follows the code for [dx <> 0]; at [dx = 0] numpy yields entries
    that are not finite, which the reals do not have. *)
Definition compute_dE_dz (E_slice : list C) (n_r2_slice : list R)
    (dx n0 : R) (sigma_x : list R) (k0 : R) : result (list C) :=
  let laplacian_E :=
    map (fun s => Cdivr s (dx ^ 2))
      (map2 Cadd
         (map2 Csub (roll E_slice 1) (map (Cscale 2) E_slice))
         (roll E_slice (-1))) in
  c1 <- pydiv_c Ci (2 * k0 * n0) ;;
  let laplacian_term := map (Cmul c1) laplacian_E in
  r2 <- pydiv k0 (2 * n0) ;;
  let c2 := Cmulr Ci r2 in
  index_term <-
    broadcast Cmul (map (fun n => Cmulr c2 (n - n0 ^ 2)) n_r2_slice) E_slice ;;
  damping_term <- broadcast Cscale (map Ropp sigma_x) E_slice ;;
  s <- broadcast Cadd laplacian_term index_term ;;
  broadcast Cadd s damping_term.

(** ** [run_bpm] *)

(** A 2-D array of shape (Nx, Nz) is the list of its Nz columns. *)
Definition array2 (A : Type) : Type := list (list A).

(** [M[:, j]] as an rvalue. *)
Definition col {A : Type} (M : array2 A) (j : nat) : result (list A) :=
  match nth_error M j with
  | Some c => Ok c
  | None => Err IndexError
  end.

Fixpoint update_nth {A : Type} (j : nat) (v : A) (l : list A) : list A :=
  match l, j with
  | [], _ => []
  | _ :: t, O => v :: t
  | h :: t, S j' => h :: update_nth j' v t
  end.

(** What a 1-D value becomes when it is stored in a slot of [len] cells. *)
Definition fit_to {A : Type} (len : nat) (v : list A) : option (list A) :=
  if Nat.eqb (length v) len then Some v
  else match v with
       | [u] => Some (repeat u len)
       | _ => None
       end.

(** [M[:, j] = v]. *)
Definition set_col {A : Type} (M : array2 A) (j : nat) (v : list A)
  : result (array2 A) :=
  match nth_error M j with
  | None => Err IndexError
  | Some old =>
      match fit_to (length old) v with
      | Some v' => Ok (update_nth j v' M)
      | None => Err (ValueError "could not broadcast input array")
      end
  end.

(** The body of the loop, lines 41 to 45, as a function of the two
    slices it reads. *)
Definition rk4_column (E_prev : list C) (n_r2_slice : list R)
    (dx dz n0 : R) (sigma_x : list R) (k0 : R) : result (list C) :=
  d1 <- compute_dE_dz E_prev n_r2_slice dx n0 sigma_x k0 ;;
  let k1 := map (Cscale dz) d1 in
  a2 <- broadcast Cadd E_prev (map (fun s => Cdivr s 2) k1) ;;
  d2 <- compute_dE_dz a2 n_r2_slice dx n0 sigma_x k0 ;;
  let k2 := map (Cscale dz) d2 in
  a3 <- broadcast Cadd E_prev (map (fun s => Cdivr s 2) k2) ;;
  d3 <- compute_dE_dz a3 n_r2_slice dx n0 sigma_x k0 ;;
  let k3 := map (Cscale dz) d3 in
  a4 <- broadcast Cadd E_prev k3 ;;
  d4 <- compute_dE_dz a4 n_r2_slice dx n0 sigma_x k0 ;;
  let k4 := map (Cscale dz) d4 in
  s12 <- broadcast Cadd k1 (map (Cscale 2) k2) ;;
  s123 <- broadcast Cadd s12 (map (Cscale 2) k3) ;;
  s <- broadcast Cadd s123 k4 ;;
  broadcast Cadd E_prev (map (fun t => Cdivr t 6) s).

(** The array [E] and the columns assigned so far. *)
Record bpm_state : Type := mkState {
  field : array2 C;
  written : list nat
}.

Definition bpm_step (n_r2 : array2 R) (dx dz n0 : R) (sigma_x : list R)
    (k0 : R) (st : bpm_state) (zi : nat) : result bpm_state :=
  E_prev <- col (field st) (zi - 1) ;;
  n_r2_slice <- col n_r2 (zi - 1) ;;
  v <- rk4_column E_prev n_r2_slice dx dz n0 sigma_x k0 ;;
  E' <- set_col (field st) zi v ;;
  Ok (mkState E' (written st ++ [zi])).

(** The [for] loop: an exception leaves the state as the last completed
    step made it. *)
Fixpoint march (step : bpm_state -> nat -> result bpm_state)
    (zis : list nat) (st : bpm_state) : bpm_state * option exn :=
  match zis with
  | [] => (st, None)
  | zi :: rest =>
      match step st zi with
      | Ok st' => march step rest st'
      | Err e => (st, Some e)
      end
  end.

Definition run_bpm (E : array2 C) (n_r2 : array2 R) (x z : list R)
    (dx dz n0 : R) (sigma_x : list R) (wavelength : R)
  : bpm_state * option exn :=
  let st0 := mkState E [] in
  match pydiv (2 * PI) wavelength with
  | Err e => (st0, Some e)
  | Ok k0 =>
      let Nz := length z in
      march (bpm_step n_r2 dx dz n0 sigma_x k0) (seq 1 (Nz - 1)) st0
  end.

(** ** [slab_mode_source]: arguments *)

(** A numpy array of reals: its shape and its elements in row-major
    order.  [x.ndim] is the length of the shape. *)
Record ndarray : Type := mkArr { shape : list nat; flat : list R }.

Definition ndim (a : ndarray) : nat := length (shape a).

(** The values a caller can pass for [ind_m]. *)
Inductive pyval : Type :=
| PyInt (n : Z)
| PyBool (b : bool)
| PyFloat (r : R)
| NpInt (n : Z)
| PyStr (s : string)
| PyNone.

(** [isinstance(v, int)]: [bool] is a subclass of [int]; a float and a
    numpy integer are not. *)
Definition isinstance_int (v : pyval) : bool :=
  match v with
  | PyInt _ | PyBool _ => true
  | _ => false
  end.

(** The integer an [int] instance denotes. *)
Definition int_value (v : pyval) : Z :=
  match v with
  | PyInt n => n
  | PyBool true => 1%Z
  | _ => 0%Z
  end.

Definition Rltb (a b : R) : bool := if Rlt_dec a b then true else false.
Definition Rleb (a b : R) : bool := if Rle_dec a b then true else false.

Definition msg_x : string := "x must be 1D array".
Definition msg_w : string := "Waveguide width w must be positive".
Definition msg_n_WG : string :=
  "Core index n_WG must be greater than cladding index n0".
Definition msg_n0 : string := "Cladding index n0 must be positive".
Definition msg_wavelength : string := "Wavelength must be positive".
Definition msg_ind_m : string :=
  "Mode index ind_m must be non-negative integer".
Definition msg_no_modes : string :=
  "No guided slab modes found in [n0*k0, n_WG*k0].".

(** Lines 60 to 72: the first violated condition raises. *)
Definition validate (x : ndarray) (w n_WG n0 wavelength : R) (ind_m : pyval)
  : option exn :=
  if negb (Nat.eqb (ndim x) 1) then Some (ValueError msg_x)
  else if Rleb w 0 then Some (ValueError msg_w)
  else if Rleb n_WG n0 then Some (ValueError msg_n_WG)
  else if Rleb n0 0 then Some (ValueError msg_n0)
  else if Rleb wavelength 0 then Some (ValueError msg_wavelength)
  else if negb (isinstance_int ind_m) || Z.ltb (int_value ind_m) 0
       then Some (ValueError msg_ind_m)
  else None.

(** ** [slab_mode_source]: the dispersion relations *)

Inductive parity : Type := Even | Odd.

Definition tol_root : R := 1 / 10 ^ 9.
Definition tol_sin : R := 1 / 10 ^ 12.
Definition N_scan : nat := 2000.

Section Dispersion.

Variables w n_WG n0 k0 : R.

Definition f_even (beta : R) : option R :=
  if Rltb beta (n0 * k0) || Rltb (n_WG * k0) beta then None
  else
    let inside := n_WG ^ 2 * k0 ^ 2 - beta ^ 2 in
    let outside := beta ^ 2 - n0 ^ 2 * k0 ^ 2 in
    if Rleb inside 0 || Rleb outside 0 then None
    else
      let kx := sqrt inside in
      let kappa := sqrt outside in
      Some (kx * tan (kx * w / 2) - kappa).

Definition f_odd (beta : R) : option R :=
  if Rltb beta (n0 * k0) || Rltb (n_WG * k0) beta then None
  else
    let inside := n_WG ^ 2 * k0 ^ 2 - beta ^ 2 in
    let outside := beta ^ 2 - n0 ^ 2 * k0 ^ 2 in
    if Rleb inside 0 || Rleb outside 0 then None
    else
      let kx := sqrt inside in
      let kappa := sqrt outside in
      let sin_term := sin (kx * w / 2) in
      if Rltb (Rabs sin_term) tol_sin then None
      else Some (- kx * (cos (kx * w / 2) / sin_term) - kappa).

(** [m = int(np.floor(2 * theta / np.pi))]. *)
Definition branch_index (beta : R) : Z :=
  let kx := sqrt (n_WG ^ 2 * k0 ^ 2 - beta ^ 2) in
  let theta := kx * w / 2 in
  Zfloor (2 * theta / PI).

Definition valid_even (beta : R) : bool :=
  let inside := n_WG ^ 2 * k0 ^ 2 - beta ^ 2 in
  if Rleb inside 0 then false
  else
    let kx := sqrt inside in
    let theta := kx * w / 2 in
    let m := branch_index beta in
    if Z.eqb (m mod 2) 0
    then negb (Z.eqb m 0 && Rltb (PI / 2 - 1 / 10) theta)
    else false.

Definition valid_odd (beta : R) : bool :=
  let inside := n_WG ^ 2 * k0 ^ 2 - beta ^ 2 in
  if Rleb inside 0 then false
  else Z.eqb (branch_index beta mod 2) 1.

(** [np.linspace(start, stop, num)]: sample [i] is [i * step + start]. *)
Definition linspace (start stop : R) (num : nat) : list R :=
  let step := (stop - start) / INR (num - 1) in
  map (fun i => INR i * step + start) (seq 0 num).

Definition beta_scan : list R := linspace (n0 * k0) (n_WG * k0) N_scan.

(** Both values defined and their product negative. *)
Definition sign_change (a b : option R) : bool :=
  match a, b with
  | Some u, Some v => Rltb (u * v) 0
  | _, _ => false
  end.

(** Lines 127 to 141 for one of the two functions. *)
Definition intervals (f : R -> option R) : list (R * R) :=
  let f_vals := map f beta_scan in
  flat_map
    (fun i =>
       if sign_change (nth i f_vals None) (nth (i + 1) f_vals None)
       then [(nth i beta_scan 0, nth (i + 1) beta_scan 0)]
       else [])
    (seq 0 (N_scan - 1)).

(** The loop of [refine_root] with [n] iterations left; [b_mid] is the
    midpoint of the previous iteration, which line 159 returns when the
    loop runs out. *)
Fixpoint refine_loop (n : nat) (f : R -> option R)
    (b_left b_right b_mid : R) : R :=
  match n with
  | O => b_mid
  | S n' =>
      let b_mid := 0.5 * (b_left + b_right) in
      match f b_mid with
      | None => refine_loop n' f b_left b_mid b_mid
      | Some val_mid =>
          if Rltb (Rabs val_mid) tol_root then b_mid
          else
            match f b_left with
            | None => refine_loop n' f b_mid b_right b_mid
            | Some val_left =>
                if Rltb 0 (val_left * val_mid)
                then refine_loop n' f b_mid b_right b_mid
                else refine_loop n' f b_left b_mid b_mid
            end
      end
  end.

(** [b_mid] is unbound before the first iteration; the loop runs fifty
    times, so the initial value given here is never returned. *)
Definition refine_root (f : R -> option R) (b_left b_right : R) : R :=
  refine_loop 50 f b_left b_right b_left.

Global Arguments refine_root : simpl never.

Definition roots (f : R -> option R) (valid : R -> bool) : list R :=
  filter valid
    (map (fun lr => refine_root f (fst lr) (snd lr)) (intervals f)).

Definition even_roots : list R := roots f_even valid_even.
Definition odd_roots : list R := roots f_odd valid_odd.

Definition modes : list (parity * R) :=
  map (pair Even) even_roots ++ map (pair Odd) odd_roots.

End Dispersion.

(** [sorted(modes, key=lambda tup: tup[1], reverse=True)]: descending in
    beta, modes of equal beta in their original order. *)
Fixpoint insert_desc (m : parity * R) (l : list (parity * R))
  : list (parity * R) :=
  match l with
  | [] => [m]
  | h :: t => if Rltb (snd m) (snd h) then h :: insert_desc m t
              else m :: h :: t
  end.

Definition sorted_desc (l : list (parity * R)) : list (parity * R) :=
  fold_right insert_desc [] l.

Definition modes_sorted (w n_WG n0 k0 : R) : list (parity * R) :=
  sorted_desc (modes w n_WG n0 k0).

(** The scan has two thousand samples and the bisection fifty rounds:
    conversion is told to unfold the names that merely abbreviate before
    the functions that iterate. *)
Strategy expand [modes_sorted even_roots odd_roots modes].
Strategy 1000
  [refine_root refine_loop roots intervals beta_scan linspace sorted_desc].

(** ** [slab_mode_source]: the field *)

(** [np.sign]. *)
Definition Rsign (r : R) : R :=
  if Rltb r 0 then -1 else if Rltb 0 r then 1 else 0.

(** Lines 190 to 208: the profile before normalisation. *)
Definition mode_profile (w kx kappa x0 : R) (p : parity) (xi : R) : R :=
  let xp := xi - x0 in
  match p with
  | Even =>
      if Rleb (Rabs xp) (w / 2) then cos (kx * xp)
      else cos (kx * (w / 2)) * exp (- kappa * (Rabs xp - w / 2))
  | Odd =>
      if Rleb (Rabs xp) (w / 2) then sin (kx * xp)
      else Rsign xp * sin (kx * (w / 2)) * exp (- kappa * (Rabs xp - w / 2))
  end.

Definition raw_field (x : list R) (w n_WG n0 k0 x0 : R)
    (mode : parity * R) : list C :=
  let beta_chosen := snd mode in
  let inside := n_WG ^ 2 * k0 ^ 2 - beta_chosen ^ 2 in
  let outside := beta_chosen ^ 2 - n0 ^ 2 * k0 ^ 2 in
  let kx := sqrt inside in
  let kappa := sqrt outside in
  map (fun xi => RtoC (mode_profile w kx kappa x0 (fst mode) xi)) x.

(** [trapezoid(y, x)]: the sum of [(x[i+1] - x[i]) * (y[i+1] + y[i]) / 2]. *)
Fixpoint trapezoid (y x : list R) : R :=
  match y, x with
  | y0 :: ((y1 :: _) as y'), x0 :: ((x1 :: _) as x') =>
      (x1 - x0) * (y1 + y0) / 2 + trapezoid y' x'
  | _, _ => 0
  end.

(** The integral of [np.abs(E) ** 2] over [x]. *)
Definition power (E : list C) (x : list R) : R :=
  trapezoid (map (fun e => Cabs e ^ 2) E) x.

(** Lines 209 and 210.  The division is that of the reals: the model
    follows the code where the integral is positive; where it is zero or
    negative numpy yields entries that are not finite, which the reals do
    not have; the theorems that state the values of the field returned
    ask for a positive integral. *)
Definition normalize (E : list C) (x : list R) : list C :=
  let norm := sqrt (power E x) in
  map (fun e => Cdivr e norm) E.

(** The warning of line 177: the index asked for, the number of modes
    found, the index used instead. *)
Inductive warning : Type :=
| UserWarning_mode_index (requested : Z) (found : nat) (used : nat).

(** Lines 176 to 182: the index used and the warnings emitted. *)
Definition clamp_index (ind_m : Z) (found : nat) : nat * list warning :=
  if Z.geb ind_m (Z.of_nat found)
  then ((found - 1)%nat, [UserWarning_mode_index ind_m found (found - 1)])
  else (Z.to_nat ind_m, []).

(** The mode lines 174 to 184 select, when they select one. *)
Definition chosen_mode (w n_WG n0 wavelength : R) (ind_m : pyval)
  : option (parity * R) :=
  let sorted := modes_sorted w n_WG n0 (2 * PI / wavelength) in
  nth_error sorted (fst (clamp_index (int_value ind_m) (length sorted))).

Definition slab_mode_source (x : ndarray) (w n_WG n0 wavelength : R)
    (ind_m : pyval) (x0 : R) : result (list C) * list warning :=
  match validate x w n_WG n0 wavelength ind_m with
  | Some e => (Err e, [])
  | None =>
      let k0 := 2 * PI / wavelength in
      let sorted := modes_sorted w n_WG n0 k0 in
      match sorted with
      | [] => (Err (ValueError msg_no_modes), [])
      | _ =>
          let (ind, ws) := clamp_index (int_value ind_m) (length sorted) in
          match nth_error sorted ind with
          | None => (Err IndexError, ws)
          | Some mode =>
              let E := raw_field (flat x) w n_WG n0 k0 x0 mode in
              (Ok (normalize E (flat x)), ws)
          end
      end
  end.

(** ** The formulas of the specification *)

(** [E[j]] with the index taken modulo the length. *)
Definition wrap_index (E : list C) (j : Z) : C :=
  nth (Z.to_nat (j mod Z.of_nat (length E))) E C0.

(** The right-hand side of the propagation equation at transverse index
    [i], as the specification writes it. *)
Definition dE_dz_formula (E : list C) (n_r2 : list R) (dx n0 : R)
    (sigma_x : list R) (k0 : R) (i : nat) : C :=
  let Ei := nth i E C0 in
  let laplacian :=
    Cadd (Csub (wrap_index E (Z.of_nat i + 1)) (Cscale 2 Ei))
         (wrap_index E (Z.of_nat i - 1)) in
  Csub
    (Cadd
       (Cdivr (Cmul (Cdivr Ci (2 * k0 * n0)) laplacian) (dx ^ 2))
       (Cmul (Cmulr (Cmulr Ci (k0 / (2 * n0))) (nth i n_r2 0 - n0 ^ 2)) Ei))
    (Cscale (nth i sigma_x 0) Ei).

(** Pointwise operations on columns of one length. *)
Definition vadd (a b : list C) : list C := map2 Cadd a b.
Definition vscale (r : R) (a : list C) : list C := map (Cscale r) a.
Definition vdiv (a : list C) (r : R) : list C := map (fun s => Cdivr s r) a.

(** The classic Runge-Kutta combination of four increments. *)
Definition rk4_combine (E_prev k1 k2 k3 k4 : list C) : list C :=
  vadd E_prev
    (vdiv (vadd (vadd (vadd k1 (vscale 2 k2)) (vscale 2 k3)) k4) 6).

(** The value [compute_dE_dz] returns on slices of one length. *)
Definition dE_dz_value (E : list C) (n_r2 : list R) (dx n0 : R)
    (sigma_x : list R) (k0 : R) : list C :=
  map2 Cadd
    (map2 Cadd
       (map (Cmul (Cdivr Ci (2 * k0 * n0)))
          (map (fun s => Cdivr s (dx ^ 2))
             (map2 Cadd (map2 Csub (roll E 1) (map (Cscale 2) E))
                (roll E (-1)))))
       (map2 Cmul
          (map (fun n => Cmulr (Cmulr Ci (k0 / (2 * n0))) (n - n0 ^ 2)) n_r2)
          E))
    (map2 Cscale (map Ropp sigma_x) E).

(** The four increments of one step from [E_prev], all taken with the
    index slice [n_prev], combined. *)
Definition rk4_value (E_prev : list C) (n_prev : list R) (dx dz n0 : R)
    (sigma_x : list R) (k0 : R) : list C :=
  let f := fun E => dE_dz_value E n_prev dx n0 sigma_x k0 in
  let k1 := vscale dz (f E_prev) in
  let k2 := vscale dz (f (vadd E_prev (vdiv k1 2))) in
  let k3 := vscale dz (f (vadd E_prev (vdiv k2 2))) in
  let k4 := vscale dz (f (vadd E_prev k3)) in
  rk4_combine E_prev k1 k2 k3 k4.

(** The arrays have the shapes the docstring of [run_bpm] asks for: at
    least [Nz] columns, every column and the damping profile of length
    [Nx]. *)
Definition conforming (Nx Nz : nat) (E : array2 C) (n_r2 : array2 R)
    (sigma_x : list R) : Prop :=
  (Nz <= length E)%nat /\ (Nz <= length n_r2)%nat /\
  Forall (fun c => length c = Nx) E /\
  Forall (fun c => length c = Nx) n_r2 /\
  length sigma_x = Nx.

(** Column [zi] of [F] is what one step makes of column [zi - 1] of [F]
    and column [zi - 1] of the index map. *)
Definition column_from_previous (n_r2 : array2 R) (dx dz n0 : R)
    (sigma_x : list R) (k0 : R) (F : array2 C) (zi : nat) : Prop :=
  exists E_prev n_prev v c,
    nth_error F (zi - 1) = Some E_prev /\
    nth_error n_r2 (zi - 1) = Some n_prev /\
    rk4_column E_prev n_prev dx dz n0 sigma_x k0 = Ok v /\
    nth_error F zi = Some c /\
    fit_to (length c) v = Some c.

(** [E_next] is the classic four-stage step from [E_prev]; each of the
    four derivative evaluations takes the same index slice [n_prev]. *)
Definition rk4_step_relation (E_prev E_next : list C) (n_prev : list R)
    (dx dz n0 : R) (sigma_x : list R) (k0 : R) : Prop :=
  exists d1 d2 d3 d4,
    let k1 := vscale dz d1 in
    let k2 := vscale dz d2 in
    let k3 := vscale dz d3 in
    let k4 := vscale dz d4 in
    compute_dE_dz E_prev n_prev dx n0 sigma_x k0 = Ok d1 /\
    compute_dE_dz (vadd E_prev (vdiv k1 2)) n_prev dx n0 sigma_x k0 = Ok d2 /\
    compute_dE_dz (vadd E_prev (vdiv k2 2)) n_prev dx n0 sigma_x k0 = Ok d3 /\
    compute_dE_dz (vadd E_prev k3) n_prev dx n0 sigma_x k0 = Ok d4 /\
    E_next = rk4_combine E_prev k1 k2 k3 k4.

(** The shapes disagree: a column of the field or of the index map has
    not the length of [x] or of [sigma_x], or the number of columns of
    one of them is not the length of [z]. *)
Definition shapes_disagree (E : array2 C) (n_r2 : array2 R) (x z : list R)
    (sigma_x : list R) : Prop :=
  (exists c, In c E /\ (length c <> length x \/ length c <> length sigma_x)) \/
  (exists c, In c n_r2 /\
             (length c <> length x \/ length c <> length sigma_x)) \/
  length E <> length z \/
  length n_r2 <> length z.

(** Two calls with disagreeing shapes: a one-point transverse grid with
    an empty [x], and a field of two columns marched over three axial
    positions. *)
Definition E_two : array2 C := [[RtoC 1]; [C0]].
Definition n_two : array2 R := [[1]; [1]].
Definition n_three : array2 R := [[1]; [1]; [1]].
Definition z_two : list R := [0; 1].
Definition z_three : list R := [0; 1; 2].

(** A three-point slice with its index slice and damping profile. *)
Definition E_three : list C := [RtoC 1; mkC 0 2; C0].
Definition n_slice_three : list R := [1; 2; 1].
Definition sigma_three : list R := [0; 0; 3].

(** One of the documented preconditions of [slab_mode_source] fails. *)
Definition precondition_violated (x : ndarray) (w n_WG n0 wavelength : R)
    (ind_m : pyval) : Prop :=
  ndim x <> 1%nat \/ w <= 0 \/ n_WG <= n0 \/ n0 <= 0 \/ wavelength <= 0 \/
  isinstance_int ind_m = false \/ (int_value ind_m < 0)%Z.

(** The preconditions on the arguments other than [ind_m]. *)
Definition other_arguments_valid (x : ndarray) (w n_WG n0 wavelength : R)
  : Prop :=
  ndim x = 1%nat /\ 0 < w /\ n0 < n_WG /\ 0 < n0 /\ 0 < wavelength.

(** The characteristic function of a parity. *)
Definition characteristic (w n_WG n0 k0 : R) (p : parity) : R -> option R :=
  match p with
  | Even => f_even w n_WG n0 k0
  | Odd => f_odd w n_WG n0 k0
  end.

Strategy expand [characteristic].

(** The sub-interval [(l', r')] still brackets the change of sign that
    the value [u] at the left sample began: its left end carries a value
    of the sign of [u], its right end carries no value or a value of the
    opposite sign. *)
Definition bracket_kept (f : R -> option R) (u l' r' : R) : Prop :=
  (exists u', f l' = Some u' /\ 0 < u * u') /\
  (f r' = None \/ exists v', f r' = Some v' /\ u * v' < 0).

(** Where the refinement of the bracket [(l, r)] can stop at [b]: on a
    value below the tolerance, or on the fiftieth midpoint, the midpoint
    of the sub-interval that the forty-nine halvings before it left,
    which still brackets the change of sign. *)
Definition refined_in (f : R -> option R) (l r b : R) : Prop :=
  (exists v, f b = Some v /\ Rabs v < tol_root) \/
  (exists l' r' u,
     l <= l' /\ l' < r' /\ r' <= r /\ r' - l' = (r - l) / 2 ^ 49 /\
     b = 0.5 * (l' + r') /\ f l = Some u /\ bracket_kept f u l' r').

(** The branch filter of each parity. *)
Definition valid_parity (w n_WG k0 : R) (p : parity) : R -> bool :=
  match p with
  | Even => valid_even w n_WG k0
  | Odd => valid_odd w n_WG k0
  end.

(** A function with a pole at [t] inside the bracket [(l, r)]: negative
    before it, positive after it, nowhere within the tolerance of zero. *)
Definition pole_between (f : R -> option R) (l r t : R) : Prop :=
  (forall b, l <= b < t ->
     exists v, f b = Some v /\ v < 0 /\ tol_root <= Rabs v) /\
  (forall b, t < b <= r ->
     exists v, f b = Some v /\ 0 < v /\ tol_root <= Rabs v).

(** The angle kx w / 2 at beta = k0 b for a slab of width 5 and core
    index 2. *)
Definition angle (k0 b : R) : R := k0 * sqrt (4 - b ^ 2) * 5 / 2.

(** The ends of the interval carry values of opposite sign. *)
Definition opposite_signs (f : R -> option R) (l r : R) : Prop :=
  exists u v, f l = Some u /\ f r = Some v /\ u * v < 0.


(** Column [k] of the march that starts from the column [E0]: [k] steps,
    step [j] taken with column [j] of the index map. *)
Fixpoint column_at (dx dz n0 : R) (sigma_x : list R) (k0 : R) (k : nat)
    (E0 : list C) (n_cols : array2 R) : option (list C) :=
  match k with
  | O => Some E0
  | S k' =>
      match n_cols with
      | [] => None
      | n :: rest =>
          column_at dx dz n0 sigma_x k0 k'
            (rk4_value E0 n dx dz n0 sigma_x k0) rest
      end
  end.

(** The combination c1 a + c2 b of two columns. *)
Definition vlin (c1 c2 : C) (a b : list C) : list C :=
  map2 (fun u v => Cadd (Cmul c1 u) (Cmul c2 v)) a b.

(** * [bpm.refractive_index] *)

Definition msg_xz : string := "x and z must be 1D arrays".
Definition msg_L : string := "Propagation length L must be positive".
Definition msg_core : string :=
  "Core index n_WG must be greater than background index n0".
Definition msg_background : string :=
  "Background index n0 must be positive".

(** [np.full((Nx, Nz), v)], as the list of its Nz columns. *)
Definition full (Nx Nz : nat) (v : R) : array2 R := repeat (repeat v Nx) Nz.

(** [np.clip(a, lo, hi)]: the minimum of [hi] and of the maximum of [a]
    and [lo]; numpy does not check that [lo <= hi]. *)
Definition clip (a lo hi : R) : R := Rmin (Rmax a lo) hi.

(** [c[mask] = v] on a 1-D array [c] and a boolean mask of its length. *)
Definition mask_assign (mask : list bool) (v : R) (c : list R) : list R :=
  map2 (fun (m : bool) old => if m then v else old) mask c.

(** Line 89: the centre of the guide at the axial position [zz], before
    clipping. *)
Definition bend (l L zz : R) : R :=
  (l / L) * zz - (l / (2 * PI)) * sin ((2 * PI / L) * zz).

(** Lines 91 to 95: the body of the loop over the axial index [iz];
    [iz] runs over [range(Nz)], inside [x_c] and the columns of
    [n_r2]. *)
Definition waveguide_step (x x_c : list R) (w n_WG : R) (n_r2 : array2 R)
    (iz : nat) : array2 R :=
  let lower_edge := nth iz x_c 0 - w / 2 in
  let upper_edge := nth iz x_c 0 + w / 2 in
  let in_wg := map (fun xi => Rleb lower_edge xi && Rleb xi upper_edge) x in
  match nth_error n_r2 iz with
  | Some c => update_nth iz (mask_assign in_wg (n_WG ^ 2) c) n_r2
  | None => n_r2
  end.

Definition generate_waveguide_n_r2 (x z : ndarray) (l L w n_WG n0 : R)
  : result (array2 R) :=
  if negb (Nat.eqb (ndim x) 1) || negb (Nat.eqb (ndim z) 1)
  then Err (ValueError msg_xz)
  else if Rleb L 0 then Err (ValueError msg_L)
  else if Rleb w 0 then Err (ValueError msg_w)
  else if Rleb n_WG n0 then Err (ValueError msg_core)
  else if Rleb n0 0 then Err (ValueError msg_background)
  else
    let Nx := length (flat x) in
    let Nz := length (flat z) in
    let n_r2 := full Nx Nz (n0 ^ 2) in
    let x_c := map (bend l L) (flat z) in
    let x_c := map (fun c => clip c 0 l) x_c in
    Ok (fold_left (waveguide_step (flat x) x_c w n_WG) (seq 0 Nz) n_r2).

(** The squared index across a straight guide of width [w] centred at
    [xc]: the core value where [xc - w/2 <= x <= xc + w/2], the
    background value elsewhere. *)
Definition guide_profile (x : list R) (xc w n_WG n0 : R) : list R :=
  map (fun xi =>
         if Rleb (xc - w / 2) xi && Rleb xi (xc + w / 2)
         then n_WG ^ 2 else n0 ^ 2) x.

(** The documented preconditions of [generate_waveguide_n_r2]. *)
Definition waveguide_arguments_valid (x z : ndarray) (L w n_WG n0 : R)
  : Prop :=
  ndim x = 1%nat /\ ndim z = 1%nat /\ 0 < L /\ 0 < w /\ n0 < n_WG /\ 0 < n0.

(** [generate_MMI_n_r2]: the three masks on the (Nx, Nz) grid of
    [np.meshgrid(x, z, indexing="ij")], column by column, and the three
    masked assignments in the order of the source. *)
Definition in_port (d w_wg X : R) : bool :=
  Rleb (Rabs (X + d / 2)) (w_wg / 2) || Rleb (Rabs (X - d / 2)) (w_wg / 2).

Definition mask2 (p : R -> R -> bool) (x z : list R) : list (list bool) :=
  map (fun Z => map (fun X => p X Z) x) z.

Definition mask_assign2 (mask : list (list bool)) (v : R) (a : array2 R)
  : array2 R :=
  map2 (fun m c => mask_assign m v c) mask a.

Definition generate_MMI_n_r2 (x z : list R)
    (z_MMI_start L_MMI w_MMI w_wg d n_WG n_MMI n0 : R) : array2 R :=
  let Nx := length x in
  let Nz := length z in
  let n_r2 := full Nx Nz (n0 ^ 2) in
  let z_MMI_end := z_MMI_start + L_MMI in
  let mask_input :=
    mask2 (fun X Z => Rltb Z z_MMI_start && in_port d w_wg X) x z in
  let mask_MMI :=
    mask2 (fun X Z => Rleb z_MMI_start Z && Rleb Z z_MMI_end
                      && Rleb (Rabs X) (w_MMI / 2)) x z in
  let mask_output :=
    mask2 (fun X Z => Rltb z_MMI_end Z && in_port d w_wg X) x z in
  let n_r2 := mask_assign2 mask_input (n_WG ^ 2) n_r2 in
  let n_r2 := mask_assign2 mask_output (n_WG ^ 2) n_r2 in
  let n_r2 := mask_assign2 mask_MMI (n_MMI ^ 2) n_r2 in
  n_r2.

(** [generate_lens_n_r2] on 1-D arrays [x] and [z]: [n_r2[ix, mask] = v]
    changes row [ix] of the columns the mask selects. *)
Definition row_assign (ix : nat) (mask : list bool) (v : R) (a : array2 R)
  : array2 R :=
  map2 (fun (m : bool) c => if m then update_nth ix v c else c) mask a.

(** Lines 33 to 37: the body of the loop over the transverse index
    [ix]; rows outside the aperture are skipped. *)
Definition lens_step (x z : list R) (x_lens lens_diameter : R)
    (z_first z_second : list R) (n_lens : R) (n_r2 : array2 R) (ix : nat)
  : array2 R :=
  if Rltb (lens_diameter / 2) (Rabs (nth ix x 0 - x_lens)) then n_r2
  else
    let in_lens :=
      map (fun zz => Rleb (nth ix z_first 0) zz
                     && Rleb zz (nth ix z_second 0)) z in
    row_assign ix in_lens (n_lens ^ 2) n_r2.

(** The first and the second surface of the lens at the transverse
    position [xi]. *)
Definition surface_first (z1 R1 x_lens xi : R) : R :=
  z1 + (R1 - sqrt (Rmax (R1 ^ 2 - (xi - x_lens) ^ 2) 0)).
Definition surface_second (z2 R2 x_lens xi : R) : R :=
  z2 - (R2 - sqrt (Rmax (R2 ^ 2 - (xi - x_lens) ^ 2) 0)).

Definition generate_lens_n_r2 (x z : list R)
    (lens_diameter lens_thickness R1 R2 n_lens n0 lens_center_z x_lens : R)
  : array2 R :=
  let Nx := length x in
  let Nz := length z in
  let n_r2 := full Nx Nz (n0 ^ 2) in
  let z1 := lens_center_z - lens_thickness / 2 in
  let z2 := lens_center_z + lens_thickness / 2 in
  let z_first := map (surface_first z1 R1 x_lens) x in
  let z_second := map (surface_second z2 R2 x_lens) x in
  fold_left (lens_step x z x_lens lens_diameter z_first z_second n_lens)
    (seq 0 Nx) n_r2.

(** Small grids. *)
Definition x_one_point : ndarray := mkArr [1%nat] [0].
Definition x_three_points : ndarray := mkArr [3%nat] [-1; 0; 1].
Definition z_two_points : ndarray := mkArr [2%nat] [0; 1].

(** The bracket of samples 1844 and 1845 of the scan for w = 5,
    n_WG = 2, n0 = 1, wavelength 1/2, divided into 2^50 equal parts: the
    pole of the even characteristic at beta = 4 pi sqrt(1479) / 20 lies
    between this mark and the next. *)
Definition pole_mark_1844 : Z := 961536707756872.

(** ** The field of a mode, as the specification writes it *)

(** Step 7 of the specification: [u] is the value at the transverse
    position [xi] of the profile of the mode of parity [p] and propagation
    constant [beta], for a slab of width [w] centred at [x0]: a cosine or
    a sine inside the core, an exponential tail outside it, of the sign of
    [xi - x0] for an odd mode. *)
Definition profile_value (w n_WG n0 k0 x0 : R) (p : parity)
    (beta xi u : R) : Prop :=
  let kx := sqrt (n_WG ^ 2 * k0 ^ 2 - beta ^ 2) in
  let kappa := sqrt (beta ^ 2 - n0 ^ 2 * k0 ^ 2) in
  let xp := xi - x0 in
  let tail := exp (- kappa * (Rabs xp - w / 2)) in
  match p with
  | Even =>
      (Rabs xp <= w / 2 -> u = cos (kx * xp)) /\
      (w / 2 < Rabs xp -> u = cos (kx * (w / 2)) * tail)
  | Odd =>
      (Rabs xp <= w / 2 -> u = sin (kx * xp)) /\
      (w / 2 < Rabs xp -> 0 < xp -> u = sin (kx * (w / 2)) * tail) /\
      (w / 2 < Rabs xp -> xp < 0 -> u = - (sin (kx * (w / 2)) * tail)) /\
      (w / 2 < Rabs xp -> xp = 0 -> u = 0)
  end.

(** Steps 7 and 8: [E] has one entry per grid point; with [u] the profile
    of [mode] on the grid [x] and [P] the trapezoidal integral of its
    square, when [P] is positive every entry of [E] is the entry of [u]
    divided by the square root of [P], and the trapezoidal integral of
    |E|^2 is 1. *)
Definition normalized_mode_field (x : list R) (w n_WG n0 k0 x0 : R)
    (mode : parity * R) (E : list C) : Prop :=
  exists u : list R,
    length u = length x /\ length E = length x /\
    (forall i, (i < length x)%nat ->
       profile_value w n_WG n0 k0 x0 (fst mode) (snd mode)
         (nth i x 0) (nth i u 0)) /\
    let P := trapezoid (map (fun v => v ^ 2) u) x in
    (0 < P ->
     (forall i, (i < length x)%nat ->
        nth i E C0 = RtoC (nth i u 0 / sqrt P)) /\
     power E x = 1).

(** * Properties *)

(** ** Lists, broadcasting and [roll] *)

Lemma C_eq (a b : C) : Re a = Re b -> Im a = Im b -> a = b.
Proof. destruct a, b; simpl; intros -> ->; reflexivity. Qed.

Lemma map2_length {A B T} (op : A -> B -> T) a b :
  length a = length b -> length (map2 op a b) = length a.
Proof.
  intros H. unfold map2. rewrite length_map, length_combine, <- H.
  apply Nat.min_id.
Qed.

Lemma nth_map2 {A B T} (op : A -> B -> T) a b i da db d :
  (i < length a)%nat -> (i < length b)%nat ->
  nth i (map2 op a b) d = op (nth i a da) (nth i b db).
Proof.
  revert b i. induction a as [|u a IH]; intros [|v b] [|i] Ha Hb;
    simpl in *; try lia; try reflexivity.
  apply IH; lia.
Qed.

Lemma nth_map_in {A B} (f : A -> B) l i da d :
  (i < length l)%nat -> nth i (map f l) d = f (nth i l da).
Proof.
  intros H. rewrite (nth_indep _ d (f da)) by (rewrite length_map; exact H).
  apply map_nth.
Qed.

Lemma broadcast_same {A B T} (op : A -> B -> T) a b :
  length a = length b -> broadcast op a b = Ok (map2 op a b).
Proof. intros H. unfold broadcast. rewrite H, Nat.eqb_refl. reflexivity. Qed.

Lemma roll_length {A} (a : list A) s : length (roll a s) = length a.
Proof.
  destruct a as [|h t]; [reflexivity|]. unfold roll.
  rewrite length_app, length_skipn, length_firstn. lia.
Qed.

(** Element [i] of [np.roll(a, s)] is element [(i - s) mod n] of [a]. *)
Lemma roll_nth {A} (a : list A) s i d :
  (i < length a)%nat ->
  nth i (roll a s) d =
  nth (Z.to_nat ((Z.of_nat i - s) mod Z.of_nat (length a))) a d.
Proof.
  intros Hi. destruct a as [|h t]; [simpl in Hi; lia|].
  unfold roll. set (l := h :: t) in *. set (n := length l) in *.
  assert (Hn : (0 < Z.of_nat n)%Z) by lia.
  pose proof (Z.mod_pos_bound s (Z.of_nat n) Hn) as Hk.
  set (k := (s mod Z.of_nat n)%Z) in *.
  rewrite <- (Zminus_mod_idemp_r (Z.of_nat i) s). fold k.
  destruct (Z_lt_dec (Z.of_nat i) k) as [Hlt|Hge].
  - rewrite app_nth1 by (rewrite length_skipn; fold n; lia).
    rewrite nth_skipn. f_equal.
    rewrite <- (Z.mod_add _ 1) by lia.
    rewrite Z.mod_small by lia. lia.
  - rewrite app_nth2 by (rewrite length_skipn; fold n; lia).
    rewrite length_skipn. fold n.
    rewrite nth_firstn.
    replace (n - (n - Z.to_nat k))%nat with (Z.to_nat k) by lia.
    destruct (Nat.ltb_spec (i - Z.to_nat k) (n - Z.to_nat k)); [|lia].
    f_equal. rewrite Z.mod_small by lia. lia.
Qed.

(** ** [compute_dE_dz] *)

Lemma pydiv_ok a b : b <> 0 -> pydiv a b = Ok (a / b).
Proof. intros H. unfold pydiv. destruct (Req_dec_T b 0); [contradiction|reflexivity]. Qed.

Lemma pydiv_c_ok a b : b <> 0 -> pydiv_c a b = Ok (Cdivr a b).
Proof. intros H. unfold pydiv_c. destruct (Req_dec_T b 0); [contradiction|reflexivity]. Qed.

Ltac len_simpl :=
  repeat (rewrite ?length_map, ?roll_length, ?map2_length; try congruence).

Lemma dE_dz_value_length E n_r2 dx n0 sigma_x k0 :
  length n_r2 = length E -> length sigma_x = length E ->
  length (dE_dz_value E n_r2 dx n0 sigma_x k0) = length E.
Proof.
  intros H1 H2. unfold dE_dz_value.
  rewrite map2_length; rewrite map2_length; len_simpl.
Qed.

Lemma compute_dE_dz_ok E n_r2 dx n0 sigma_x k0 :
  length n_r2 = length E -> length sigma_x = length E ->
  k0 <> 0 -> n0 <> 0 ->
  compute_dE_dz E n_r2 dx n0 sigma_x k0 =
  Ok (dE_dz_value E n_r2 dx n0 sigma_x k0).
Proof.
  intros H1 H2 Hk Hn. unfold compute_dE_dz.
  rewrite pydiv_c_ok by (intros H; apply Rmult_integral in H;
    destruct H as [H|H]; [apply Rmult_integral in H; destruct H; lra|lra]).
  simpl. rewrite pydiv_ok by lra. simpl.
  rewrite broadcast_same by len_simpl. simpl.
  rewrite broadcast_same by len_simpl. simpl.
  rewrite broadcast_same by len_simpl. simpl.
  rewrite broadcast_same; [reflexivity|].
  rewrite map2_length; len_simpl.
Qed.

(** C4.  On a field slice of length Nx, with an index slice and a damping
    profile of the same length and non-zero k0 and n0, [compute_dE_dz]
    returns, at every transverse index i, the value
    (i/(2 k0 n0)) (E[(i+1) mod Nx] - 2 E[i] + E[(i-1) mod Nx]) / dx^2
    + i (k0/(2 n0)) (n_r2[i] - n0^2) E[i] - sigma_x[i] E[i]:
    the Laplacian wraps around at both transverse edges. *)
Theorem compute_dE_dz_pointwise E n_r2 dx n0 sigma_x k0 :
  length n_r2 = length E -> length sigma_x = length E ->
  k0 <> 0 -> n0 <> 0 ->
  exists d,
    compute_dE_dz E n_r2 dx n0 sigma_x k0 = Ok d /\
    length d = length E /\
    forall i, (i < length E)%nat ->
      nth i d C0 = dE_dz_formula E n_r2 dx n0 sigma_x k0 i.
Proof.
  intros H1 H2 Hk Hn. exists (dE_dz_value E n_r2 dx n0 sigma_x k0).
  split; [apply compute_dE_dz_ok; assumption|].
  split; [apply dE_dz_value_length; assumption|].
  intros i Hi. unfold dE_dz_value, dE_dz_formula, wrap_index.
  rewrite (nth_map2 _ _ _ _ C0 C0);
    [|rewrite map2_length; len_simpl|len_simpl].
  rewrite (nth_map2 _ _ _ _ C0 C0); [|len_simpl|len_simpl].
  rewrite (nth_map2 _ _ _ _ (Cmulr (Cmulr Ci (k0 / (2 * n0))) (0 - n0 ^ 2)) C0);
    [|len_simpl|lia].
  rewrite (nth_map2 _ _ _ _ (- 0) C0); [|len_simpl|lia].
  rewrite (nth_map_in _ _ _ C0) by len_simpl.
  rewrite (nth_map_in _ _ _ C0) by len_simpl.
  rewrite (nth_map2 _ _ _ _ C0 C0); [|len_simpl|len_simpl].
  rewrite (nth_map2 _ _ _ _ C0 C0); [|len_simpl|len_simpl].
  rewrite (nth_map_in _ _ _ C0) by lia.
  rewrite (nth_map_in _ _ _ 0) by lia.
  rewrite (nth_map_in _ _ _ 0) by lia.
  rewrite !roll_nth by lia.
  replace (Z.of_nat i - -1)%Z with (Z.of_nat i + 1)%Z by lia.
  set (Ep := nth (Z.to_nat ((Z.of_nat i + 1) mod Z.of_nat (length E))) E C0).
  set (Em := nth (Z.to_nat ((Z.of_nat i - 1) mod Z.of_nat (length E))) E C0).
  set (Ei := nth i E C0). set (ni := nth i n_r2 0). set (si := nth i sigma_x 0).
  apply C_eq; simpl; unfold Rdiv; ring.
Qed.

(** ** One step of [run_bpm] *)

Lemma vadd_length a b : length a = length b -> length (vadd a b) = length a.
Proof. apply map2_length. Qed.

Lemma vscale_length r a : length (vscale r a) = length a.
Proof. apply length_map. Qed.

Lemma vdiv_length a r : length (vdiv a r) = length a.
Proof. apply length_map. Qed.

Ltac solve_len :=
  first
    [ congruence
    | rewrite length_map; solve_len
    | rewrite roll_length; solve_len
    | rewrite map2_length; [solve_len | solve_len]
    | rewrite dE_dz_value_length; [solve_len | solve_len | solve_len] ].

Lemma rk4_column_ok dx dz n0 k0 sigma_x E_prev n_prev :
  k0 <> 0 -> n0 <> 0 ->
  length n_prev = length E_prev -> length sigma_x = length E_prev ->
  rk4_column E_prev n_prev dx dz n0 sigma_x k0 =
    Ok (rk4_value E_prev n_prev dx dz n0 sigma_x k0) /\
  length (rk4_value E_prev n_prev dx dz n0 sigma_x k0) = length E_prev.
Proof.
  intros Hk0 Hn0 Hn Hs.
  unfold rk4_column, rk4_value, rk4_combine, vadd, vscale, vdiv.
  split.
  - repeat
      (first [ rewrite compute_dE_dz_ok; [|solve_len|solve_len|assumption|assumption]
             | rewrite broadcast_same; [|solve_len] ];
       cbn [bind]).
    reflexivity.
  - solve_len.
Qed.

(** ** Column assignment *)

Lemma update_nth_length {A} j (v : A) l : length (update_nth j v l) = length l.
Proof.
  revert j; induction l as [|h t IH]; intros [|j]; simpl; try reflexivity.
  now rewrite IH.
Qed.

Lemma nth_error_update_same {A} j (v : A) l :
  (j < length l)%nat -> nth_error (update_nth j v l) j = Some v.
Proof.
  revert j; induction l as [|h t IH]; intros [|j] H; simpl in *;
    try lia; try reflexivity.
  apply IH; lia.
Qed.

Lemma nth_error_update_other {A} j i (v : A) l :
  i <> j -> nth_error (update_nth j v l) i = nth_error l i.
Proof.
  revert j i; induction l as [|h t IH]; intros [|j] [|i] H; simpl;
    try reflexivity; try congruence.
  apply IH; congruence.
Qed.

Lemma fit_to_length {A} len (v v' : list A) :
  fit_to len v = Some v' -> length v' = len.
Proof.
  unfold fit_to. destruct (Nat.eqb_spec (length v) len).
  - intros [= <-]; assumption.
  - destruct v as [|u [|? ?]]; try discriminate.
    intros [= <-]. apply repeat_length.
Qed.

Lemma fit_to_same {A} len (v : list A) : length v = len -> fit_to len v = Some v.
Proof. intros H. unfold fit_to. rewrite H, Nat.eqb_refl. reflexivity. Qed.

(** ** The loop of [run_bpm] *)

Section March.

Variables (n_r2 : array2 R) (dx dz n0 : R) (sigma_x : list R) (k0 : R).

Let step := bpm_step n_r2 dx dz n0 sigma_x k0.
Let from_previous := column_from_previous n_r2 dx dz n0 sigma_x k0.

(** What a completed step did: one column assigned, computed from the
    column before it. *)
Lemma bpm_step_inv st zi st' :
  step st zi = Ok st' ->
  exists E_prev n_prev v old v',
    nth_error (field st) (zi - 1) = Some E_prev /\
    nth_error n_r2 (zi - 1) = Some n_prev /\
    rk4_column E_prev n_prev dx dz n0 sigma_x k0 = Ok v /\
    nth_error (field st) zi = Some old /\
    fit_to (length old) v = Some v' /\
    field st' = update_nth zi v' (field st) /\
    written st' = written st ++ [zi].
Proof.
  unfold step, bpm_step, col, set_col.
  destruct (nth_error (field st) (zi - 1)) as [E_prev|] eqn:HE;
    [|discriminate]. cbn [bind].
  destruct (nth_error n_r2 (zi - 1)) as [n_prev|] eqn:Hn;
    [|discriminate]. cbn [bind].
  destruct (rk4_column E_prev n_prev dx dz n0 sigma_x k0) as [v|] eqn:Hv;
    [|discriminate]. cbn [bind].
  destruct (nth_error (field st) zi) as [old|] eqn:Ho; [|discriminate].
  destruct (fit_to (length old) v) as [v'|] eqn:Hf; [|discriminate].
  cbn [bind]. intros [= <-]. simpl.
  exists E_prev, n_prev, v, old, v'. repeat split; reflexivity || assumption.
Qed.

(** The invariant of the march over [range(a, a + n)] with [1 <= a]. *)
Lemma march_inv n : forall a st st' out,
  (1 <= a)%nat ->
  march step (seq a n) st = (st', out) ->
  exists m, (m <= n)%nat /\
    written st' = written st ++ seq a m /\
    (out = None -> m = n) /\
    length (field st') = length (field st) /\
    (forall j, option_map (@length C) (nth_error (field st') j) =
               option_map (@length C) (nth_error (field st) j)) /\
    (forall j, (j < a \/ a + m <= j)%nat ->
       nth_error (field st') j = nth_error (field st) j) /\
    (forall zi, (a <= zi < a + m)%nat -> from_previous (field st') zi).
Proof.
  induction n as [|n IH]; intros a st st' out Ha Hm; simpl in Hm.
  - injection Hm as <- <-. exists 0%nat. simpl. rewrite app_nil_r.
    repeat split; auto; intros; lia.
  - destruct (step st a) as [st1|e] eqn:Hs.
    + destruct (bpm_step_inv _ _ _ Hs)
        as (E_prev & n_prev & v & old & v' & HE & Hn & Hv & Ho & Hf & HF & HW).
      destruct (IH (S a) st1 st' out ltac:(lia) Hm)
        as (m & Hle & Hw & Hout & Hlen & Hshape & Hframe & Hcols).
      assert (Ha_lt : (a < length (field st))%nat)
        by (apply nth_error_Some; rewrite Ho; discriminate).
      exists (S m). split; [lia|]. split.
      { rewrite Hw, HW, <- app_assoc. reflexivity. }
      split; [intros H; f_equal; auto|].
      split; [rewrite Hlen, HF; apply update_nth_length|].
      split.
      { intros j. rewrite Hshape, HF.
        destruct (Nat.eq_dec j a) as [->|Hne].
        - rewrite nth_error_update_same by exact Ha_lt. rewrite Ho. simpl.
          f_equal. apply (fit_to_length _ _ _ Hf).
        - rewrite nth_error_update_other by assumption. reflexivity. }
      split.
      { intros j Hj. rewrite Hframe by lia. rewrite HF.
        apply nth_error_update_other. lia. }
      intros zi Hzi. destruct (Nat.eq_dec zi a) as [->|Hne].
      * exists E_prev, n_prev, v, v'. repeat split.
        -- rewrite Hframe by lia. rewrite HF.
           rewrite nth_error_update_other by lia. exact HE.
        -- exact Hn.
        -- exact Hv.
        -- rewrite Hframe by lia. rewrite HF.
           apply nth_error_update_same; exact Ha_lt.
        -- rewrite (fit_to_length _ _ _ Hf). exact Hf.
      * apply Hcols. lia.
    + injection Hm as <- <-. exists 0%nat. simpl. rewrite app_nil_r.
      repeat split; auto; try discriminate; intros; lia.
Qed.

(** With conforming shapes every step completes. *)
Lemma march_conforming Nx n : forall a st,
  k0 <> 0 -> n0 <> 0 ->
  (1 <= a)%nat ->
  ((0 < n)%nat -> (a + n <= length (field st))%nat) ->
  ((0 < n)%nat -> (a + n <= length n_r2 + 1)%nat) ->
  Forall (fun c => length c = Nx) (field st) ->
  Forall (fun c => length c = Nx) n_r2 ->
  length sigma_x = Nx ->
  snd (march step (seq a n) st) = None.
Proof.
  induction n as [|n IH]; intros a st Hk Hn0 Ha HE Hn HFE HFn Hs;
    simpl; [reflexivity|].
  specialize (HE ltac:(lia)). specialize (Hn ltac:(lia)).
  destruct (nth_error (field st) (a - 1)) as [E_prev|] eqn:H1;
    [|apply nth_error_None in H1; lia].
  destruct (nth_error n_r2 (a - 1)) as [n_prev|] eqn:H2;
    [|apply nth_error_None in H2; lia].
  destruct (nth_error (field st) a) as [old|] eqn:H3;
    [|apply nth_error_None in H3; lia].
  pose proof (Forall_forall (fun c => length c = Nx) (field st)) as [FE _].
  pose proof (Forall_forall (fun c => length c = Nx) n_r2) as [Fn _].
  assert (L1 : length E_prev = Nx)
    by (apply (FE HFE), (nth_error_In _ _ H1)).
  assert (L2 : length n_prev = Nx)
    by (apply (Fn HFn), (nth_error_In _ _ H2)).
  assert (L3 : length old = Nx)
    by (apply (FE HFE), (nth_error_In _ _ H3)).
  destruct (rk4_column_ok dx dz n0 k0 sigma_x E_prev n_prev Hk Hn0)
    as [Hv Hlen]; [congruence|congruence|].
  unfold step at 1, bpm_step, col, set_col.
  rewrite H1, H2. cbn [bind]. rewrite Hv. cbn [bind]. rewrite H3.
  rewrite fit_to_same by congruence. cbn [bind].
  apply IH; try assumption; simpl; try lia.
  - rewrite update_nth_length. lia.
  - apply Forall_forall. intros c Hc.
    apply In_nth_error in Hc. destruct Hc as [i Hi].
    destruct (Nat.eq_dec i a) as [->|Hne].
    + rewrite nth_error_update_same in Hi
        by (apply nth_error_Some; rewrite H3; discriminate).
      injection Hi as <-. congruence.
    + rewrite nth_error_update_other in Hi by assumption.
      apply (FE HFE), (nth_error_In _ _ Hi).
Qed.

End March.

(** ** [run_bpm] *)

Lemma k0_nonzero wavelength : wavelength <> 0 -> 2 * PI / wavelength <> 0.
Proof.
  intros H. pose proof PI_RGT_0.
  unfold Rdiv. apply Rmult_integral_contrapositive. split; [lra|].
  apply Rinv_neq_0_compat; assumption.
Qed.

Lemma rk4_value_relation E_prev n_prev dx dz n0 sigma_x k0 :
  k0 <> 0 -> n0 <> 0 ->
  length n_prev = length E_prev -> length sigma_x = length E_prev ->
  rk4_step_relation E_prev (rk4_value E_prev n_prev dx dz n0 sigma_x k0)
    n_prev dx dz n0 sigma_x k0.
Proof.
  intros Hk Hn H1 H2.
  set (f := fun E => dE_dz_value E n_prev dx n0 sigma_x k0).
  exists (f E_prev).
  exists (f (vadd E_prev (vdiv (vscale dz (f E_prev)) 2))).
  exists (f (vadd E_prev (vdiv (vscale dz
            (f (vadd E_prev (vdiv (vscale dz (f E_prev)) 2)))) 2))).
  exists (f (vadd E_prev (vscale dz
            (f (vadd E_prev (vdiv (vscale dz
               (f (vadd E_prev (vdiv (vscale dz (f E_prev)) 2)))) 2)))))).
  unfold f, vadd, vscale, vdiv. cbv zeta.
  repeat split;
    try (apply compute_dE_dz_ok; [solve_len|solve_len|assumption|assumption]).
Qed.

(** C8.  Whatever the arguments and however the call ends, [run_bpm]
    leaves column 0 of the field as the caller supplied it; the columns it
    assigns are 1, 2, ..., m in this order with m <= Nz - 1, and m = Nz - 1
    when the call returns; every other column is untouched; and each
    assigned column is one step's result computed from the column just
    before it. *)
Theorem run_bpm_launch_column E n_r2 x z dx dz n0 sigma_x wavelength :
  let st := fst (run_bpm E n_r2 x z dx dz n0 sigma_x wavelength) in
  let out := snd (run_bpm E n_r2 x z dx dz n0 sigma_x wavelength) in
  nth_error (field st) 0 = nth_error E 0 /\
  length (field st) = length E /\
  (exists m, (m <= length z - 1)%nat /\ written st = seq 1 m /\
             (out = None -> m = (length z - 1)%nat)) /\
  (forall j, ~ In j (written st) -> nth_error (field st) j = nth_error E j) /\
  (forall zi, In zi (written st) ->
     column_from_previous n_r2 dx dz n0 sigma_x (2 * PI / wavelength)
       (field st) zi).
Proof.
  unfold run_bpm, pydiv.
  destruct (Req_dec_T wavelength 0) as [Hz|Hnz]; cbn [fst snd field written].
  - repeat split; auto; [|intros zi []].
    exists 0%nat. repeat split; [lia|discriminate].
  - destruct (march (bpm_step n_r2 dx dz n0 sigma_x (2 * PI / wavelength))
                (seq 1 (length z - 1)) (mkState E [])) as [st out] eqn:Hm.
    destruct (march_inv _ _ _ _ _ _ _ _ _ _ _ (Nat.le_refl 1) Hm)
      as (m & Hle & Hw & Hout & Hlen & Hshape & Hframe & Hcols).
    cbn [fst snd field written app] in *. repeat split.
    + apply Hframe. lia.
    + exact Hlen.
    + exists m. repeat split; assumption.
    + intros j Hj. apply Hframe. rewrite Hw in Hj.
      rewrite in_seq in Hj. lia.
    + intros zi Hzi. apply Hcols. rewrite Hw, in_seq in Hzi. lia.
Qed.

Lemma run_bpm_conforming Nx E n_r2 x z dx dz n0 sigma_x wavelength :
  conforming Nx (length z) E n_r2 sigma_x ->
  wavelength <> 0 -> n0 <> 0 ->
  snd (run_bpm E n_r2 x z dx dz n0 sigma_x wavelength) = None.
Proof.
  intros (HE & Hn & HFE & HFn & Hs) Hw Hn0.
  unfold run_bpm. rewrite pydiv_ok by assumption.
  apply (march_conforming _ _ _ _ _ _ Nx); simpl;
    try assumption; try lia.
  apply k0_nonzero; assumption.
Qed.

(** C3.  With conforming shapes and non-zero wavelength and n0, for every
    axial index zi from 1 to Nz - 1 the column E[:, zi] that [run_bpm]
    leaves is E[:, zi-1] + (k1 + 2 k2 + 2 k3 + k4)/6 with
    k1 = dz f(E[:, zi-1]), k2 = dz f(E[:, zi-1] + k1/2),
    k3 = dz f(E[:, zi-1] + k2/2), k4 = dz f(E[:, zi-1] + k3), where all
    four evaluations of f take column zi - 1 of the index map. *)
Theorem run_bpm_rk4_columns Nx E n_r2 x z dx dz n0 sigma_x wavelength :
  conforming Nx (length z) E n_r2 sigma_x ->
  wavelength <> 0 -> n0 <> 0 ->
  let st := fst (run_bpm E n_r2 x z dx dz n0 sigma_x wavelength) in
  snd (run_bpm E n_r2 x z dx dz n0 sigma_x wavelength) = None /\
  forall zi, (1 <= zi < length z)%nat ->
    exists E_prev E_next n_prev,
      nth_error (field st) (zi - 1) = Some E_prev /\
      nth_error (field st) zi = Some E_next /\
      nth_error n_r2 (zi - 1) = Some n_prev /\
      rk4_step_relation E_prev E_next n_prev dx dz n0 sigma_x
        (2 * PI / wavelength).
Proof.
  intros Hc Hw Hn0 st.
  pose proof (run_bpm_conforming Nx E n_r2 x z dx dz n0 sigma_x wavelength
                Hc Hw Hn0) as Hnone.
  split; [exact Hnone|].
  destruct Hc as (HE & Hn & HFE & HFn & Hs).
  subst st. revert Hnone. unfold run_bpm. rewrite pydiv_ok by assumption.
  destruct (march (bpm_step n_r2 dx dz n0 sigma_x (2 * PI / wavelength))
              (seq 1 (length z - 1)) (mkState E [])) as [st out] eqn:Hm.
  cbn [fst snd]. intros ->.
  destruct (march_inv _ _ _ _ _ _ _ _ _ _ _ (Nat.le_refl 1) Hm)
    as (m & Hle & Hwr & Hout & Hlen & Hshape & Hframe & Hcols).
  specialize (Hout eq_refl). subst m. cbn [fst snd field written app] in *.
  intros zi Hzi.
  destruct (Hcols zi ltac:(lia)) as (E_prev & n_prev & v & c & H1 & H2 & H3 & H4 & H5).
  pose proof (Forall_forall (fun c => length c = Nx) E) as [FE _].
  pose proof (Forall_forall (fun c => length c = Nx) n_r2) as [Fn _].
  assert (Lcol : forall j col, nth_error (field st) j = Some col ->
                               length col = Nx).
  { intros j col0 Hj. specialize (Hshape j). rewrite Hj in Hshape. simpl in Hshape.
    destruct (nth_error E j) as [c0|] eqn:Hc0; [|discriminate].
    injection Hshape as ->. apply (FE HFE), (nth_error_In _ _ Hc0). }
  assert (L1 : length E_prev = Nx) by (apply (Lcol _ _ H1)).
  assert (L2 : length n_prev = Nx) by (apply (Fn HFn), (nth_error_In _ _ H2)).
  assert (L4 : length c = Nx) by (apply (Lcol _ _ H4)).
  pose proof (k0_nonzero wavelength Hw) as Hk.
  destruct (rk4_column_ok dx dz n0 _ sigma_x E_prev n_prev Hk Hn0)
    as [Hv Hvl]; [congruence|congruence|].
  rewrite Hv in H3. injection H3 as <-.
  rewrite fit_to_same in H5 by congruence. injection H5 as <-.
  exists E_prev, (rk4_value E_prev n_prev dx dz n0 sigma_x (2 * PI / wavelength)),
    n_prev.
  repeat split; try assumption.
  apply rk4_value_relation; congruence.
Qed.

(** ** [run_bpm] makes no shape check *)

Lemma bpm_step_ok n_r2 dx dz n0 sigma_x k0 st zi E_prev n_prev old :
  k0 <> 0 -> n0 <> 0 ->
  nth_error (field st) (zi - 1) = Some E_prev ->
  nth_error n_r2 (zi - 1) = Some n_prev ->
  nth_error (field st) zi = Some old ->
  length n_prev = length E_prev -> length sigma_x = length E_prev ->
  length old = length E_prev ->
  bpm_step n_r2 dx dz n0 sigma_x k0 st zi =
  Ok (mkState
        (update_nth zi (rk4_value E_prev n_prev dx dz n0 sigma_x k0) (field st))
        (written st ++ [zi])).
Proof.
  intros Hk Hn0 H1 H2 H3 L1 L2 L3.
  destruct (rk4_column_ok dx dz n0 k0 sigma_x E_prev n_prev Hk Hn0 L1 L2)
    as [Hv Hlen].
  unfold bpm_step, col, set_col.
  rewrite H1, H2. cbn [bind]. rewrite Hv. cbn [bind]. rewrite H3.
  rewrite fit_to_same by congruence. reflexivity.
Qed.

Lemma bpm_step_no_column n_r2 dx dz n0 sigma_x k0 st zi E_prev n_prev :
  k0 <> 0 -> n0 <> 0 ->
  nth_error (field st) (zi - 1) = Some E_prev ->
  nth_error n_r2 (zi - 1) = Some n_prev ->
  nth_error (field st) zi = None ->
  length n_prev = length E_prev -> length sigma_x = length E_prev ->
  bpm_step n_r2 dx dz n0 sigma_x k0 st zi = Err IndexError.
Proof.
  intros Hk Hn0 H1 H2 H3 L1 L2.
  destruct (rk4_column_ok dx dz n0 k0 sigma_x E_prev n_prev Hk Hn0 L1 L2)
    as [Hv Hlen].
  unfold bpm_step, col, set_col.
  rewrite H1, H2. cbn [bind]. rewrite Hv. cbn [bind]. rewrite H3.
  reflexivity.
Qed.

Lemma run_bpm_written Nx E n_r2 x z dx dz n0 sigma_x wavelength :
  conforming Nx (length z) E n_r2 sigma_x ->
  wavelength <> 0 -> n0 <> 0 ->
  written (fst (run_bpm E n_r2 x z dx dz n0 sigma_x wavelength)) =
  seq 1 (length z - 1).
Proof.
  intros Hc Hw Hn0.
  pose proof (run_bpm_conforming Nx E n_r2 x z dx dz n0 sigma_x wavelength
                Hc Hw Hn0) as Hnone.
  revert Hnone. unfold run_bpm. rewrite pydiv_ok by assumption.
  destruct (march (bpm_step n_r2 dx dz n0 sigma_x (2 * PI / wavelength))
              (seq 1 (length z - 1)) (mkState E [])) as [st out] eqn:Hm.
  cbn [fst snd]. intros ->.
  destruct (march_inv _ _ _ _ _ _ _ _ _ _ _ (Nat.le_refl 1) Hm)
    as (m & _ & Hwr & Hout & _).
  rewrite Hwr, (Hout eq_refl). reflexivity.
Qed.

(** C1, as the code has it.  [run_bpm] makes no shape check: it never
    reads [x], and on a field and an index map of at least Nz columns
    whose columns all have the length of [sigma_x] it returns, having
    assigned columns 1 to Nz - 1, whatever the length of [x] and however
    many columns the arrays have beyond Nz (wavelength and n0 non-zero). *)
Theorem run_bpm_shapes_unchecked Nx E n_r2 x z dx dz n0 sigma_x wavelength :
  conforming Nx (length z) E n_r2 sigma_x ->
  wavelength <> 0 -> n0 <> 0 ->
  snd (run_bpm E n_r2 x z dx dz n0 sigma_x wavelength) = None /\
  written (fst (run_bpm E n_r2 x z dx dz n0 sigma_x wavelength)) =
    seq 1 (length z - 1) /\
  forall x', run_bpm E n_r2 x' z dx dz n0 sigma_x wavelength =
             run_bpm E n_r2 x z dx dz n0 sigma_x wavelength.
Proof.
  intros Hc Hw Hn0. split; [|split].
  - apply (run_bpm_conforming Nx); assumption.
  - apply (run_bpm_written Nx); assumption.
  - reflexivity.
Qed.

Lemma conforming_two : conforming 1 2 E_two n_two [0].
Proof.
  unfold conforming, E_two, n_two. simpl.
  repeat split; try lia; repeat constructor.
Qed.

(** C1 fails on the code.  With an empty [x] against columns of length
    one, the call returns and has assigned column 1.  With a field of two
    columns and three axial positions, the call assigns column 1 and then
    raises an IndexError from the assignment of column 2. *)
Lemma run_bpm_shape_mismatch_not_rejected :
  (shapes_disagree E_two n_two [] z_two [0] /\
   snd (run_bpm E_two n_two [] z_two 1 1 1 [0] 1) = None /\
   written (fst (run_bpm E_two n_two [] z_two 1 1 1 [0] 1)) = [1%nat]) /\
  (shapes_disagree E_two n_three [0] z_three [0] /\
   snd (run_bpm E_two n_three [0] z_three 1 1 1 [0] 1)
     = Some IndexError /\
   written (fst (run_bpm E_two n_three [0] z_three 1 1 1 [0] 1))
     = [1%nat]).
Proof.
  assert (H1 : (1 : R) <> 0) by lra.
  pose proof (k0_nonzero 1 H1) as Hk.
  split.
  - split; [|split].
    + left. exists [RtoC 1]. split; [left; reflexivity|left; simpl; lia].
    + apply (run_bpm_conforming 1); [exact conforming_two|lra|lra].
    + apply (run_bpm_written 1 E_two n_two [] z_two);
        [exact conforming_two|lra|lra].
  - split.
    + right; right; left. simpl. lia.
    + unfold run_bpm. rewrite pydiv_ok by lra.
      cbn [length z_three Nat.sub seq march].
      rewrite (bpm_step_ok _ _ _ _ _ _ _ 1 [RtoC 1] [1] [C0]);
        try reflexivity; try assumption.
      cbn [field written app].
      rewrite (bpm_step_no_column _ _ _ _ _ _ _ 2
                 (rk4_value [RtoC 1] [1] 1 1 1 [0] (2 * PI / 1)) [1]);
        try reflexivity; try assumption.
      split; reflexivity.
Qed.

Lemma compute_dE_dz_pointwise_witness :
  exists d,
    compute_dE_dz E_three n_slice_three 1 1 sigma_three 1 = Ok d /\
    length d = length E_three /\
    forall i, (i < length E_three)%nat ->
      nth i d C0 = dE_dz_formula E_three n_slice_three 1 1 sigma_three 1 i.
Proof.
  apply (compute_dE_dz_pointwise E_three n_slice_three 1 1 sigma_three 1);
    [reflexivity | reflexivity | lra | lra].
Defined.

Lemma run_bpm_rk4_columns_witness :
  snd (run_bpm E_two n_two [0] z_two 1 1 1 [0] 1) = None /\
  forall zi, (1 <= zi < length z_two)%nat ->
    exists E_prev E_next n_prev,
      nth_error (field (fst (run_bpm E_two n_two [0] z_two 1 1 1 [0] 1)))
        (zi - 1) = Some E_prev /\
      nth_error (field (fst (run_bpm E_two n_two [0] z_two 1 1 1 [0] 1))) zi
        = Some E_next /\
      nth_error n_two (zi - 1) = Some n_prev /\
      rk4_step_relation E_prev E_next n_prev 1 1 1 [0] (2 * PI / 1).
Proof.
  apply (run_bpm_rk4_columns 1 E_two n_two [0] z_two 1 1 1 [0] 1);
    [exact conforming_two | lra | lra].
Defined.

Lemma run_bpm_shapes_unchecked_witness :
  snd (run_bpm E_two n_two [] z_two 1 1 1 [0] 1) = None /\
  written (fst (run_bpm E_two n_two [] z_two 1 1 1 [0] 1)) =
    seq 1 (length z_two - 1) /\
  forall x', run_bpm E_two n_two x' z_two 1 1 1 [0] 1 =
             run_bpm E_two n_two [] z_two 1 1 1 [0] 1.
Proof.
  apply (run_bpm_shapes_unchecked 1 E_two n_two [] z_two 1 1 1 [0] 1);
    [exact conforming_two | lra | lra].
Defined.

(** ** Argument validation of [slab_mode_source] *)

Lemma Rleb_true a b : a <= b -> Rleb a b = true.
Proof. intros H. unfold Rleb. destruct (Rle_dec a b); [reflexivity|contradiction]. Qed.

Lemma Rleb_false a b : b < a -> Rleb a b = false.
Proof. intros H. unfold Rleb. destruct (Rle_dec a b); [lra|reflexivity]. Qed.

Lemma Rltb_true a b : a < b -> Rltb a b = true.
Proof. intros H. unfold Rltb. destruct (Rlt_dec a b); [reflexivity|contradiction]. Qed.

Lemma Rltb_false a b : b <= a -> Rltb a b = false.
Proof. intros H. unfold Rltb. destruct (Rlt_dec a b); [lra|reflexivity]. Qed.

Lemma Rleb_spec a b : reflect (a <= b) (Rleb a b).
Proof. unfold Rleb. destruct (Rle_dec a b); constructor; assumption. Qed.

Lemma Rltb_spec a b : reflect (a < b) (Rltb a b).
Proof. unfold Rltb. destruct (Rlt_dec a b); constructor; assumption. Qed.

Lemma validate_passes x w n_WG n0 wavelength ind_m :
  validate x w n_WG n0 wavelength ind_m = None <->
  other_arguments_valid x w n_WG n0 wavelength /\
  isinstance_int ind_m = true /\ (0 <= int_value ind_m)%Z.
Proof.
  unfold validate, other_arguments_valid.
  destruct (Nat.eqb_spec (ndim x) 1); cbn [negb];
    [|split; [discriminate|intros [[? _] _]; contradiction]].
  destruct (Rleb_spec w 0);
    [split; [discriminate|intros [(_ & ? & _) _]; lra]|].
  destruct (Rleb_spec n_WG n0);
    [split; [discriminate|intros [(_ & _ & ? & _) _]; lra]|].
  destruct (Rleb_spec n0 0);
    [split; [discriminate|intros [(_ & _ & _ & ? & _) _]; lra]|].
  destruct (Rleb_spec wavelength 0);
    [split; [discriminate|intros [(_ & _ & _ & _ & ?) _]; lra]|].
  destruct (isinstance_int ind_m); cbn [negb orb];
    [|split; [discriminate|intros [_ [? _]]; discriminate]].
  destruct (Z.ltb_spec (int_value ind_m) 0);
    [split; [discriminate|intros [_ [_ ?]]; lia]|].
  split; [|reflexivity]. intros _. repeat split; try assumption; lra.
Qed.

Ltac validate_case :=
  repeat split; try reflexivity; intros;
  repeat match goal with H : _ /\ _ |- _ => destruct H end;
  try lra; try contradiction.

(** C6.  Whenever a precondition is violated (x not one-dimensional,
    w <= 0, n_WG <= n0, n0 <= 0, wavelength <= 0, ind_m not a non-negative
    int), [slab_mode_source] raises a ValueError before anything is
    computed; the checks are made one after the other, each with a message
    of its own, and the error is that of the first condition violated. *)
Theorem slab_mode_source_rejects x w n_WG n0 wavelength ind_m x0 :
  precondition_violated x w n_WG n0 wavelength ind_m ->
  exists msg,
    slab_mode_source x w n_WG n0 wavelength ind_m x0
      = (Err (ValueError msg), []) /\
    validate x w n_WG n0 wavelength ind_m = Some (ValueError msg) /\
    (ndim x <> 1%nat -> msg = msg_x) /\
    (ndim x = 1%nat -> w <= 0 -> msg = msg_w) /\
    (ndim x = 1%nat -> 0 < w -> n_WG <= n0 -> msg = msg_n_WG) /\
    (ndim x = 1%nat -> 0 < w -> n0 < n_WG -> n0 <= 0 -> msg = msg_n0) /\
    (ndim x = 1%nat -> 0 < w -> n0 < n_WG -> 0 < n0 -> wavelength <= 0 ->
       msg = msg_wavelength) /\
    (other_arguments_valid x w n_WG n0 wavelength -> msg = msg_ind_m).
Proof.
  intros Hv. unfold slab_mode_source.
  assert (Hval : exists msg,
    validate x w n_WG n0 wavelength ind_m = Some (ValueError msg) /\
    (ndim x <> 1%nat -> msg = msg_x) /\
    (ndim x = 1%nat -> w <= 0 -> msg = msg_w) /\
    (ndim x = 1%nat -> 0 < w -> n_WG <= n0 -> msg = msg_n_WG) /\
    (ndim x = 1%nat -> 0 < w -> n0 < n_WG -> n0 <= 0 -> msg = msg_n0) /\
    (ndim x = 1%nat -> 0 < w -> n0 < n_WG -> 0 < n0 -> wavelength <= 0 ->
       msg = msg_wavelength) /\
    (other_arguments_valid x w n_WG n0 wavelength -> msg = msg_ind_m)).
  { unfold validate, other_arguments_valid.
    destruct (Nat.eqb_spec (ndim x) 1) as [Hx|Hx]; cbn [negb];
      [|exists msg_x; validate_case].
    destruct (Rleb_spec w 0) as [Hw|Hw]; [exists msg_w; validate_case|].
    destruct (Rleb_spec n_WG n0) as [Hn|Hn];
      [exists msg_n_WG; validate_case|].
    destruct (Rleb_spec n0 0) as [H0|H0]; [exists msg_n0; validate_case|].
    destruct (Rleb_spec wavelength 0) as [Hl|Hl];
      [exists msg_wavelength; validate_case|].
    destruct Hv as [Hv|[Hv|[Hv|[Hv|[Hv|Hv]]]]]; try contradiction; try lra.
    assert (Hi : negb (isinstance_int ind_m) || (int_value ind_m <? 0)%Z = true).
    { destruct Hv as [Hv|Hv]; [rewrite Hv; reflexivity|].
      apply orb_true_iff; right. apply Z.ltb_lt; assumption. }
    rewrite Hi. exists msg_ind_m. validate_case. }
  destruct Hval as (msg & Hval & Hrest).
  exists msg. rewrite Hval. split; [reflexivity|]. split; [reflexivity|].
  exact Hrest.
Qed.

Lemma slab_mode_source_rejects_witness :
  exists msg,
    slab_mode_source (mkArr [3%nat] [-1; 0; 1]) 0 2 1 1 (PyInt 0) 0
      = (Err (ValueError msg), []) /\
    validate (mkArr [3%nat] [-1; 0; 1]) 0 2 1 1 (PyInt 0)
      = Some (ValueError msg) /\
    (ndim (mkArr [3%nat] [-1; 0; 1]) <> 1%nat -> msg = msg_x) /\
    (ndim (mkArr [3%nat] [-1; 0; 1]) = 1%nat -> 0 <= 0 -> msg = msg_w) /\
    (ndim (mkArr [3%nat] [-1; 0; 1]) = 1%nat -> 0 < 0 -> 2 <= 1 ->
       msg = msg_n_WG) /\
    (ndim (mkArr [3%nat] [-1; 0; 1]) = 1%nat -> 0 < 0 -> 1 < 2 -> 1 <= 0 ->
       msg = msg_n0) /\
    (ndim (mkArr [3%nat] [-1; 0; 1]) = 1%nat -> 0 < 0 -> 1 < 2 -> 0 < 1 ->
       1 <= 0 -> msg = msg_wavelength) /\
    (other_arguments_valid (mkArr [3%nat] [-1; 0; 1]) 0 2 1 1 ->
       msg = msg_ind_m).
Proof.
  apply (slab_mode_source_rejects (mkArr [3%nat] [-1; 0; 1]) 0 2 1 1 (PyInt 0) 0).
  right; left. lra.
Defined.

(** C10.  Only an instance of Python's [int] is accepted for [ind_m]:
    every other value, a whole-valued float or a numpy integer included,
    is rejected with a ValueError, and, when the other arguments are
    valid, with the very error a negative index gets. *)
Theorem slab_mode_source_rejects_non_int x w n_WG n0 wavelength ind_m x0 :
  isinstance_int ind_m = false ->
  (exists msg, slab_mode_source x w n_WG n0 wavelength ind_m x0
               = (Err (ValueError msg), [])) /\
  (other_arguments_valid x w n_WG n0 wavelength ->
   slab_mode_source x w n_WG n0 wavelength ind_m x0
     = (Err (ValueError msg_ind_m), []) /\
   forall n, (n < 0)%Z ->
     slab_mode_source x w n_WG n0 wavelength (PyInt n) x0
     = slab_mode_source x w n_WG n0 wavelength ind_m x0).
Proof.
  intros Hi.
  assert (Hbad : forall v, isinstance_int v = false \/ (int_value v < 0)%Z ->
            other_arguments_valid x w n_WG n0 wavelength ->
            slab_mode_source x w n_WG n0 wavelength v x0
            = (Err (ValueError msg_ind_m), [])).
  { intros v Hv (Hx & Hw & Hn & H0 & Hl).
    unfold slab_mode_source, validate.
    rewrite Hx. cbn [Nat.eqb negb].
    rewrite (Rleb_false w 0), (Rleb_false n_WG n0), (Rleb_false n0 0),
      (Rleb_false wavelength 0) by assumption.
    destruct Hv as [Hv|Hv].
    - rewrite Hv. reflexivity.
    - apply Z.ltb_lt in Hv. rewrite Hv, orb_true_r. reflexivity. }
  split.
  - unfold slab_mode_source.
    destruct (validate x w n_WG n0 wavelength ind_m) as [e|] eqn:Hv.
    + revert Hv. unfold validate.
      repeat match goal with
             | |- context [if ?b then _ else _] => destruct b
             end; intros [= <-]; eexists; reflexivity.
    + apply validate_passes in Hv. destruct Hv as (_ & Hv & _). congruence.
  - intros Hother. split; [apply Hbad; [left|]; assumption|].
    intros n Hn. rewrite (Hbad ind_m) by (auto). apply Hbad; [right|]; assumption.
Qed.

Lemma slab_mode_source_rejects_non_int_witness :
  (exists msg, slab_mode_source (mkArr [3%nat] [-1; 0; 1]) 1 2 1 1 (PyFloat 2) 0
               = (Err (ValueError msg), [])) /\
  (other_arguments_valid (mkArr [3%nat] [-1; 0; 1]) 1 2 1 1 ->
   slab_mode_source (mkArr [3%nat] [-1; 0; 1]) 1 2 1 1 (PyFloat 2) 0
     = (Err (ValueError msg_ind_m), []) /\
   forall n, (n < 0)%Z ->
     slab_mode_source (mkArr [3%nat] [-1; 0; 1]) 1 2 1 1 (PyInt n) 0
     = slab_mode_source (mkArr [3%nat] [-1; 0; 1]) 1 2 1 1 (PyFloat 2) 0).
Proof.
  apply (slab_mode_source_rejects_non_int
           (mkArr [3%nat] [-1; 0; 1]) 1 2 1 1 (PyFloat 2) 0).
  reflexivity.
Defined.

(** ** The scan and the brackets *)

Lemma linspace_length start stop num : length (linspace start stop num) = num.
Proof. unfold linspace. rewrite length_map, length_seq. reflexivity. Qed.

Lemma linspace_nth start stop num i :
  (i < num)%nat ->
  nth i (linspace start stop num) 0 =
  INR i * ((stop - start) / INR (num - 1)) + start.
Proof.
  intros H. unfold linspace.
  rewrite (nth_map_in _ _ _ 0%nat) by (rewrite length_seq; exact H).
  rewrite seq_nth by exact H. reflexivity.
Qed.

(** The last sample is the upper end of the interval. *)
Lemma linspace_last start stop num :
  (2 <= num)%nat -> nth (num - 1) (linspace start stop num) 0 = stop.
Proof.
  intros H. rewrite linspace_nth by lia.
  assert (INR (num - 1) <> 0) by (apply not_0_INR; lia).
  field. assumption.
Qed.

Section Scan.

Variables w n_WG n0 k0 : R.

Let sample (i : nat) : R := nth i (beta_scan n_WG n0 k0) 0.

Lemma sample_eq i :
  (i < N_scan)%nat ->
  sample i = INR i * ((n_WG * k0 - n0 * k0) / INR (N_scan - 1)) + n0 * k0.
Proof. intros H. unfold sample, beta_scan. apply linspace_nth; exact H. Qed.

(** The brackets are the pairs of adjacent samples with a sign change. *)
Lemma in_intervals f l r :
  In (l, r) (intervals n_WG n0 k0 f) <->
  exists i, (i < N_scan - 1)%nat /\ l = sample i /\ r = sample (i + 1) /\
            sign_change (f (sample i)) (f (sample (i + 1))) = true.
Proof.
  unfold intervals. rewrite in_flat_map. split.
  - intros (i & Hi & Hin). apply in_seq in Hi.
    rewrite !(nth_map_in _ _ _ 0) in Hin
      by (unfold beta_scan; rewrite linspace_length; unfold N_scan in *; lia).
    fold (sample i) (sample (i + 1)) in Hin.
    destruct (sign_change (f (sample i)) (f (sample (i + 1)))) eqn:Hs;
      [|contradiction].
    destruct Hin as [Hin|[]]. injection Hin as <- <-.
    exists i. repeat split; try assumption; lia.
  - intros (i & Hi & -> & -> & Hs). exists i. split; [apply in_seq; lia|].
    rewrite !(nth_map_in _ _ _ 0)
      by (unfold beta_scan; rewrite linspace_length; unfold N_scan in *; lia).
    fold (sample i) (sample (i + 1)). rewrite Hs. left; reflexivity.
Qed.

(** Where a characteristic function has a value, beta is strictly
    inside the guided band. *)
Lemma f_even_defined_range beta v :
  f_even w n_WG n0 k0 beta = Some v -> n0 * k0 < beta < n_WG * k0.
Proof.
  unfold f_even.
  destruct (Rltb_spec beta (n0 * k0)); [discriminate|].
  destruct (Rltb_spec (n_WG * k0) beta); [discriminate|]. cbn [orb].
  destruct (Rleb_spec (n_WG ^ 2 * k0 ^ 2 - beta ^ 2) 0); [discriminate|].
  destruct (Rleb_spec (beta ^ 2 - n0 ^ 2 * k0 ^ 2) 0); [discriminate|].
  intros _. split.
  - destruct (Req_dec beta (n0 * k0)) as [E|E]; [|lra].
    exfalso. rewrite E in *. nra.
  - destruct (Req_dec beta (n_WG * k0)) as [E|E]; [|lra].
    exfalso. rewrite E in *. nra.
Qed.

Lemma f_odd_defined_range beta v :
  f_odd w n_WG n0 k0 beta = Some v -> n0 * k0 < beta < n_WG * k0.
Proof.
  unfold f_odd.
  destruct (Rltb_spec beta (n0 * k0)); [discriminate|].
  destruct (Rltb_spec (n_WG * k0) beta); [discriminate|]. cbn [orb].
  destruct (Rleb_spec (n_WG ^ 2 * k0 ^ 2 - beta ^ 2) 0); [discriminate|].
  destruct (Rleb_spec (beta ^ 2 - n0 ^ 2 * k0 ^ 2) 0); [discriminate|].
  intros _. split.
  - destruct (Req_dec beta (n0 * k0)) as [E|E]; [|lra].
    exfalso. rewrite E in *. nra.
  - destruct (Req_dec beta (n_WG * k0)) as [E|E]; [|lra].
    exfalso. rewrite E in *. nra.
Qed.

Lemma sample_increasing i :
  n0 * k0 < n_WG * k0 -> (i + 1 < N_scan)%nat -> sample i < sample (i + 1).
Proof.
  intros Hlt Hi. rewrite !sample_eq by lia.
  rewrite plus_INR. change (INR 1) with 1.
  assert (0 < (n_WG * k0 - n0 * k0) / INR (N_scan - 1)).
  { apply Rdiv_lt_0_compat; [lra|]. apply lt_0_INR. unfold N_scan. lia. }
  lra.
Qed.

End Scan.

(** ** Bisection *)

Ltac splits := repeat match goal with |- _ /\ _ => split end.

(** The value returned lies strictly inside the bracket. *)
Lemma refine_loop_inside f L R0 n : forall l r b0,
  L <= l -> l < r -> r <= R0 -> L < b0 < R0 ->
  L < refine_loop n f l r b0 < R0.
Proof.
  induction n as [|n IH]; intros l r b0 Hl Hlr Hr Hb; simpl; [exact Hb|].
  assert (Hm : l < 0.5 * (l + r) < r) by lra.
  destruct (f (0.5 * (l + r))) as [vm|].
  - destruct (Rltb (Rabs vm) tol_root); [lra|].
    destruct (f l) as [vl|].
    + destruct (Rltb 0 (vl * vm)); apply IH; lra.
    + apply IH; lra.
  - apply IH; lra.
Qed.

Lemma refine_loop_inside_S f n l r b0 :
  l < r -> l < refine_loop (S n) f l r b0 < r.
Proof.
  intros H. cbn [refine_loop].
  assert (Hm : l < 0.5 * (l + r) < r) by lra.
  destruct (f (0.5 * (l + r))) as [vm|].
  - destruct (Rltb (Rabs vm) tol_root); [lra|].
    destruct (f l) as [vl|].
    + destruct (Rltb 0 (vl * vm)); apply refine_loop_inside; lra.
    + apply refine_loop_inside; lra.
  - apply refine_loop_inside; lra.
Qed.

Lemma refine_root_inside f l r : l < r -> l < refine_root f l r < r.
Proof. intros H. unfold refine_root. apply (refine_loop_inside_S f 49). exact H. Qed.

(** The loop stops on a small value or after all its halvings, and until
    then the interval keeps bracketing the change of sign. *)
Lemma refine_loop_bracket f u n : forall l r b0,
  l < r -> bracket_kept f u l r ->
  let b := refine_loop (S n) f l r b0 in
  (exists v, f b = Some v /\ Rabs v < tol_root) \/
  (exists l' r', l <= l' /\ l' < r' /\ r' <= r /\
     r' - l' = (r - l) / 2 ^ n /\ b = 0.5 * (l' + r') /\
     bracket_kept f u l' r').
Proof.
  induction n as [|n IH]; intros l r b0 Hlr Hk b; subst b.
  - cbn [refine_loop].
    destruct (f (0.5 * (l + r))) as [vm|] eqn:Hm.
    + destruct (Rltb_spec (Rabs vm) tol_root) as [Hsmall|Hbig].
      * left. exists vm. split; assumption.
      * right. exists l, r.
        destruct (f l) as [vl|]; [destruct (Rltb 0 (vl * vm))|];
          (splits; first [lra | simpl; lra | reflexivity | exact Hk]).
    + right. exists l, r.
      splits; first [lra | simpl; lra | reflexivity | exact Hk].
  - remember (S n) as n1 eqn:En. cbn [refine_loop]. subst n1.
    set (mid := 0.5 * (l + r)).
    assert (Hmid : l < mid < r) by (unfold mid; lra).
    assert (Hpow : 0 < 2 ^ n) by (apply pow_lt; lra).
    assert (Hw : forall l1 r1, l <= l1 -> r1 <= r -> r1 - l1 = (r - l) / 2 ->
              forall b1,
              l1 < r1 -> bracket_kept f u l1 r1 ->
              (exists v, f (refine_loop (S n) f l1 r1 b1) = Some v /\
                         Rabs v < tol_root) \/
              (exists l' r', l <= l' /\ l' < r' /\ r' <= r /\
                 r' - l' = (r - l) / 2 ^ S n /\
                 refine_loop (S n) f l1 r1 b1 = 0.5 * (l' + r') /\
                 bracket_kept f u l' r')).
    { intros l1 r1 Hl1 Hr1 Hhalf b1 Hlr1 Hk1.
      destruct (IH l1 r1 b1 Hlr1 Hk1) as [H|H]; [left; exact H|].
      right. destruct H as (l' & r' & H1 & H2 & H3 & H4 & H5 & H6).
      exists l', r'. splits; try lra; try assumption.
      rewrite H4, Hhalf. simpl. field. lra. }
    assert (Hhalf1 : r - mid = (r - l) / 2) by (unfold mid; lra).
    assert (Hhalf2 : mid - l = (r - l) / 2) by (unfold mid; lra).
    destruct Hk as [(u' & Hu' & Hsign) Hright].
    destruct (f mid) as [vm|] eqn:Hm.
    + destruct (Rltb_spec (Rabs vm) tol_root) as [Hsmall|Hbig].
      { left. exists vm. split; assumption. }
      assert (Hvm : vm <> 0).
      { intros ->. rewrite Rabs_R0 in Hbig.
        assert (0 < tol_root) by (unfold tol_root; simpl; lra). lra. }
      rewrite Hu'.
      destruct (Rltb_spec 0 (u' * vm)) as [Hsame|Hdiff].
      * apply (Hw mid r); try lra. split; [|exact Hright].
        exists vm. split; [exact Hm|]. nra.
      * apply (Hw l mid); try lra. split.
        -- exists u'. split; assumption.
        -- right. exists vm. split; [exact Hm|].
           assert (u' <> 0) by (intros ->; lra).
           assert (u <> 0) by (intros ->; lra). nra.
    + apply (Hw l mid); try lra. split.
      * exists u'. split; assumption.
      * left. exact Hm.
Qed.

Lemma refine_root_refined f l r u v :
  l < r -> f l = Some u -> f r = Some v -> u * v < 0 ->
  refined_in f l r (refine_root f l r).
Proof.
  intros Hlr Hu Hv Huv. unfold refined_in, refine_root.
  destruct (refine_loop_bracket f u 49 l r l Hlr) as [Hs|Hs].
  - split.
    + exists u. split; [exact Hu|]. nra.
    + right. exists v. split; assumption.
  - left. exact Hs.
  - right. destruct Hs as (l' & r' & H1 & H2 & H3 & H4 & H5 & H6).
    exists l', r', u. splits; assumption.
Qed.

(** ** Sorting *)

Lemma in_insert_desc m a l : In m (insert_desc a l) <-> m = a \/ In m l.
Proof.
  induction l as [|h t IH]; simpl.
  - intuition.
  - destruct (Rltb (snd a) (snd h)); simpl; rewrite ?IH; intuition.
Qed.

Lemma in_sorted_desc m l : In m (sorted_desc l) <-> In m l.
Proof.
  induction l as [|h t IH]; simpl; [reflexivity|].
  rewrite in_insert_desc, IH. intuition.
Qed.

Lemma insert_desc_length a l : length (insert_desc a l) = S (length l).
Proof.
  induction l as [|h t IH]; simpl; [reflexivity|].
  destruct (Rltb (snd a) (snd h)); simpl; [rewrite IH|]; reflexivity.
Qed.

Lemma sorted_desc_length l : length (sorted_desc l) = length l.
Proof.
  induction l as [|h t IH]; simpl; [reflexivity|].
  rewrite insert_desc_length, IH. reflexivity.
Qed.

(** The first element of the sorted list has the largest beta. *)
Lemma insert_desc_head a l h t :
  (forall h' t', l = h' :: t' -> forall m, In m l -> snd m <= snd h') ->
  insert_desc a l = h :: t ->
  forall m, In m (insert_desc a l) -> snd m <= snd h.
Proof.
  intros Hl. destruct l as [|h0 t0]; simpl.
  - intros [= <- <-] m [<-|[]]. lra.
  - specialize (Hl h0 t0 eq_refl).
    destruct (Rltb_spec (snd a) (snd h0)); intros [= <- <-] m.
    + intros [<-|Hin]; [lra|]. apply in_insert_desc in Hin.
      destruct Hin as [->|Hin]; [lra|]. apply Hl. right; exact Hin.
    + intros [<-|Hin]; [lra|]. specialize (Hl m Hin). lra.
Qed.

Lemma sorted_desc_head l h t :
  sorted_desc l = h :: t -> forall m, In m l -> snd m <= snd h.
Proof.
  revert h t. induction l as [|a l IH]; intros h t; simpl; [discriminate|].
  intros Hs m Hm. apply (insert_desc_head a (sorted_desc l) h t).
  - intros h' t' E m' Hm'. apply (IH h' t' E). apply in_sorted_desc; exact Hm'.
  - exact Hs.
  - apply in_insert_desc. destruct Hm as [<-|Hm]; [left; reflexivity|].
    right. apply in_sorted_desc; exact Hm.
Qed.

(** ** Every mode found comes from a bracket *)

Section ModesFound.

Variables w n_WG n0 k0 : R.

Let sample (i : nat) : R := nth i (beta_scan n_WG n0 k0) 0.

Lemma in_roots f valid beta :
  In beta (roots n_WG n0 k0 f valid) <->
  valid beta = true /\
  exists i, (i < N_scan - 1)%nat /\
    sign_change (f (sample i)) (f (sample (i + 1))) = true /\
    beta = refine_root f (sample i) (sample (i + 1)).
Proof.
  unfold roots. rewrite filter_In, in_map_iff. split.
  - intros [([l r] & Hb & Hin) Hv]. split; [exact Hv|].
    apply in_intervals in Hin. destruct Hin as (i & Hi & -> & -> & Hs).
    exists i. cbn [fst snd] in Hb. repeat split; try assumption.
    symmetry; exact Hb.
  - intros [Hv (i & Hi & Hs & ->)]. split; [|exact Hv].
    exists (sample i, sample (i + 1)). split; [reflexivity|].
    apply in_intervals. exists i. repeat split; assumption.
Qed.

Lemma in_modes p beta :
  In (p, beta) (modes w n_WG n0 k0) <->
  match p with
  | Even => In beta (even_roots w n_WG n0 k0)
  | Odd => In beta (odd_roots w n_WG n0 k0)
  end.
Proof.
  unfold modes. rewrite in_app_iff, !in_map_iff. split.
  - intros [(b & [= <- <-] & H)|(b & [= <- <-] & H)]; exact H.
  - destruct p; intros H; [left|right]; exists beta; split; trivial.
Qed.

Lemma sign_change_defined a b :
  sign_change a b = true -> exists u v, a = Some u /\ b = Some v /\ u * v < 0.
Proof.
  destruct a as [u|], b as [v|]; simpl; try discriminate.
  destruct (Rltb_spec (u * v) 0); [|discriminate].
  intros _. exists u, v. repeat split; assumption.
Qed.

Lemma characteristic_range p beta v :
  characteristic w n_WG n0 k0 p beta = Some v -> n0 * k0 < beta < n_WG * k0.
Proof.
  destruct p; [apply f_even_defined_range|apply f_odd_defined_range].
Qed.

(** A mode found is the refinement of a bracket of adjacent samples,
    both strictly inside the guided band, and lies strictly between
    them. *)
Lemma mode_from_bracket p beta :
  In (p, beta) (modes_sorted w n_WG n0 k0) ->
  exists i, (i < N_scan - 1)%nat /\
    sign_change (characteristic w n_WG n0 k0 p (sample i))
                (characteristic w n_WG n0 k0 p (sample (i + 1))) = true /\
    beta = refine_root (characteristic w n_WG n0 k0 p)
             (sample i) (sample (i + 1)) /\
    n0 * k0 < sample i /\ sample i < sample (i + 1) /\
    sample (i + 1) < n_WG * k0 /\
    sample i < beta < sample (i + 1).
Proof.
  intros Hin. unfold modes_sorted in Hin.
  apply (proj1 (in_sorted_desc _ _)) in Hin.
  apply (proj1 (in_modes _ _)) in Hin.
  assert (Hroot : exists i, (i < N_scan - 1)%nat /\
    sign_change (characteristic w n_WG n0 k0 p (sample i))
                (characteristic w n_WG n0 k0 p (sample (i + 1))) = true /\
    beta = refine_root (characteristic w n_WG n0 k0 p)
             (sample i) (sample (i + 1))).
  { destruct p; unfold characteristic; unfold even_roots, odd_roots in Hin;
      apply (proj1 (in_roots _ _ _)) in Hin; destruct Hin as [_ H]; exact H. }
  destruct Hroot as (i & Hi & Hs & Hb). exists i.
  destruct (sign_change_defined _ _ Hs) as (u & v & Hu & Hv & _).
  apply characteristic_range in Hu, Hv.
  assert (Hlt : sample i < sample (i + 1)).
  { apply sample_increasing; [lra|]. unfold N_scan in *. lia. }
  repeat split; try assumption; try lra;
    rewrite Hb; apply refine_root_inside; exact Hlt.
Qed.

End ModesFound.


(** ** Bisection across a pole *)

(** Two rounds of the loop when the pole sits at two thirds of the
    interval: the left end moves to the midpoint, then the right end moves
    to the new midpoint, and the pole sits at two thirds again. *)
Lemma refine_loop_pole_step f l r t n l1 r1 b0 :
  pole_between f l r t ->
  l <= l1 -> r1 <= r -> l1 < t < r1 -> t - l1 = 2 * (r1 - t) ->
  let m1 := 0.5 * (l1 + r1) in
  let m2 := 0.5 * (m1 + r1) in
  refine_loop (S (S n)) f l1 r1 b0 = refine_loop n f m1 m2 m2 /\
  l <= m1 /\ m2 <= r /\ m1 < t < m2 /\ t - m1 = 2 * (m2 - t) /\ m2 <= r1.
Proof.
  intros [Hneg Hpos] Hl Hr Ht Hinv m1 m2.
  assert (Hm1 : l1 < m1 < t) by (unfold m1; lra).
  assert (Hm2 : t < m2 < r1) by (unfold m2, m1; lra).
  split; [|unfold m2, m1; splits; lra].
  destruct (Hneg m1 ltac:(lra)) as (v1 & Hv1 & Hs1 & Ha1).
  destruct (Hneg l1 ltac:(lra)) as (vl & Hvl & Hsl & _).
  destruct (Hpos m2 ltac:(lra)) as (v2 & Hv2 & Hs2 & Ha2).
  remember (S n) as n1 eqn:En1. cbn [refine_loop]. fold m1.
  rewrite Hv1, (Rltb_false _ _ Ha1), Hvl.
  rewrite (Rltb_true 0 (vl * v1)) by nra.
  subst n1. cbn [refine_loop]. fold m2.
  rewrite Hv2, (Rltb_false _ _ Ha2), Hv1.
  rewrite (Rltb_false 0 (v1 * v2)) by nra.
  reflexivity.
Qed.

(** After an even number of rounds the midpoint returned is on the far
    side of the pole. *)
Lemma refine_loop_pole f l r t k : forall l1 r1 b0,
  pole_between f l r t ->
  l <= l1 -> r1 <= r -> l1 < t < r1 -> t - l1 = 2 * (r1 - t) ->
  t < refine_loop (S (S (k + k))) f l1 r1 b0 <= r1.
Proof.
  induction k as [|k IH]; intros l1 r1 b0 Hp Hl Hr Ht Hinv.
  - destruct (refine_loop_pole_step f l r t (0 + 0) l1 r1 b0 Hp Hl Hr Ht Hinv)
      as (He & _ & _ & Hm & _ & Hle).
    rewrite He. cbn [Nat.add refine_loop]. lra.
  - replace (S k + S k)%nat with (S (S (k + k))) by lia.
    destruct (refine_loop_pole_step f l r t (S (S (k + k))) l1 r1 b0
                Hp Hl Hr Ht Hinv) as (He & H1 & H2 & Hm & Hi & Hle).
    rewrite He.
    pose proof (IH _ _ (0.5 * (0.5 * (l1 + r1) + r1)) Hp H1 H2 Hm Hi). lra.
Qed.

Lemma refine_root_pole f l r t :
  pole_between f l r t -> l < t < r -> t - l = 2 * (r - t) ->
  t < refine_root f l r <= r.
Proof.
  intros Hp Ht Hinv. unfold refine_root.
  apply (refine_loop_pole f l r t 24); try assumption; lra.
Qed.

(** ** A slab whose scan brackets a pole of the even characteristic *)

Lemma INR_N_scan_pred : INR (N_scan - 1) = 1999.
Proof. rewrite INR_IZR_INZ. apply f_equal. vm_compute. reflexivity. Qed.

Lemma tol_root_bounds : 0 < tol_root <= 1.
Proof. unfold tol_root. simpl. lra. Qed.

Lemma two_pi_over_two : 2 * PI / 2 = PI.
Proof. field. Qed.

Section PoleCase.

(** w = 1, n_WG = 5, n0 = 2, wavelength = 2, so that k0 = pi. *)
Let fe := f_even 1 5 2 PI.

Lemma kx_pole_case b :
  b ^ 2 <= 25 -> sqrt (5 ^ 2 * PI ^ 2 - (PI * b) ^ 2) = PI * sqrt (25 - b ^ 2).
Proof.
  intros Hb. pose proof PI_RGT_0 as Hpi.
  replace (5 ^ 2 * PI ^ 2 - (PI * b) ^ 2) with (PI ^ 2 * (25 - b ^ 2)) by ring.
  rewrite sqrt_mult by nra. rewrite sqrt_pow2 by lra. reflexivity.
Qed.

Lemma kappa_pole_case b :
  4 <= b ^ 2 -> sqrt ((PI * b) ^ 2 - 2 ^ 2 * PI ^ 2) = PI * sqrt (b ^ 2 - 4).
Proof.
  intros Hb. pose proof PI_RGT_0 as Hpi.
  replace ((PI * b) ^ 2 - 2 ^ 2 * PI ^ 2) with (PI ^ 2 * (b ^ 2 - 4)) by ring.
  rewrite sqrt_mult by nra. rewrite sqrt_pow2 by lra. reflexivity.
Qed.

Lemma f_even_pole_case b :
  2 < b < 5 ->
  fe (PI * b) =
  Some (PI * sqrt (25 - b ^ 2) * tan (PI * sqrt (25 - b ^ 2) * 1 / 2)
        - PI * sqrt (b ^ 2 - 4)).
Proof.
  intros Hb. pose proof PI_RGT_0 as Hpi. unfold fe, f_even.
  assert (H1 : 0 < PI ^ 2 * (25 - b ^ 2)) by (apply Rmult_lt_0_compat; nra).
  assert (H2 : 0 < PI ^ 2 * (b ^ 2 - 4)) by (apply Rmult_lt_0_compat; nra).
  rewrite (Rltb_false (PI * b) (2 * PI)) by nra.
  rewrite (Rltb_false (5 * PI) (PI * b)) by nra. cbn [orb].
  rewrite (Rleb_false (5 ^ 2 * PI ^ 2 - (PI * b) ^ 2) 0) by nra.
  rewrite (Rleb_false ((PI * b) ^ 2 - 2 ^ 2 * PI ^ 2) 0) by nra. cbn [orb].
  rewrite kx_pole_case by nra. rewrite kappa_pole_case by nra. reflexivity.
Qed.

Lemma sqrt_between x lo hi :
  0 <= lo -> 0 <= hi -> lo ^ 2 <= x <= hi ^ 2 -> lo <= sqrt x <= hi.
Proof.
  intros Hlo Hhi [H1 H2]. split.
  - rewrite <- (sqrt_pow2 lo) by assumption. apply sqrt_le_1; nra.
  - rewrite <- (sqrt_pow2 hi) by assumption. apply sqrt_le_1; nra.
Qed.

Lemma sqrt_lt_hi x hi : 0 <= x -> 0 <= hi -> x < hi ^ 2 -> sqrt x < hi.
Proof.
  intros Hx Hhi H. rewrite <- (sqrt_pow2 hi) by assumption.
  apply sqrt_lt_1; nra.
Qed.

Lemma sqrt_gt_lo x lo : 0 <= lo -> lo ^ 2 < x -> lo < sqrt x.
Proof.
  intros Hlo H. rewrite <- (sqrt_pow2 lo) by assumption.
  apply sqrt_lt_1; nra.
Qed.

(** Just below the pole in beta, the angle is just above 3 pi / 2. *)
Lemma f_even_before_pole b :
  399 / 100 <= b < 4 ->
  exists v, fe (PI * b) = Some v /\ v < 0 /\ tol_root <= Rabs v.
Proof.
  intros Hb. pose proof PI_RGT_0 as Hpi. pose proof PI2_3_2 as Hpi3.
  rewrite f_even_pole_case by lra.
  set (s := sqrt (25 - b ^ 2)). set (c := sqrt (b ^ 2 - 4)).
  assert (Hs : 3 < s < 4).
  { split; [apply sqrt_gt_lo; nra|apply sqrt_lt_hi; nra]. }
  assert (Hc : 3 <= c) by (apply (sqrt_between _ 3 4); nra).
  set (theta := PI * s * 1 / 2).
  assert (Hth : 3 * (PI / 2) < theta < 2 * PI) by (unfold theta; nra).
  assert (Hsin : sin theta < 0) by (apply sin_lt_0; lra).
  assert (Hcos : 0 <= cos theta) by (apply cos_ge_0_3PI2; lra).
  assert (Htan : tan theta <= 0).
  { unfold tan, Rdiv. destruct Hcos as [Hcos|Hcos].
    - apply Rinv_0_lt_compat in Hcos. nra.
    - rewrite <- Hcos, Rinv_0. lra. }
  eexists. split; [reflexivity|].
  assert (Hks : 0 < PI * s) by (apply Rmult_lt_0_compat; lra).
  assert (Hkt : PI * s * tan theta <= 0) by nra.
  assert (Hkc : 9 <= PI * c) by nra.
  assert (Hv : PI * s * tan theta - PI * c <= -9) by lra.
  split; [lra|]. rewrite Rabs_left by lra.
  pose proof tol_root_bounds. lra.
Qed.

(** Just above the pole in beta, the angle is just below 3 pi / 2, where
    the tangent is large and positive. *)
Lemma f_even_after_pole b :
  4 < b <= 4001 / 1000 ->
  exists v, fe (PI * b) = Some v /\ 0 < v /\ tol_root <= Rabs v /\ 1 <= v.
Proof.
  intros Hb. pose proof PI_RGT_0 as Hpi. pose proof PI2_3_2 as Hpi3.
  pose proof PI_4 as Hpi4.
  rewrite f_even_pole_case by lra.
  set (s := sqrt (25 - b ^ 2)). set (c := sqrt (b ^ 2 - 4)).
  assert (Hs : 2998 / 1000 <= s < 3).
  { split; [apply (sqrt_between _ (2998 / 1000) 3); nra|apply sqrt_lt_hi; nra]. }
  assert (Hc : 0 <= c <= 4) by (apply (sqrt_between _ 0 4); nra).
  set (theta := PI * s * 1 / 2).
  set (eps := 3 * (PI / 2) - theta).
  assert (Heps : 0 < eps <= 4 / 1000) by (unfold eps, theta; nra).
  assert (Hth : theta = 3 * (PI / 2) - eps) by (unfold eps; ring).
  assert (Hsin : sin theta = - cos eps).
  { rewrite Hth, sin_minus, sin_3PI2, cos_3PI2. ring. }
  assert (Hcos : cos theta = - sin eps).
  { rewrite Hth, cos_minus, sin_3PI2, cos_3PI2. ring. }
  assert (Hse : 0 < sin eps < 4 / 1000).
  { split; [apply sin_gt_0; lra|]. pose proof (sin_lt_x eps ltac:(lra)). lra. }
  assert (Hce : 1 / 2 <= cos eps).
  { assert (0 < cos eps) by (apply cos_gt_0; lra).
    pose proof (sin2_cos2 eps) as H2. unfold Rsqr in H2. nra. }
  assert (Hinv : 250 <= / sin eps).
  { replace 250 with (/ (4 / 1000)) by field.
    apply Rinv_le_contravar; lra. }
  assert (Htan : 125 <= tan theta).
  { unfold tan. rewrite Hsin, Hcos.
    replace (- cos eps / - sin eps) with (cos eps * / sin eps)
      by (field; lra).
    nra. }
  eexists. split; [reflexivity|].
  assert (Hks : 8 <= PI * s) by nra.
  assert (Hkt : 1000 <= PI * s * tan theta) by nra.
  assert (Hkc : PI * c <= 16) by nra.
  assert (Hv : 1 <= PI * s * tan theta - PI * c) by lra.
  split; [lra|]. split; [|exact Hv]. rewrite Rabs_right by lra.
  pose proof tol_root_bounds. lra.
Qed.

End PoleCase.

Lemma sample_pole_case i :
  (i < N_scan)%nat ->
  nth i (beta_scan 5 2 PI) 0 = PI * (2 + 3 * INR i / 1999).
Proof.
  intros Hi. unfold beta_scan. rewrite linspace_nth by exact Hi.
  rewrite INR_N_scan_pred. field.
Qed.

Lemma INR_1332 : INR 1332 = 1332.
Proof. rewrite INR_IZR_INZ. apply f_equal. vm_compute. reflexivity. Qed.

Lemma INR_1333 : INR 1333 = 1333.
Proof. rewrite INR_IZR_INZ. apply f_equal. vm_compute. reflexivity. Qed.

Lemma sample_1332 : nth 1332 (beta_scan 5 2 PI) 0 = PI * (2 + 3996 / 1999).
Proof.
  rewrite sample_pole_case by (unfold N_scan; lia).
  rewrite INR_1332. f_equal. lra.
Qed.

Lemma sample_1333 : nth 1333 (beta_scan 5 2 PI) 0 = PI * (2 + 3999 / 1999).
Proof.
  rewrite sample_pole_case by (unfold N_scan; lia).
  rewrite INR_1333. f_equal. lra.
Qed.

(** Every beta of the bracket is pi times a number of the bracket. *)
Lemma over_pi beta : beta = PI * (beta / PI).
Proof. pose proof PI_RGT_0. field. lra. Qed.

Lemma pole_between_pole_case :
  pole_between (f_even 1 5 2 PI)
    (PI * (2 + 3996 / 1999)) (PI * (2 + 3999 / 1999)) (PI * 4).
Proof.
  pose proof PI_RGT_0 as Hpi. split; intros beta Hb.
  - rewrite (over_pi beta).
    apply f_even_before_pole.
    assert (H : PI * (399 / 100) <= PI * (beta / PI) < PI * 4)
      by (rewrite <- over_pi; nra).
    nra.
  - rewrite (over_pi beta).
    destruct (f_even_after_pole (beta / PI)) as (v & H1 & H2 & H3 & _).
    + assert (H : PI * 4 < PI * (beta / PI) <= PI * (4001 / 1000))
        by (rewrite <- over_pi; nra).
      nra.
    + exists v. auto.
Qed.

Lemma valid_even_after_pole b :
  4 < b <= 4001 / 1000 -> valid_even 1 5 PI (PI * b) = true.
Proof.
  intros Hb. pose proof PI_RGT_0 as Hpi. unfold valid_even, branch_index.
  assert (H1 : 0 < PI ^ 2 * (25 - b ^ 2)) by (apply Rmult_lt_0_compat; nra).
  rewrite (Rleb_false (5 ^ 2 * PI ^ 2 - (PI * b) ^ 2) 0) by nra.
  rewrite kx_pole_case by nra.
  set (s := sqrt (25 - b ^ 2)).
  assert (Hs : 2 <= s < 3).
  { split; [apply (sqrt_between _ 2 3); nra|apply sqrt_lt_hi; nra]. }
  replace (2 * (PI * s * 1 / 2) / PI) with s by (field; lra).
  rewrite (Zfloor_eq 2 s) by (simpl; lra).
  reflexivity.
Qed.

(** The refinement of the bracket that holds the pole returns a beta
    beyond the pole, which [valid_even] accepts and where the even
    characteristic has a value of at least 1. *)
Lemma spurious_even_mode :
  let beta := refine_root (f_even 1 5 2 PI)
                (nth 1332 (beta_scan 5 2 PI) 0)
                (nth 1333 (beta_scan 5 2 PI) 0) in
  In (Even, beta) (modes_sorted 1 5 2 PI) /\
  exists v, f_even 1 5 2 PI beta = Some v /\ 1 <= v.
Proof.
  intros beta. pose proof PI_RGT_0 as Hpi.
  assert (Hr : PI * 4 < beta <= PI * (2 + 3999 / 1999)).
  { unfold beta. rewrite sample_1332, sample_1333.
    apply refine_root_pole; [exact pole_between_pole_case|nra|field]. }
  assert (Hb : 4 < beta / PI <= 4001 / 1000).
  { assert (H : PI * 4 < PI * (beta / PI) <= PI * (4001 / 1000))
      by (rewrite <- over_pi; nra).
    nra. }
  split.
  - unfold modes_sorted. apply in_sorted_desc. apply in_modes.
    unfold even_roots. apply in_roots. split.
    + rewrite (over_pi beta). apply valid_even_after_pole. exact Hb.
    + exists 1332%nat. split; [unfold N_scan; lia|]. split; [|reflexivity].
      change (1332 + 1)%nat with 1333%nat.
      rewrite sample_1332, sample_1333.
      destruct pole_between_pole_case as [Hneg Hpos].
      destruct (Hneg (PI * (2 + 3996 / 1999)) ltac:(nra)) as (u & Hu & Hun & _).
      destruct (Hpos (PI * (2 + 3999 / 1999)) ltac:(nra)) as (v & Hv & Hvp & _).
      rewrite Hu, Hv. simpl. apply Rltb_true. nra.
  - rewrite (over_pi beta).
    destruct (f_even_after_pole (beta / PI) Hb) as (v & H1 & _ & _ & H4).
    exists v. split; assumption.
Qed.

(** ** [slab_mode_source] returns when a mode was found *)

Lemma clamp_index_in_range ind found :
  (0 <= ind)%Z -> (0 < found)%nat ->
  (fst (clamp_index ind found) < found)%nat.
Proof.
  intros Hi Hf. unfold clamp_index.
  destruct (Z.geb_spec ind (Z.of_nat found)); simpl; lia.
Qed.

Lemma slab_mode_source_returns x w n_WG n0 wavelength ind_m x0 :
  validate x w n_WG n0 wavelength ind_m = None ->
  modes_sorted w n_WG n0 (2 * PI / wavelength) <> [] ->
  exists mode,
    chosen_mode w n_WG n0 wavelength ind_m = Some mode /\
    slab_mode_source x w n_WG n0 wavelength ind_m x0 =
    (Ok (normalize
           (raw_field (flat x) w n_WG n0 (2 * PI / wavelength) x0 mode)
           (flat x)),
     snd (clamp_index (int_value ind_m)
            (length (modes_sorted w n_WG n0 (2 * PI / wavelength))))).
Proof.
  intros Hv Hne. unfold slab_mode_source, chosen_mode. rewrite Hv.
  apply validate_passes in Hv. destruct Hv as (_ & _ & Hind).
  set (sorted := modes_sorted w n_WG n0 (2 * PI / wavelength)) in *.
  assert (Hlen : (0 < length sorted)%nat)
    by (destruct sorted; [contradiction|simpl; lia]).
  pose proof (clamp_index_in_range _ _ Hind Hlen) as Hrange.
  destruct (clamp_index (int_value ind_m) (length sorted)) as [ind ws].
  cbn [fst snd] in *.
  destruct (nth_error sorted ind) as [mode|] eqn:Hn;
    [|apply nth_error_None in Hn; lia].
  exists mode. split; [reflexivity|].
  destruct sorted; [contradiction|reflexivity].
Qed.

(** The scan yields at most one bracket per pair of adjacent samples. *)
Lemma intervals_length n_WG n0 k0 f :
  (length (intervals n_WG n0 k0 f) <= N_scan - 1)%nat.
Proof.
  unfold intervals.
  set (g := fun i : nat => _).
  assert (H : forall l, (length (flat_map g l) <= length l)%nat).
  { induction l as [|a l IH]; simpl; [lia|].
    rewrite length_app. unfold g at 1.
    destruct (sign_change _ _); simpl; lia. }
  specialize (H (seq 0 (N_scan - 1))). rewrite length_seq in H. exact H.
Qed.

Lemma modes_sorted_length w n_WG n0 k0 :
  (length (modes_sorted w n_WG n0 k0) <= 2 * (N_scan - 1))%nat.
Proof.
  unfold modes_sorted. rewrite sorted_desc_length. unfold modes.
  rewrite length_app, !length_map. unfold even_roots, odd_roots, roots.
  pose proof (filter_length_le (valid_even w n_WG k0)
    (map (fun lr => refine_root (f_even w n_WG n0 k0) (fst lr) (snd lr))
       (intervals n_WG n0 k0 (f_even w n_WG n0 k0)))) as H1.
  pose proof (filter_length_le (valid_odd w n_WG k0)
    (map (fun lr => refine_root (f_odd w n_WG n0 k0) (fst lr) (snd lr))
       (intervals n_WG n0 k0 (f_odd w n_WG n0 k0)))) as H2.
  rewrite length_map in H1, H2.
  pose proof (intervals_length n_WG n0 k0 (f_even w n_WG n0 k0)).
  pose proof (intervals_length n_WG n0 k0 (f_odd w n_WG n0 k0)).
  lia.
Qed.

Lemma modes_pole_case_nonempty : modes_sorted 1 5 2 (2 * PI / 2) <> [].
Proof.
  rewrite two_pi_over_two. destruct spurious_even_mode as [Hin _].
  intros E. rewrite E in Hin. exact Hin.
Qed.

Lemma validate_pole_case x ind :
  ndim x = 1%nat -> (0 <= ind)%Z -> validate x 1 5 2 2 (PyInt ind) = None.
Proof.
  intros Hx Hi. apply validate_passes. unfold other_arguments_valid.
  simpl. splits; try lra; auto.
Qed.

(** ** Normalisation *)

Lemma Cabs_sqr e : Cabs e ^ 2 = Re e * Re e + Im e * Im e.
Proof. unfold Cabs. apply pow2_sqrt. nra. Qed.

Lemma Cabs_sqr_div e n : Cabs (Cdivr e n) ^ 2 = Cabs e ^ 2 * (/ n) ^ 2.
Proof. rewrite !Cabs_sqr. unfold Cdivr, Rdiv. simpl. ring. Qed.

Lemma trapezoid_scale c : forall y x,
  trapezoid (map (fun v => v * c) y) x = trapezoid y x * c.
Proof.
  induction y as [|y0 y IH]; intros x; [simpl; ring|].
  destruct y as [|y1 y]; [simpl; ring|].
  destruct x as [|x0 [|x1 x]]; try (simpl; ring).
  specialize (IH (x1 :: x)).
  change (trapezoid (map (fun v => v * c) (y0 :: y1 :: y)) (x0 :: x1 :: x))
    with ((x1 - x0) * (y1 * c + y0 * c) / 2
          + trapezoid (map (fun v => v * c) (y1 :: y)) (x1 :: x)).
  rewrite IH.
  change (trapezoid (y0 :: y1 :: y) (x0 :: x1 :: x))
    with ((x1 - x0) * (y1 + y0) / 2 + trapezoid (y1 :: y) (x1 :: x)).
  field.
Qed.

Lemma power_div E x n :
  power (map (fun e => Cdivr e n) E) x = power E x * (/ n) ^ 2.
Proof.
  unfold power. rewrite map_map.
  rewrite <- trapezoid_scale. rewrite map_map.
  f_equal. apply map_ext. intros e. apply Cabs_sqr_div.
Qed.

Lemma power_normalize E x : 0 < power E x -> power (normalize E x) x = 1.
Proof.
  intros H. unfold normalize. rewrite power_div.
  assert (Hs : 0 < sqrt (power E x)) by (apply sqrt_lt_R0; exact H).
  assert (Hq : sqrt (power E x) ^ 2 = power E x) by (apply pow2_sqrt; lra).
  rewrite <- Hq at 1. field. lra.
Qed.

(** C5, as the code has it.  When the trapezoidal integral of the squared
    magnitude of the field before normalisation is positive, the integral
    of the squared magnitude of the field returned is 1. *)
Theorem slab_mode_source_normalized x w n_WG n0 wavelength ind_m x0 E ws mode :
  slab_mode_source x w n_WG n0 wavelength ind_m x0 = (Ok E, ws) ->
  chosen_mode w n_WG n0 wavelength ind_m = Some mode ->
  0 < power (raw_field (flat x) w n_WG n0 (2 * PI / wavelength) x0 mode)
        (flat x) ->
  power E (flat x) = 1.
Proof.
  intros Hs Hc Hp. unfold slab_mode_source in Hs.
  destruct (validate x w n_WG n0 wavelength ind_m) as [e|] eqn:Hv;
    [discriminate|].
  destruct (slab_mode_source_returns x w n_WG n0 wavelength ind_m x0 Hv)
    as (mode' & Hc' & Hs').
  { intros Hnil. rewrite Hnil in Hs. discriminate. }
  rewrite Hc in Hc'. injection Hc' as <-.
  unfold slab_mode_source in Hs'. rewrite Hv in Hs'.
  rewrite Hs' in Hs. injection Hs as <- _.
  apply power_normalize. exact Hp.
Qed.

(** C5 fails on the code.  On a grid of one point the call returns, and
    the integral of the squared magnitude of the field returned is 0. *)
Lemma slab_mode_source_single_point_not_normalized :
  exists E ws,
    slab_mode_source (mkArr [1%nat] [0]) 1 5 2 2 (PyInt 0) 0 = (Ok E, ws) /\
    power E (flat (mkArr [1%nat] [0])) = 0 /\
    power E (flat (mkArr [1%nat] [0])) <> 1.
Proof.
  destruct (slab_mode_source_returns (mkArr [1%nat] [0]) 1 5 2 2 (PyInt 0) 0)
    as (mode & _ & Hs).
  - apply validate_pole_case; [reflexivity|lia].
  - exact modes_pole_case_nonempty.
  - eexists. eexists. split; [exact Hs|].
    assert (H0 : forall E, power (normalize E [0]) [0] = 0).
    { intros [|e [|e' E']]; reflexivity. }
    cbn [flat]. rewrite H0. split; [reflexivity|lra].
Qed.

(** On the grid [0, 1/5] every mode of the pole case has a field of
    positive power: an even mode is 1 at 0 and an odd mode is positive at
    1/5. *)
Lemma power_pole_case mode :
  In mode (modes_sorted 1 5 2 (2 * PI / 2)) ->
  0 < power (raw_field [0; 1 / 5] 1 5 2 (2 * PI / 2) 0 mode) [0; 1 / 5].
Proof.
  rewrite two_pi_over_two. destruct mode as [p beta]. intros Hin.
  pose proof PI_RGT_0 as Hpi.
  destruct (mode_from_bracket 1 5 2 PI p beta Hin)
    as (i & _ & _ & _ & Hl & _ & Hr & Hb).
  assert (Hbeta : 2 * PI < beta < 5 * PI) by lra.
  unfold power, raw_field. cbn [map fst snd trapezoid].
  rewrite !Cabs_sqr. cbn [Re Im RtoC].
  set (kx := sqrt (5 ^ 2 * PI ^ 2 - beta ^ 2)).
  set (kappa := sqrt (beta ^ 2 - 2 ^ 2 * PI ^ 2)).
  assert (Hkx : 0 < kx < 5 * PI).
  { unfold kx. split; [apply sqrt_lt_R0; nra|apply sqrt_lt_hi; nra]. }
  set (r0 := mode_profile 1 kx kappa 0 p 0).
  set (r1 := mode_profile 1 kx kappa 0 p (1 / 5)).
  assert (Hpos : 0 < r0 * r0 + r1 * r1).
  { destruct p.
    - assert (E0 : r0 = 1).
      { unfold r0, mode_profile.
        replace (0 - 0) with 0 by ring. rewrite Rabs_R0.
        rewrite Rleb_true by lra. rewrite Rmult_0_r. apply cos_0. }
      nra.
    - assert (E1 : 0 < r1).
      { unfold r1, mode_profile.
        replace (1 / 5 - 0) with (1 / 5) by ring.
        rewrite Rabs_right by lra. rewrite Rleb_true by lra.
        apply sin_gt_0; nra. }
      nra. }
  nra.
Qed.

Lemma slab_mode_source_normalized_witness :
  exists E ws,
    slab_mode_source (mkArr [2%nat] [0; 1 / 5]) 1 5 2 2 (PyInt 0) 0
      = (Ok E, ws) /\
    power E (flat (mkArr [2%nat] [0; 1 / 5])) = 1.
Proof.
  destruct (slab_mode_source_returns (mkArr [2%nat] [0; 1 / 5]) 1 5 2 2
              (PyInt 0) 0
              (validate_pole_case (mkArr [2%nat] [0; 1 / 5]) 0 eq_refl
                 (Z.le_refl 0))
              modes_pole_case_nonempty) as (mode & Hc & Hs).
  eexists. eexists. split; [exact Hs|].
  apply (slab_mode_source_normalized (mkArr [2%nat] [0; 1 / 5]) 1 5 2 2
           (PyInt 0) 0 _ _ mode Hs Hc).
  apply power_pole_case.
  apply (nth_error_In _ _ Hc).
Defined.

(** ** A slab whose scan misses the even fundamental mode *)

Lemma sin_ge_cubic a : 0 <= a -> a <= PI -> a - a ^ 3 / 6 <= sin a.
Proof.
  intros H0 H1. destruct (sin_bound a 0 H0 H1) as [H _].
  unfold sin_approx, sin_term in H. simpl in H. lra.
Qed.

Lemma cos_ge_half a : 0 <= a <= 1 / 2 -> 1 / 2 <= cos a.
Proof.
  intros Ha. pose proof PI2_3_2 as Hpi.
  assert (Hc : 0 < cos a) by (apply cos_gt_0; lra).
  assert (Hs : 0 <= sin a <= a).
  { split; [apply sin_ge_0; lra|].
    destruct (Req_dec a 0) as [->|Hne]; [rewrite sin_0; lra|].
    pose proof (sin_lt_x a ltac:(lra)). lra. }
  pose proof (sin2_cos2 a) as H2. unfold Rsqr in H2. nra.
Qed.

Lemma four_pi : 2 * PI / (1 / 2) = 4 * PI.
Proof. field. Qed.

Section MissedCase.

(** w = 5, n_WG = 2, n0 = 1, wavelength = 1/2, so that k0 = 4 pi. *)
Let k0 := 4 * PI.
Let fe := f_even 5 2 1 k0.
Let fo := f_odd 5 2 1 k0.

Lemma k0_pos : 0 < k0.
Proof. unfold k0. pose proof PI_RGT_0. lra. Qed.

Lemma kx_missed_case b :
  b ^ 2 <= 4 -> sqrt (2 ^ 2 * k0 ^ 2 - (k0 * b) ^ 2) = k0 * sqrt (4 - b ^ 2).
Proof.
  intros Hb. pose proof k0_pos as Hk.
  replace (2 ^ 2 * k0 ^ 2 - (k0 * b) ^ 2) with (k0 ^ 2 * (4 - b ^ 2)) by ring.
  rewrite sqrt_mult by nra. rewrite sqrt_pow2 by lra. reflexivity.
Qed.

Lemma kappa_missed_case b :
  1 <= b ^ 2 -> sqrt ((k0 * b) ^ 2 - 1 ^ 2 * k0 ^ 2) = k0 * sqrt (b ^ 2 - 1).
Proof.
  intros Hb. pose proof k0_pos as Hk.
  replace ((k0 * b) ^ 2 - 1 ^ 2 * k0 ^ 2) with (k0 ^ 2 * (b ^ 2 - 1)) by ring.
  rewrite sqrt_mult by nra. rewrite sqrt_pow2 by lra. reflexivity.
Qed.


Lemma angle_eq b : angle k0 b = 10 * PI * sqrt (4 - b ^ 2).
Proof. unfold angle, k0. field. Qed.

Lemma f_even_missed_case b :
  1 < b < 2 ->
  fe (k0 * b) =
  Some (k0 * sqrt (4 - b ^ 2) * tan (angle k0 b) - k0 * sqrt (b ^ 2 - 1)).
Proof.
  intros Hb. pose proof k0_pos as Hk. unfold fe, f_even, angle.
  assert (H1 : 0 < k0 ^ 2 * (4 - b ^ 2)) by (apply Rmult_lt_0_compat; nra).
  assert (H2 : 0 < k0 ^ 2 * (b ^ 2 - 1)) by (apply Rmult_lt_0_compat; nra).
  rewrite (Rltb_false (k0 * b) (1 * k0)) by nra.
  rewrite (Rltb_false (2 * k0) (k0 * b)) by nra. cbn [orb].
  rewrite (Rleb_false (2 ^ 2 * k0 ^ 2 - (k0 * b) ^ 2) 0) by nra.
  rewrite (Rleb_false ((k0 * b) ^ 2 - 1 ^ 2 * k0 ^ 2) 0) by nra. cbn [orb].
  rewrite kx_missed_case by nra. rewrite kappa_missed_case by nra.
  reflexivity.
Qed.

Lemma f_odd_missed_case b :
  1 < b < 2 -> tol_sin <= Rabs (sin (angle k0 b)) ->
  fo (k0 * b) =
  Some (- (k0 * sqrt (4 - b ^ 2)) * (cos (angle k0 b) / sin (angle k0 b))
        - k0 * sqrt (b ^ 2 - 1)).
Proof.
  intros Hb Hsin. pose proof k0_pos as Hk. unfold fo, f_odd.
  assert (H1 : 0 < k0 ^ 2 * (4 - b ^ 2)) by (apply Rmult_lt_0_compat; nra).
  assert (H2 : 0 < k0 ^ 2 * (b ^ 2 - 1)) by (apply Rmult_lt_0_compat; nra).
  rewrite (Rltb_false (k0 * b) (1 * k0)) by nra.
  rewrite (Rltb_false (2 * k0) (k0 * b)) by nra. cbn [orb].
  rewrite (Rleb_false (2 ^ 2 * k0 ^ 2 - (k0 * b) ^ 2) 0) by nra.
  rewrite (Rleb_false ((k0 * b) ^ 2 - 1 ^ 2 * k0 ^ 2) 0) by nra. cbn [orb].
  rewrite kx_missed_case by nra. rewrite kappa_missed_case by nra.
  fold (angle k0 b). rewrite (Rltb_false _ _ Hsin). reflexivity.
Qed.


(** Between pi / 2 and pi the tangent is negative, and so is the even
    characteristic. *)
Lemma f_even_negative_second_quadrant b :
  1 < b < 2 -> 1 / 20 < sqrt (4 - b ^ 2) < 1 / 10 ->
  exists v, fe (k0 * b) = Some v /\ v < 0.
Proof.
  intros Hb Hs. pose proof PI_RGT_0 as Hpi. pose proof k0_pos as Hk.
  rewrite f_even_missed_case by exact Hb.
  set (s := sqrt (4 - b ^ 2)) in *. set (c := sqrt (b ^ 2 - 1)).
  assert (Hc : 0 <= c) by apply sqrt_pos.
  assert (Hth : PI / 2 < angle k0 b < PI) by (rewrite angle_eq; fold s; nra).
  assert (Hsin : 0 < sin (angle k0 b)) by (apply sin_gt_0; lra).
  assert (Hcos : cos (angle k0 b) < 0) by (apply cos_lt_0; lra).
  assert (Htan : tan (angle k0 b) < 0).
  { unfold tan, Rdiv. assert (/ cos (angle k0 b) < 0) by (apply Rinv_lt_0_compat; lra).
    nra. }
  eexists. split; [reflexivity|].
  assert (0 < k0 * s) by (apply Rmult_lt_0_compat; lra).
  assert (0 <= k0 * c) by (apply Rmult_le_pos; lra).
  assert (k0 * s * tan (angle k0 b) < 0) by nra.
  lra.
Qed.

(** Below pi / 2 - 0.1 the tangent is below 7 while kappa / kx is far
    above it. *)
Lemma f_even_negative_first_quadrant b :
  199 / 100 <= b < 2 ->
  447 / 10000 <= sqrt (4 - b ^ 2) <= 448 / 10000 ->
  exists v, fe (k0 * b) = Some v /\ v < 0.
Proof.
  intros Hb Hs. pose proof PI_RGT_0 as Hpi. pose proof k0_pos as Hk.
  pose proof PI2_3_2 as Hpi3. pose proof PI_4 as Hpi4.
  rewrite f_even_missed_case by lra.
  set (s := sqrt (4 - b ^ 2)) in *. set (c := sqrt (b ^ 2 - 1)).
  assert (Hc : 17 / 10 <= c) by (apply (sqrt_between _ (17 / 10) 2); nra).
  set (delta := PI / 2 - angle k0 b).
  assert (Hd : 15 / 100 <= delta <= 22 / 100)
    by (unfold delta; rewrite angle_eq; fold s; nra).
  assert (Hth : angle k0 b = PI / 2 - delta) by (unfold delta; ring).
  assert (Hsd : 14 / 100 <= sin delta).
  { pose proof (sin_ge_cubic delta ltac:(lra) ltac:(lra)) as H.
    assert (delta ^ 3 <= 11 / 1000) by nra. lra. }
  assert (Hcd : 0 < cos delta <= 1).
  { split; [apply cos_gt_0; lra|apply COS_bound]. }
  assert (Hinv : 0 < / sin delta <= 8).
  { split; [apply Rinv_0_lt_compat; lra|].
    replace 8 with (/ (1 / 8)) by field. apply Rinv_le_contravar; lra. }
  assert (Htan : tan (angle k0 b) <= 8).
  { unfold tan. rewrite Hth, sin_shift, cos_shift. unfold Rdiv. nra. }
  eexists. split; [reflexivity|].
  assert (0 < k0 * s) by (apply Rmult_lt_0_compat; lra).
  assert (H1 : k0 * s * tan (angle k0 b) <= k0 * s * 8) by nra.
  assert (H2 : k0 * s * 8 <= k0 * (4 / 10)) by nra.
  assert (H3 : k0 * (17 / 10) <= k0 * c) by nra.
  nra.
Qed.

(** Just below pi the cotangent is hugely negative, and the odd
    characteristic positive. *)
Lemma f_odd_positive_near_pi b :
  1 < b < 2 ->
  99993 / 1000000 <= sqrt (4 - b ^ 2) <= 99994 / 1000000 ->
  exists v, fo (k0 * b) = Some v /\ 0 < v.
Proof.
  intros Hb Hs. pose proof PI_RGT_0 as Hpi. pose proof k0_pos as Hk.
  pose proof PI2_3_2 as Hpi3. pose proof PI_4 as Hpi4.
  set (s := sqrt (4 - b ^ 2)) in *. set (c := sqrt (b ^ 2 - 1)).
  assert (Hc : 0 <= c <= 2) by (apply (sqrt_between _ 0 2); nra).
  set (phi := PI - angle k0 b).
  assert (Hphi : 1 / 10000 <= phi <= 3 / 10000)
    by (unfold phi; rewrite angle_eq; fold s; nra).
  assert (Hth : angle k0 b = PI - phi) by (unfold phi; ring).
  assert (Hsin : sin (angle k0 b) = sin phi) by (rewrite Hth; apply sin_PI_x).
  assert (Hcos : cos (angle k0 b) = - cos phi).
  { rewrite Hth, cos_minus, cos_PI, sin_PI. ring. }
  assert (Hsp : 1 / 20000 <= sin phi <= 3 / 10000).
  { split.
    - pose proof (sin_ge_cubic phi ltac:(lra) ltac:(lra)) as H.
      assert (phi ^ 3 <= 1 / 20000) by nra. lra.
    - pose proof (sin_lt_x phi ltac:(lra)). lra. }
  assert (Hcp : 1 / 2 <= cos phi) by (apply cos_ge_half; lra).
  rewrite f_odd_missed_case; [|exact Hb|].
  2:{ rewrite Hsin, Rabs_right by lra. unfold tol_sin.
      apply Rle_trans with (1 / 20000); [|lra].
      unfold Rdiv. rewrite !Rmult_1_l.
      apply Rinv_le_contravar; [lra|]. simpl. lra. }
  fold s c. rewrite Hsin, Hcos.
  eexists. split; [reflexivity|].
  assert (Hinv : 3000 <= / sin phi).
  { apply Rle_trans with (/ (3 / 10000)); [lra|].
    apply Rinv_le_contravar; lra. }
  assert (Hcot : 1500 <= cos phi * / sin phi) by nra.
  replace (- (k0 * s) * (- cos phi / sin phi) - k0 * c)
    with (k0 * (s * (cos phi * / sin phi) - c)) by (field; lra).
  apply Rmult_lt_0_compat; [lra|]. nra.
Qed.

(** Further from pi the cotangent is small against kappa / kx, and the
    odd characteristic negative. *)
Lemma f_odd_negative_below_root b :
  199 / 100 <= b < 2 ->
  894 / 10000 <= sqrt (4 - b ^ 2) <= 895 / 10000 ->
  exists v, fo (k0 * b) = Some v /\ v < 0.
Proof.
  intros Hb Hs. pose proof PI_RGT_0 as Hpi. pose proof k0_pos as Hk.
  pose proof PI2_3_2 as Hpi3. pose proof PI_4 as Hpi4.
  set (s := sqrt (4 - b ^ 2)) in *. set (c := sqrt (b ^ 2 - 1)).
  assert (Hc : 17 / 10 <= c) by (apply (sqrt_between _ (17 / 10) 2); nra).
  set (phi := PI - angle k0 b).
  assert (Hphi : 3 / 10 <= phi <= 1 / 2)
    by (unfold phi; rewrite angle_eq; fold s; nra).
  assert (Hth : angle k0 b = PI - phi) by (unfold phi; ring).
  assert (Hsin : sin (angle k0 b) = sin phi) by (rewrite Hth; apply sin_PI_x).
  assert (Hcos : cos (angle k0 b) = - cos phi).
  { rewrite Hth, cos_minus, cos_PI, sin_PI. ring. }
  assert (Hsp : 1 / 4 <= sin phi).
  { pose proof (sin_ge_cubic phi ltac:(lra) ltac:(lra)) as H.
    assert (phi ^ 3 <= 1 / 8) by nra. lra. }
  assert (Hcp : 0 < cos phi <= 1).
  { split; [apply cos_gt_0; lra|apply COS_bound]. }
  rewrite f_odd_missed_case; [|lra|].
  2:{ rewrite Hsin, Rabs_right by lra. unfold tol_sin.
      apply Rle_trans with (1 / 4); [|lra].
      unfold Rdiv. rewrite !Rmult_1_l.
      apply Rinv_le_contravar; [lra|]. simpl. lra. }
  fold s c. rewrite Hsin, Hcos.
  eexists. split; [reflexivity|].
  assert (Hinv : 0 < / sin phi <= 4).
  { split; [apply Rinv_0_lt_compat; lra|].
    replace 4 with (/ (1 / 4)) by field. apply Rinv_le_contravar; lra. }
  assert (Hcot : 0 <= cos phi * / sin phi <= 4) by nra.
  replace (- (k0 * s) * (- cos phi / sin phi) - k0 * c)
    with (k0 * (s * (cos phi * / sin phi) - c)) by (field; lra).
  assert (s * (cos phi * / sin phi) - c < 0) by nra.
  nra.
Qed.


Lemma sample_missed_case i :
  (i < N_scan)%nat ->
  nth i (beta_scan 2 1 k0) 0 = k0 * (1 + INR i / 1999).
Proof.
  intros Hi. unfold beta_scan. rewrite linspace_nth by exact Hi.
  rewrite INR_N_scan_pred. field.
Qed.

Lemma INR_literal (n : nat) (z : Z) : Z.of_nat n = z -> INR n = IZR z.
Proof. intros <-. apply INR_IZR_INZ. Qed.

Lemma sample_1994 : nth 1994 (beta_scan 2 1 k0) 0 = k0 * (1 + 1994 / 1999).
Proof.
  rewrite sample_missed_case by (unfold N_scan; lia).
  rewrite (INR_literal 1994 1994) by (vm_compute; reflexivity). reflexivity.
Qed.

Lemma sample_1995 : nth 1995 (beta_scan 2 1 k0) 0 = k0 * (1 + 1995 / 1999).
Proof.
  rewrite sample_missed_case by (unfold N_scan; lia).
  rewrite (INR_literal 1995 1995) by (vm_compute; reflexivity). reflexivity.
Qed.

Lemma sample_1997 : nth 1997 (beta_scan 2 1 k0) 0 = k0 * (1 + 1997 / 1999).
Proof.
  rewrite sample_missed_case by (unfold N_scan; lia).
  rewrite (INR_literal 1997 1997) by (vm_compute; reflexivity). reflexivity.
Qed.

Lemma sample_1998 : nth 1998 (beta_scan 2 1 k0) 0 = k0 * (1 + 1998 / 1999).
Proof.
  rewrite sample_missed_case by (unfold N_scan; lia).
  rewrite (INR_literal 1998 1998) by (vm_compute; reflexivity). reflexivity.
Qed.

Lemma sample_1999 : nth 1999 (beta_scan 2 1 k0) 0 = k0 * 2.
Proof.
  rewrite sample_missed_case by (unfold N_scan; lia).
  rewrite (INR_literal 1999 1999) by (vm_compute; reflexivity).
  f_equal. field.
Qed.

Lemma sample_missed_le i j :
  (i <= j)%nat -> (j < N_scan)%nat ->
  nth i (beta_scan 2 1 k0) 0 <= nth j (beta_scan 2 1 k0) 0.
Proof.
  intros Hij Hj. rewrite !sample_missed_case by lia.
  pose proof k0_pos. apply le_INR in Hij.
  apply Rmult_le_compat_l; [lra|]. unfold Rdiv.
  apply Rplus_le_compat_l. apply Rmult_le_compat_r; lra.
Qed.

(** The signs at the four samples that matter. *)
Lemma f_odd_at_1994 :
  exists v, fo (nth 1994 (beta_scan 2 1 k0) 0) = Some v /\ 0 < v.
Proof.
  rewrite sample_1994. apply f_odd_positive_near_pi; [lra|].
  apply sqrt_between; lra.
Qed.

Lemma f_odd_at_1995 :
  exists v, fo (nth 1995 (beta_scan 2 1 k0) 0) = Some v /\ v < 0.
Proof.
  rewrite sample_1995. apply f_odd_negative_below_root; [lra|].
  apply sqrt_between; lra.
Qed.

Lemma f_even_at_1997 :
  exists v, fe (nth 1997 (beta_scan 2 1 k0) 0) = Some v /\ v < 0.
Proof.
  rewrite sample_1997. apply f_even_negative_second_quadrant; [lra|].
  split; [apply sqrt_gt_lo; lra|apply sqrt_lt_hi; lra].
Qed.

Lemma f_even_at_1998 :
  exists v, fe (nth 1998 (beta_scan 2 1 k0) 0) = Some v /\ v < 0.
Proof.
  rewrite sample_1998. apply f_even_negative_first_quadrant; [lra|].
  apply sqrt_between; lra.
Qed.

Lemma f_even_at_1999 : fe (nth 1999 (beta_scan 2 1 k0) 0) = None.
Proof.
  rewrite sample_1999. pose proof k0_pos as Hk. unfold fe, f_even.
  rewrite (Rltb_false (k0 * 2) (1 * k0)) by lra.
  rewrite (Rltb_false (2 * k0) (k0 * 2)) by lra. cbn [orb].
  rewrite (Rleb_true (2 ^ 2 * k0 ^ 2 - (k0 * 2) ^ 2) 0)
    by (right; ring).
  reflexivity.
Qed.


(** sqrt (4 - b^2) against a bound, from b against a bound. *)
Lemma over_k0 beta : beta = k0 * (beta / k0).
Proof. pose proof k0_pos. field. lra. Qed.

Lemma b_of_beta beta lo hi :
  k0 * lo < beta < k0 * hi -> lo < beta / k0 < hi.
Proof.
  intros H. pose proof k0_pos as Hk. rewrite (over_k0 beta) in H.
  split; apply (Rmult_lt_reg_l k0); lra.
Qed.

(** Between samples 1994 and 1995 the branch index is 1. *)
Lemma valid_odd_in_bracket beta :
  nth 1994 (beta_scan 2 1 k0) 0 < beta < nth 1995 (beta_scan 2 1 k0) 0 ->
  valid_odd 5 2 k0 beta = true.
Proof.
  rewrite sample_1994, sample_1995. intros Hb.
  apply b_of_beta in Hb. pose proof k0_pos as Hk. pose proof PI_RGT_0 as Hpi.
  rewrite (over_k0 beta). set (b := beta / k0) in *.
  unfold valid_odd, branch_index.
  assert (H1 : 0 < k0 ^ 2 * (4 - b ^ 2)) by (apply Rmult_lt_0_compat; nra).
  rewrite (Rleb_false (2 ^ 2 * k0 ^ 2 - (k0 * b) ^ 2) 0) by nra.
  rewrite kx_missed_case by nra.
  set (s := sqrt (4 - b ^ 2)).
  assert (Hs : 1 / 20 <= s < 1 / 10).
  { split; [apply (sqrt_between _ (1 / 20) 2); nra|apply sqrt_lt_hi; nra]. }
  replace (2 * (k0 * s * 5 / 2) / PI) with (20 * s) by (unfold k0; field; lra).
  rewrite (Zfloor_eq 1 (20 * s)) by (simpl; lra).
  reflexivity.
Qed.

(** The odd mode of the first branch is found. *)
Lemma odd_mode_found :
  exists beta,
    In (Odd, beta) (modes_sorted 5 2 1 k0) /\
    nth 1994 (beta_scan 2 1 k0) 0 < beta.
Proof.
  pose proof k0_pos as Hk.
  assert (Hlr : nth 1994 (beta_scan 2 1 k0) 0 < nth 1995 (beta_scan 2 1 k0) 0)
    by (rewrite sample_1994, sample_1995; nra).
  pose proof (refine_root_inside fo _ _ Hlr) as Hin.
  exists (refine_root fo (nth 1994 (beta_scan 2 1 k0) 0)
            (nth 1995 (beta_scan 2 1 k0) 0)).
  split; [|lra].
  unfold modes_sorted. apply in_sorted_desc. apply in_modes.
  unfold odd_roots. apply in_roots. split.
  - apply valid_odd_in_bracket. exact Hin.
  - exists 1994%nat. split; [unfold N_scan; lia|]. split; [|reflexivity].
    change (1994 + 1)%nat with 1995%nat.
    destruct f_odd_at_1994 as (u & Hu & Hup).
    destruct f_odd_at_1995 as (v & Hv & Hvn).
    fold fo. rewrite Hu, Hv. simpl. apply Rltb_true. nra.
Qed.

(** An even mode above sample 1994 would have its angle below
    pi / 2 - 0.1, hence lie above sample 1997, where the scan sees no
    change of sign. *)
Lemma valid_even_above_1994 beta :
  nth 1994 (beta_scan 2 1 k0) 0 < beta < 2 * k0 ->
  valid_even 5 2 k0 beta = true ->
  nth 1997 (beta_scan 2 1 k0) 0 < beta.
Proof.
  rewrite sample_1994, sample_1997. intros Hb.
  replace (2 * k0) with (k0 * 2) in Hb by ring.
  apply b_of_beta in Hb. pose proof k0_pos as Hk. pose proof PI_RGT_0 as Hpi.
  pose proof PI_4 as Hpi4.
  rewrite (over_k0 beta). set (b := beta / k0) in *.
  unfold valid_even, branch_index.
  assert (H1 : 0 < k0 ^ 2 * (4 - b ^ 2)) by (apply Rmult_lt_0_compat; nra).
  rewrite (Rleb_false (2 ^ 2 * k0 ^ 2 - (k0 * b) ^ 2) 0) by nra.
  rewrite kx_missed_case by nra.
  set (s := sqrt (4 - b ^ 2)).
  assert (Hs : 0 <= s < 1 / 10).
  { split; [apply sqrt_pos|apply sqrt_lt_hi; nra]. }
  replace (2 * (k0 * s * 5 / 2) / PI) with (20 * s) by (unfold k0; field; lra).
  destruct (Rlt_dec (20 * s) 1) as [Hlt|Hge].
  - rewrite (Zfloor_eq 0 (20 * s)) by (simpl; lra).
    cbn [Z.modulo Z.eqb Z.div_eucl andb]. simpl.
    destruct (Rltb_spec (PI / 2 - 1 / 10) (k0 * s * 5 / 2)) as [Hgt|Hle];
      [discriminate|]. intros _.
    assert (Hs2 : s < 1 / 20) by (unfold k0 in Hle; nra).
    assert (Hsq : 4 - b ^ 2 < (1 / 20) ^ 2).
    { destruct (Rlt_dec (4 - b ^ 2) ((1 / 20) ^ 2)) as [H|H]; [exact H|].
      exfalso. assert (1 / 20 <= s) by (apply (sqrt_between _ (1 / 20) 2); nra).
      lra. }
    apply Rmult_lt_compat_l; [lra|]. nra.
  - rewrite (Zfloor_eq 1 (20 * s)) by (simpl; lra).
    simpl. discriminate.
Qed.

Lemma no_even_mode_above_1994 beta :
  In (Even, beta) (modes_sorted 5 2 1 k0) ->
  beta <= nth 1994 (beta_scan 2 1 k0) 0.
Proof.
  intros Hin. destruct (Rle_dec beta (nth 1994 (beta_scan 2 1 k0) 0))
    as [Hle|Hgt]; [exact Hle|exfalso].
  destruct (mode_from_bracket 5 2 1 k0 Even beta Hin)
    as (i & Hi & Hs & _ & _ & _ & Hr & Hb).
  assert (Hvalid : valid_even 5 2 k0 beta = true).
  { unfold modes_sorted in Hin. apply (proj1 (in_sorted_desc _ _)) in Hin.
    apply (proj1 (in_modes _ _ _ _ _ _)) in Hin. unfold even_roots in Hin.
    apply (proj1 (in_roots _ _ _ _ _ _)) in Hin. apply Hin. }
  assert (H97 : nth 1997 (beta_scan 2 1 k0) 0 < beta)
    by (apply valid_even_above_1994; [lra|exact Hvalid]).
  assert (Hi97 : (1997 <= i)%nat).
  { destruct (Nat.le_gt_cases 1997 i) as [H|H]; [exact H|exfalso].
    pose proof (sample_missed_le (i + 1) 1997 ltac:(lia)
                  ltac:(unfold N_scan; lia)). lra. }
  unfold N_scan in Hi.
  assert (Hcase : i = 1997%nat \/ i = 1998%nat) by lia.
  unfold characteristic in Hs. fold fe in Hs.
  destruct Hcase as [-> | ->].
  - change (1997 + 1)%nat with 1998%nat in Hs.
    destruct f_even_at_1997 as (u & Hu & Hun).
    destruct f_even_at_1998 as (v & Hv & Hvn).
    rewrite Hu, Hv in Hs. simpl in Hs.
    rewrite Rltb_false in Hs by nra. discriminate.
  - change (1998 + 1)%nat with 1999%nat in Hs.
    rewrite f_even_at_1999 in Hs.
    destruct (fe (nth 1998 (beta_scan 2 1 k0) 0)); discriminate.
Qed.

(** The first mode of the sorted list is odd. *)
Lemma first_mode_odd :
  exists beta rest,
    modes_sorted 5 2 1 k0 = (Odd, beta) :: rest /\
    nth 1994 (beta_scan 2 1 k0) 0 < beta < 2 * k0.
Proof.
  destruct odd_mode_found as (r & Hr & Hr94).
  destruct (modes_sorted 5 2 1 k0) as [|[p beta] rest] eqn:Hsorted;
    [destruct Hr|].
  assert (Hhead : In (p, beta) (modes_sorted 5 2 1 k0))
    by (rewrite Hsorted; left; reflexivity).
  assert (Hmax : r <= beta).
  { unfold modes_sorted in Hsorted.
    apply (sorted_desc_head _ _ _ Hsorted (Odd, r)).
    rewrite <- Hsorted in Hr. apply (proj1 (in_sorted_desc _ _)) in Hr.
    exact Hr. }
  destruct (mode_from_bracket 5 2 1 k0 p beta Hhead)
    as (i & _ & _ & _ & _ & _ & Hhi & Hb).
  destruct p.
  - pose proof (no_even_mode_above_1994 beta Hhead). lra.
  - exists beta, rest. split; [reflexivity|]. lra.
Qed.

End MissedCase.

(** ** The field of the first mode *)

Lemma profile_odd_inside w kx kappa xi :
  Rabs xi <= w / 2 -> mode_profile w kx kappa 0 Odd xi = sin (kx * xi).
Proof.
  intros H. unfold mode_profile. replace (xi - 0) with xi by ring.
  rewrite Rleb_true by exact H. reflexivity.
Qed.

Lemma normalize_antisymmetric S :
  0 < S ->
  normalize [RtoC (- S); RtoC 0; RtoC S] [-1; 0; 1] =
  [mkC (-1) 0; C0; mkC 1 0].
Proof.
  intros HS. unfold normalize.
  assert (Hp : power [RtoC (- S); RtoC 0; RtoC S] [-1; 0; 1] = S ^ 2).
  { unfold power. cbn [map trapezoid]. rewrite !Cabs_sqr. simpl. field. }
  rewrite Hp, sqrt_pow2 by lra. cbn [map].
  repeat f_equal; apply C_eq; simpl; try field; lra.
Qed.

(** For w = 5, n_WG = 2, n0 = 1 and wavelength 1/2, on the grid -1, 0, 1
    centred on the slab, mode index 0 gives the field -1, 0, 1. *)
Lemma missed_case_field :
  slab_mode_source (mkArr [3%nat] [-1; 0; 1]) 5 2 1 (1 / 2) (PyInt 0) 0 =
  (Ok [mkC (-1) 0; C0; mkC 1 0], []).
Proof.
  pose proof PI_RGT_0 as Hpi.
  destruct first_mode_odd as (beta & rest & Hsorted & Hbeta).
  unfold slab_mode_source.
  assert (Hv : validate (mkArr [3%nat] [-1; 0; 1]) 5 2 1 (1 / 2) (PyInt 0)
               = None).
  { apply validate_passes. unfold other_arguments_valid. simpl.
    splits; try lra; auto. lia. }
  rewrite Hv, four_pi, Hsorted.
  unfold clamp_index. cbn [int_value].
  destruct (Z.geb_spec 0 (Z.of_nat (length ((Odd, beta) :: rest))));
    [simpl in *; lia|].
  cbn [Z.to_nat nth_error flat].
  unfold raw_field. cbn [fst snd map].
  set (kx := sqrt (2 ^ 2 * (4 * PI) ^ 2 - beta ^ 2)).
  set (kappa := sqrt (beta ^ 2 - 1 ^ 2 * (4 * PI) ^ 2)).
  assert (Hkx : 0 < kx < PI).
  { rewrite sample_1994 in Hbeta.
    replace (2 * (4 * PI)) with (4 * PI * 2) in Hbeta by ring.
    apply b_of_beta in Hbeta. unfold kx.
    rewrite (over_k0 beta). set (b := beta / (4 * PI)) in *.
    rewrite kx_missed_case by nra.
    assert (Hs : 0 < sqrt (4 - b ^ 2) < 1 / 10).
    { split; [apply sqrt_lt_R0; nra|apply sqrt_lt_hi; nra]. }
    nra. }
  rewrite !profile_odd_inside
    by (unfold Rabs; destruct (Rcase_abs _); lra).
  replace (kx * -1) with (- kx) by ring.
  rewrite sin_neg, Rmult_0_r, sin_0, Rmult_1_r.
  rewrite normalize_antisymmetric by (apply sin_gt_0; lra).
  reflexivity.
Qed.

Lemma Rsign_opp r : Rsign (- r) = - Rsign r.
Proof.
  unfold Rsign.
  destruct (Rltb_spec (- r) 0), (Rltb_spec r 0), (Rltb_spec 0 (- r)),
    (Rltb_spec 0 r); lra.
Qed.

(** About the axis of the slab the profile of an even mode is even and
    that of an odd mode is odd. *)
Lemma mode_profile_mirror w kx kappa p xi :
  mode_profile w kx kappa 0 p (- xi) =
  match p with
  | Even => mode_profile w kx kappa 0 p xi
  | Odd => - mode_profile w kx kappa 0 p xi
  end.
Proof.
  unfold mode_profile.
  replace (- xi - 0) with (- (xi - 0)) by ring.
  rewrite Rabs_Ropp.
  destruct p; destruct (Rleb (Rabs (xi - 0)) (w / 2)).
  - rewrite Ropp_mult_distr_r_reverse. apply cos_neg.
  - reflexivity.
  - rewrite Ropp_mult_distr_r_reverse. apply sin_neg.
  - rewrite Rsign_opp. ring.
Qed.

(** C9 fails on the code.  For w = 5, n_WG = 2, n0 = 1, wavelength 1/2,
    x0 = 0 and the grid -1, 0, 1, mode index 0 returns a field that is -1
    at x = -1 and 1 at x = 1: the mode of largest beta found is odd,
    because the even fundamental mode and the pole of the tangent next to
    it lie between two adjacent samples of the scan. *)
Lemma fundamental_mode_not_even :
  exists E,
    slab_mode_source (mkArr [3%nat] [-1; 0; 1]) 5 2 1 (1 / 2) (PyInt 0) 0
      = (Ok E, []) /\
    nth 0 (flat (mkArr [3%nat] [-1; 0; 1])) 0
      = - nth 2 (flat (mkArr [3%nat] [-1; 0; 1])) 0 /\
    nth 0 E C0 = mkC (-1) 0 /\
    nth 2 E C0 = mkC 1 0 /\
    nth 0 E C0 <> nth 2 E C0.
Proof.
  exists [mkC (-1) 0; C0; mkC 1 0]. splits.
  - exact missed_case_field.
  - simpl. lra.
  - reflexivity.
  - reflexivity.
  - simpl. intros H. injection H as H. lra.
Qed.

(** ** The field returned, as the specification writes it *)

Lemma mode_profile_value w n_WG n0 k0 x0 p beta xi :
  profile_value w n_WG n0 k0 x0 p beta xi
    (mode_profile w (sqrt (n_WG ^ 2 * k0 ^ 2 - beta ^ 2))
       (sqrt (beta ^ 2 - n0 ^ 2 * k0 ^ 2)) x0 p xi).
Proof.
  unfold profile_value, mode_profile. cbv zeta.
  set (xp := xi - x0).
  destruct p; destruct (Rleb_spec (Rabs xp) (w / 2)) as [Hin|Hout].
  - split; intros H; [reflexivity|lra].
  - split; intros H; [lra|reflexivity].
  - splits; intros; try reflexivity; lra.
  - unfold Rsign. splits; intros; try lra.
    + rewrite (Rltb_false xp 0), (Rltb_true 0 xp) by lra. ring.
    + rewrite (Rltb_true xp 0) by lra. ring.
    + rewrite (Rltb_false xp 0), (Rltb_false 0 xp) by lra. ring.
Qed.

Lemma power_raw_field x w n_WG n0 k0 x0 mode :
  power (raw_field x w n_WG n0 k0 x0 mode) x =
  trapezoid
    (map (fun v => v ^ 2)
       (map (mode_profile w (sqrt (n_WG ^ 2 * k0 ^ 2 - snd mode ^ 2))
               (sqrt (snd mode ^ 2 - n0 ^ 2 * k0 ^ 2)) x0 (fst mode)) x)) x.
Proof.
  unfold power, raw_field. cbv zeta. rewrite !map_map. f_equal.
  apply map_ext. intros xi. rewrite Cabs_sqr. simpl. ring.
Qed.

Lemma normalized_mode_field_returned x w n_WG n0 k0 x0 mode :
  normalized_mode_field x w n_WG n0 k0 x0 mode
    (normalize (raw_field x w n_WG n0 k0 x0 mode) x).
Proof.
  exists (map (mode_profile w (sqrt (n_WG ^ 2 * k0 ^ 2 - snd mode ^ 2))
                 (sqrt (snd mode ^ 2 - n0 ^ 2 * k0 ^ 2)) x0 (fst mode)) x).
  split; [apply length_map|].
  split; [unfold normalize, raw_field; rewrite !length_map; reflexivity|].
  split.
  - intros i Hi. rewrite (nth_map_in _ _ _ 0) by exact Hi.
    apply mode_profile_value.
  - cbv zeta. rewrite <- power_raw_field. intros HP. split.
    + intros i Hi. unfold normalize.
      rewrite (nth_map_in _ _ _ C0)
        by (unfold raw_field; rewrite length_map; exact Hi).
      unfold raw_field. cbv zeta.
      rewrite (nth_map_in _ _ _ 0) by exact Hi.
      rewrite (nth_map_in _ _ _ 0) by exact Hi.
      apply C_eq; simpl; unfold Rdiv; ring.
    + apply power_normalize. exact HP.
Qed.



(** The mode a call selects is one the scan found; index 0 selects one of
    largest beta. *)
Lemma chosen_mode_found w n_WG n0 wavelength ind_m mode :
  chosen_mode w n_WG n0 wavelength ind_m = Some mode ->
  In mode (modes w n_WG n0 (2 * PI / wavelength)) /\
  (int_value ind_m = 0%Z ->
   forall m, In m (modes w n_WG n0 (2 * PI / wavelength)) ->
             snd m <= snd mode).
Proof.
  unfold chosen_mode. cbv zeta. intros Hc. split.
  - apply nth_error_In in Hc. unfold modes_sorted in Hc.
    exact (proj1 (in_sorted_desc _ _) Hc).
  - intros H0 m Hm. rewrite H0 in Hc. unfold clamp_index in Hc.
    unfold modes_sorted in Hc.
    destruct (sorted_desc (modes w n_WG n0 (2 * PI / wavelength)))
      as [|h t] eqn:Hsort.
    + destruct (0 >=? Z.of_nat (length (@nil (parity * R))))%Z;
        cbn [fst] in Hc; simpl in Hc; discriminate.
    + assert (Hh : mode = h).
      { destruct (Z.geb_spec 0 (Z.of_nat (length (h :: t)))) as [Hge|Hlt];
          [simpl in Hge; lia|].
        cbn [fst] in Hc. simpl in Hc. congruence. }
      subst mode. exact (sorted_desc_head _ _ _ Hsort m Hm).
Qed.

(** C9, as the code has it.  With x0 = 0, the mode selected is one that
    the scan found, and for mode index 0 it is one of largest beta among
    those found, of whichever family.  When the integral of the squared
    profile is positive, the field returned is an even function of x on
    the grid if that mode is of the even family and an odd one if it is
    of the odd family: at grid points mirrored about 0 the values are
    equal, respectively opposite. *)
Theorem slab_mode_source_parity x w n_WG n0 wavelength ind_m E ws :
  slab_mode_source x w n_WG n0 wavelength ind_m 0 = (Ok E, ws) ->
  exists p beta,
    chosen_mode w n_WG n0 wavelength ind_m = Some (p, beta) /\
    In (p, beta) (modes w n_WG n0 (2 * PI / wavelength)) /\
    (int_value ind_m = 0%Z ->
     forall m, In m (modes w n_WG n0 (2 * PI / wavelength)) ->
               snd m <= beta) /\
    (0 < power (raw_field (flat x) w n_WG n0 (2 * PI / wavelength) 0
                  (p, beta)) (flat x) ->
     forall i j, (i < length (flat x))%nat -> (j < length (flat x))%nat ->
       nth j (flat x) 0 = - nth i (flat x) 0 ->
       nth j E C0 = match p with
                    | Even => nth i E C0
                    | Odd => Cscale (-1) (nth i E C0)
                    end).
Proof.
  intros Hs. unfold slab_mode_source in Hs.
  destruct (validate x w n_WG n0 wavelength ind_m) as [e|] eqn:Hv;
    [discriminate|].
  destruct (slab_mode_source_returns x w n_WG n0 wavelength ind_m 0 Hv)
    as ([p beta] & Hc & Hs').
  { intros Hnil. rewrite Hnil in Hs. discriminate. }
  unfold slab_mode_source in Hs'. rewrite Hv in Hs'.
  rewrite Hs' in Hs. injection Hs as <- _.
  exists p, beta. split; [exact Hc|].
  destruct (chosen_mode_found _ _ _ _ _ _ Hc) as [Hin Hmax].
  split; [exact Hin|]. split; [exact Hmax|].
  intros _ i j Hi Hj Hx.
  unfold normalize, raw_field. cbn [fst snd]. rewrite map_map.
  set (g := fun xi : R => _).
  rewrite !(nth_map_in g _ _ 0) by assumption.
  unfold g. rewrite Hx, mode_profile_mirror.
  destruct p; [reflexivity|].
  apply C_eq; simpl; unfold Rdiv; ring.
Qed.

Lemma slab_mode_source_parity_witness :
  exists E ws,
    slab_mode_source x_three_points 1 5 2 2 (PyInt 0) 0 = (Ok E, ws) /\
    exists p beta,
      chosen_mode 1 5 2 2 (PyInt 0) = Some (p, beta) /\
      In (p, beta) (modes 1 5 2 (2 * PI / 2)) /\
      (int_value (PyInt 0) = 0%Z ->
       forall m, In m (modes 1 5 2 (2 * PI / 2)) -> snd m <= beta) /\
      (0 < power (raw_field (flat x_three_points) 1 5 2 (2 * PI / 2) 0
                    (p, beta)) (flat x_three_points) ->
       forall i j,
         (i < length (flat x_three_points))%nat ->
         (j < length (flat x_three_points))%nat ->
         nth j (flat x_three_points) 0 = - nth i (flat x_three_points) 0 ->
         nth j E C0 = match p with
                      | Even => nth i E C0
                      | Odd => Cscale (-1) (nth i E C0)
                      end).
Proof.
  destruct (slab_mode_source_returns x_three_points 1 5 2 2 (PyInt 0) 0
              (validate_pole_case x_three_points 0 eq_refl (Z.le_refl 0))
              modes_pole_case_nonempty) as (mode & _ & Hs).
  eexists. eexists. split; [exact Hs|].
  exact (slab_mode_source_parity x_three_points 1 5 2 2 (PyInt 0) _ _ Hs).
Defined.

(** ** Bisection across a pole at any position *)

Section PoleDigits.

(** The bracket [(l0, l0 + W)] in units of [W / 2^50]; the pole [t] lies
    strictly between the marks [T] and [T + 1]. *)
Variables (f : R -> option R) (l0 W t : R) (T : Z).

Let mark (M : Z) : R := l0 + W * IZR M / 2 ^ 50.

Hypothesis W_pos : 0 < W.
Hypothesis pole : pole_between f l0 (l0 + W) t.
Hypothesis pole_marks : mark T < t < mark (T + 1).

Lemma mark_le a b : (a <= b)%Z -> mark a <= mark b.
Proof.
  intros H. apply IZR_le in H. unfold mark.
  assert (0 < 2 ^ 50) by (apply pow_lt; lra).
  assert (0 < W / 2 ^ 50) by (apply Rdiv_lt_0_compat; assumption).
  unfold Rdiv in *. nra.
Qed.

Lemma mark_zero : mark 0 = l0.
Proof. unfold mark. simpl. lra. Qed.

Lemma mark_full : mark (2 ^ 50) = l0 + W.
Proof.
  unfold mark. change 50%Z with (Z.of_nat 50). rewrite <- pow_IZR.
  field; apply pow_nonzero; lra.
Qed.

Lemma mark_mid a k :
  0.5 * (mark a + mark (a + 2 * k)) = mark (a + k).
Proof.
  unfold mark. rewrite !plus_IZR, mult_IZR.
  replace 0.5 with (/ 2) by lra. field; apply pow_nonzero; lra.
Qed.

Lemma before_pole M :
  (0 <= M <= T)%Z ->
  exists v, f (mark M) = Some v /\ v < 0 /\ tol_root <= Rabs v.
Proof.
  intros HM. destruct pole as [Hneg _]. apply Hneg.
  pose proof (mark_le 0 M ltac:(lia)). pose proof (mark_le M T ltac:(lia)).
  rewrite mark_zero in *. lra.
Qed.

Lemma after_pole M :
  (T + 1 <= M <= 2 ^ 50)%Z ->
  exists v, f (mark M) = Some v /\ 0 < v /\ tol_root <= Rabs v.
Proof.
  intros HM. destruct pole as [_ Hpos]. apply Hpos.
  pose proof (mark_le (T + 1) M ltac:(lia)).
  pose proof (mark_le M (2 ^ 50) ltac:(lia)).
  rewrite mark_full in *. lra.
Qed.

(** One round on an interval of marks that holds the pole. *)
Lemma refine_loop_round n a k b0 :
  (0 <= a)%Z -> (0 < k)%Z -> (a + 2 * k <= 2 ^ 50)%Z ->
  (a <= T < a + 2 * k)%Z ->
  refine_loop (S n) f (mark a) (mark (a + 2 * k)) b0 =
  if (a + k <=? T)%Z
  then refine_loop n f (mark (a + k)) (mark (a + 2 * k)) (mark (a + k))
  else refine_loop n f (mark a) (mark (a + k)) (mark (a + k)).
Proof.
  intros Ha Hk Hc HT. cbn [refine_loop]. rewrite mark_mid.
  destruct (before_pole a ltac:(lia)) as (vl & Hvl & Hln & _).
  destruct (Z.leb_spec (a + k) T) as [Hle|Hgt].
  - destruct (before_pole (a + k) ltac:(lia)) as (v & Hv & Hn & Ha').
    rewrite Hv, (Rltb_false _ _ Ha'), Hvl.
    rewrite (Rltb_true 0 (vl * v)) by nra. reflexivity.
  - destruct (after_pole (a + k) ltac:(lia)) as (v & Hv & Hp & Ha').
    rewrite Hv, (Rltb_false _ _ Ha'), Hvl.
    rewrite (Rltb_false 0 (vl * v)) by nra. reflexivity.
Qed.

(** After [n + 1] rounds on an interval of [2^(n+1)] marks that starts
    at a multiple of [2^(n+1)], the midpoint returned is the odd mark
    next to [T]. *)
Lemma refine_loop_marks n : forall a b0,
  (0 <= a)%Z -> (a + 2 ^ Z.of_nat (S n) <= 2 ^ 50)%Z ->
  (a mod 2 ^ Z.of_nat (S n) = 0)%Z ->
  (a <= T < a + 2 ^ Z.of_nat (S n))%Z ->
  refine_loop (S n) f (mark a) (mark (a + 2 ^ Z.of_nat (S n))) b0 =
  mark (2 * (T / 2) + 1).
Proof.
  induction n as [|n IH]; intros a b0 Ha Hc Hm HT.
  - change (2 ^ Z.of_nat 1)%Z with (2 * 1)%Z in *.
    rewrite refine_loop_round by lia.
    assert (E : (2 * (T / 2) + 1 = a + 1)%Z).
    { pose proof (Z.div_mod a 2 ltac:(lia)) as Hd.
      replace (2 * 1)%Z with 2%Z in Hm by lia. rewrite Hm in Hd.
      assert (HT' : (T = a \/ T = a + 1)%Z) by lia.
      destruct HT' as [->| ->].
      - lia.
      - replace (a + 1)%Z with (1 + (a / 2) * 2)%Z at 1 by lia.
        rewrite Z.div_add by lia. change (1 / 2)%Z with 0%Z. lia. }
    rewrite E. destruct (a + 1 <=? T)%Z; reflexivity.
  - assert (Hp : (2 ^ Z.of_nat (S (S n)) = 2 * 2 ^ Z.of_nat (S n))%Z).
    { rewrite (Nat2Z.inj_succ (S n)), Z.pow_succ_r by lia. reflexivity. }
    assert (Hpos : (0 < 2 ^ Z.of_nat (S n))%Z) by (apply Z.pow_pos_nonneg; lia).
    rewrite Hp in *. set (k := (2 ^ Z.of_nat (S n))%Z) in *.
    rewrite refine_loop_round by lia.
    assert (Hak : (a mod k = 0)%Z).
    { apply Z.mod_divide; [lia|]. apply Z.mod_divide in Hm; [|lia].
      destruct Hm as [q Hq]. exists (2 * q)%Z. lia. }
    destruct (Z.leb_spec (a + k) T) as [Hle|Hgt].
    + replace (a + 2 * k)%Z with ((a + k) + k)%Z by lia.
      apply IH; try lia.
      try (rewrite Z.add_mod, Hak, Z.mod_same by lia; reflexivity).
    + apply IH; try lia; try exact Hak.
Qed.

(** Fifty rounds on the whole bracket: when [T] is even the midpoint
    returned is the mark just beyond the pole. *)
Lemma refine_root_marks :
  (0 <= T < 2 ^ 50)%Z -> (T mod 2 = 0)%Z ->
  refine_root f l0 (l0 + W) = mark (T + 1) /\
  t < refine_root f l0 (l0 + W) <= l0 + W.
Proof.
  intros HT Heven.
  assert (E : refine_root f l0 (l0 + W) = mark (T + 1)).
  { unfold refine_root. rewrite <- mark_zero at 1. rewrite <- mark_full.
    change (2 ^ 50)%Z with (0 + 2 ^ Z.of_nat (S 49))%Z.
    rewrite (refine_loop_marks 49) by (try reflexivity; lia).
    f_equal. pose proof (Z.div_mod T 2 ltac:(lia)). lia. }
  rewrite E. split; [reflexivity|]. split; [apply pole_marks|].
  rewrite <- mark_full. apply mark_le. lia.
Qed.

End PoleDigits.

(** ** A slab whose scan brackets a pole that the bisection settles
       beyond *)

(** w = 5, n_WG = 2, n0 = 1, wavelength = 1/2, so that k0 = 4 pi.  The
    even characteristic has a pole where the angle 10 pi sqrt(4 - b^2) is
    11 pi / 2, at b = sqrt(1479) / 20, between samples 1844 and 1845. *)

Lemma sin_plus_4PI a : sin (a + 4 * PI) = sin a.
Proof.
  replace (a + 4 * PI) with (a + 2 * INR 2 * PI) by (simpl; ring).
  apply sin_period.
Qed.

Lemma cos_plus_4PI a : cos (a + 4 * PI) = cos a.
Proof.
  replace (a + 4 * PI) with (a + 2 * INR 2 * PI) by (simpl; ring).
  apply cos_period.
Qed.

Lemma sqrt_1479_sqr : sqrt 1479 ^ 2 = 1479.
Proof. apply pow2_sqrt. lra. Qed.

Lemma sample_1844 :
  nth 1844 (beta_scan 2 1 (4 * PI)) 0 = 4 * PI * (1 + 1844 / 1999).
Proof.
  rewrite sample_missed_case by (unfold N_scan; lia).
  rewrite (INR_literal 1844 1844) by (vm_compute; reflexivity). reflexivity.
Qed.

Lemma sample_1845 :
  nth 1845 (beta_scan 2 1 (4 * PI)) 0 = 4 * PI * (1 + 1845 / 1999).
Proof.
  rewrite sample_missed_case by (unfold N_scan; lia).
  rewrite (INR_literal 1845 1845) by (vm_compute; reflexivity). reflexivity.
Qed.

(** Below the pole in beta the angle is just above 11 pi / 2, where the
    tangent is negative. *)
Lemma f_even_before_pole_1844 b :
  1 + 1844 / 1999 <= b < sqrt 1479 / 20 ->
  exists v, f_even 5 2 1 (4 * PI) (4 * PI * b) = Some v /\
            v < 0 /\ tol_root <= Rabs v.
Proof.
  intros Hb. pose proof PI_RGT_0 as Hpi. pose proof PI_4 as Hpi4.
  pose proof PI2_3_2 as Hpi3. pose proof sqrt_1479_sqr as Hq.
  assert (Hq0 : 0 <= sqrt 1479) by apply sqrt_pos.
  assert (Hb2 : b ^ 2 < 1479 / 400) by nra.
  rewrite f_even_missed_case by nra. rewrite angle_eq.
  set (s := sqrt (4 - b ^ 2)). set (c := sqrt (b ^ 2 - 1)).
  assert (Hs : 11 / 20 < s <= 552 / 1000).
  { split; [apply sqrt_gt_lo; nra|apply (sqrt_between _ 0 (552 / 1000)); nra]. }
  assert (Hc : 16 / 10 <= c) by (apply (sqrt_between _ (16 / 10) 2); nra).
  set (eps := 10 * PI * s - 11 * (PI / 2)).
  assert (Heps : 0 < eps <= 8 / 100) by (unfold eps; nra).
  assert (Hth : 10 * PI * s = 3 * (PI / 2) + eps + 4 * PI)
    by (unfold eps; field).
  assert (Hsin : sin (10 * PI * s) = - cos eps).
  { rewrite Hth, sin_plus_4PI, sin_plus, sin_3PI2, cos_3PI2. ring. }
  assert (Hcos : cos (10 * PI * s) = sin eps).
  { rewrite Hth, cos_plus_4PI, cos_plus, sin_3PI2, cos_3PI2. ring. }
  assert (Hse : 0 < sin eps) by (apply sin_gt_0; lra).
  assert (Hce : 0 < cos eps) by (apply cos_gt_0; lra).
  assert (Htan : tan (10 * PI * s) < 0).
  { unfold tan, Rdiv. rewrite Hsin, Hcos.
    assert (0 < / sin eps) by (apply Rinv_0_lt_compat; lra). nra. }
  eexists. split; [reflexivity|].
  assert (Hks : 0 < 4 * PI * s) by nra.
  assert (Hkt : 4 * PI * s * tan (10 * PI * s) < 0) by nra.
  assert (Hkc : 19 <= 4 * PI * c) by nra.
  split; [lra|]. rewrite Rabs_left by lra.
  pose proof tol_root_bounds. lra.
Qed.

(** Above the pole in beta the angle is just below 11 pi / 2, where the
    tangent is large and positive. *)
Lemma f_even_after_pole_1844 b :
  sqrt 1479 / 20 < b <= 1 + 1845 / 1999 ->
  exists v, f_even 5 2 1 (4 * PI) (4 * PI * b) = Some v /\
            0 < v /\ tol_root <= Rabs v /\ 1 <= v.
Proof.
  intros Hb. pose proof PI_RGT_0 as Hpi. pose proof PI_4 as Hpi4.
  pose proof PI2_3_2 as Hpi3. pose proof sqrt_1479_sqr as Hq.
  assert (Hq0 : 38 <= sqrt 1479) by (apply (sqrt_between _ 38 39); lra).
  assert (Hb2 : 1479 / 400 < b ^ 2) by nra.
  rewrite f_even_missed_case by nra. rewrite angle_eq.
  set (s := sqrt (4 - b ^ 2)). set (c := sqrt (b ^ 2 - 1)).
  assert (Hs : 5497 / 10000 <= s < 11 / 20).
  { split; [apply (sqrt_between _ (5497 / 10000) 1); nra
           |apply sqrt_lt_hi; nra]. }
  assert (Hc : 0 <= c <= 2) by (apply (sqrt_between _ 0 2); nra).
  set (eps := 11 * (PI / 2) - 10 * PI * s).
  assert (Heps : 0 < eps <= 12 / 1000) by (unfold eps; nra).
  assert (Hth : 10 * PI * s = 3 * (PI / 2) - eps + 4 * PI)
    by (unfold eps; field).
  assert (Hsin : sin (10 * PI * s) = - cos eps).
  { rewrite Hth, sin_plus_4PI, sin_minus, sin_3PI2, cos_3PI2. ring. }
  assert (Hcos : cos (10 * PI * s) = - sin eps).
  { rewrite Hth, cos_plus_4PI, cos_minus, sin_3PI2, cos_3PI2. ring. }
  assert (Hse : 0 < sin eps < 12 / 1000).
  { split; [apply sin_gt_0; lra|]. pose proof (sin_lt_x eps ltac:(lra)). lra. }
  assert (Hce : 1 / 2 <= cos eps) by (apply cos_ge_half; lra).
  assert (Hinv : 83 <= / sin eps).
  { apply Rle_trans with (/ (12 / 1000)); [lra|].
    apply Rinv_le_contravar; lra. }
  assert (Htan : 41 <= tan (10 * PI * s)).
  { unfold tan. rewrite Hsin, Hcos.
    replace (- cos eps / - sin eps) with (cos eps * / sin eps)
      by (field; lra).
    nra. }
  eexists. split; [reflexivity|].
  assert (Hks : 6 <= 4 * PI * s) by nra.
  assert (Hkt : 246 <= 4 * PI * s * tan (10 * PI * s)) by nra.
  assert (Hkc : 4 * PI * c <= 32) by nra.
  assert (Hv : 1 <= 4 * PI * s * tan (10 * PI * s) - 4 * PI * c) by lra.
  split; [lra|]. split; [|exact Hv]. rewrite Rabs_right by lra.
  pose proof tol_root_bounds. lra.
Qed.

Lemma pole_between_1844 :
  pole_between (f_even 5 2 1 (4 * PI))
    (4 * PI * (1 + 1844 / 1999)) (4 * PI * (1 + 1844 / 1999) + 4 * PI / 1999)
    (4 * PI * (sqrt 1479 / 20)).
Proof.
  pose proof PI_RGT_0 as Hpi. split; intros beta Hb.
  - rewrite (over_k0 beta). apply f_even_before_pole_1844.
    assert (H : 4 * PI * (1 + 1844 / 1999) <= 4 * PI * (beta / (4 * PI))
                < 4 * PI * (sqrt 1479 / 20))
      by (rewrite <- over_k0; lra).
    split; apply (Rmult_le_reg_l (4 * PI)) || apply (Rmult_lt_reg_l (4 * PI));
      lra.
  - rewrite (over_k0 beta).
    destruct (f_even_after_pole_1844 (beta / (4 * PI))) as (v & H1 & H2 & H3 & _).
    + assert (H : 4 * PI * (sqrt 1479 / 20) < 4 * PI * (beta / (4 * PI))
                  <= 4 * PI * (1 + 1845 / 1999))
        by (rewrite <- over_k0; lra).
      split; apply (Rmult_le_reg_l (4 * PI)) || apply (Rmult_lt_reg_l (4 * PI));
        lra.
    + exists v. auto.
Qed.

Lemma two_pow_50 : 2 ^ 50 = 1125899906842624.
Proof.
  change 2 with (IZR 2). rewrite pow_IZR. apply f_equal.
  vm_compute. reflexivity.
Qed.

(** The pole lies strictly between two adjacent marks of the bracket of
    samples 1844 and 1845 divided into 2^50 parts. *)
Lemma pole_marks_1844 :
  4 * PI * (1 + 1844 / 1999) + 4 * PI / 1999 * IZR pole_mark_1844 / 2 ^ 50
  < 4 * PI * (sqrt 1479 / 20)
  < 4 * PI * (1 + 1844 / 1999)
    + 4 * PI / 1999 * IZR (pole_mark_1844 + 1) / 2 ^ 50.
Proof.
  pose proof PI_RGT_0 as Hpi. rewrite two_pow_50. unfold pole_mark_1844.
  change (961536707756872 + 1)%Z with 961536707756873%Z.
  set (lo := 1 + 1844 / 1999 + 961536707756872 / (1999 * 1125899906842624)).
  set (hi := 1 + 1844 / 1999 + 961536707756873 / (1999 * 1125899906842624)).
  assert (Hlo : 20 * lo < sqrt 1479).
  { apply sqrt_gt_lo; unfold lo; lra. }
  assert (Hhi : sqrt 1479 < 20 * hi).
  { apply sqrt_lt_hi; unfold hi; lra. }
  replace (4 * PI * (1 + 1844 / 1999)
           + 4 * PI / 1999 * 961536707756872 / 1125899906842624)
    with (4 * PI * lo) by (unfold lo; field).
  replace (4 * PI * (1 + 1844 / 1999)
           + 4 * PI / 1999 * 961536707756873 / 1125899906842624)
    with (4 * PI * hi) by (unfold hi; field).
  split; apply Rmult_lt_compat_l; lra.
Qed.

Lemma valid_even_after_pole_1844 b :
  sqrt 1479 / 20 < b <= 1 + 1845 / 1999 ->
  valid_even 5 2 (4 * PI) (4 * PI * b) = true.
Proof.
  intros Hb. pose proof PI_RGT_0 as Hpi. pose proof sqrt_1479_sqr as Hq.
  assert (Hq0 : 38 <= sqrt 1479) by (apply (sqrt_between _ 38 39); lra).
  assert (Hb2 : 1479 / 400 < b ^ 2) by nra.
  unfold valid_even, branch_index.
  assert (H1 : 0 < (4 * PI) ^ 2 * (4 - b ^ 2))
    by (apply Rmult_lt_0_compat; nra).
  rewrite (Rleb_false (2 ^ 2 * (4 * PI) ^ 2 - (4 * PI * b) ^ 2) 0) by nra.
  rewrite kx_missed_case by nra.
  set (s := sqrt (4 - b ^ 2)).
  assert (Hs : 5497 / 10000 <= s < 11 / 20).
  { split; [apply (sqrt_between _ (5497 / 10000) 1); nra
           |apply sqrt_lt_hi; nra]. }
  replace (2 * (4 * PI * s * 5 / 2) / PI) with (20 * s) by (field; lra).
  rewrite (Zfloor_eq 10 (20 * s)) by (simpl; lra).
  reflexivity.
Qed.

(** The refinement of the bracket of samples 1844 and 1845 returns the
    mark just beyond the pole, which [valid_even] accepts (branch index
    10) and where the even characteristic has a value of at least 1. *)
Lemma spurious_mode_1844 :
  let l := nth 1844 (beta_scan 2 1 (4 * PI)) 0 in
  let r := nth 1845 (beta_scan 2 1 (4 * PI)) 0 in
  let beta := refine_root (f_even 5 2 1 (4 * PI)) l r in
  In (Even, beta) (modes_sorted 5 2 1 (4 * PI)) /\
  4 * PI * (sqrt 1479 / 20) < beta <= r /\
  exists v, f_even 5 2 1 (4 * PI) beta = Some v /\ 1 <= v.
Proof.
  intros l r beta. pose proof PI_RGT_0 as Hpi.
  assert (Er : r = 4 * PI * (1 + 1844 / 1999) + 4 * PI / 1999).
  { unfold r. rewrite sample_1845. field. }
  assert (Hr : 4 * PI * (sqrt 1479 / 20) < beta <= r).
  { unfold beta, l. rewrite sample_1844, Er.
    apply (refine_root_marks (f_even 5 2 1 (4 * PI)) _ _ _ pole_mark_1844).
    - lra.
    - exact pole_between_1844.
    - exact pole_marks_1844.
    - unfold pole_mark_1844. lia.
    - reflexivity. }
  assert (Hb : sqrt 1479 / 20 < beta / (4 * PI) <= 1 + 1845 / 1999).
  { unfold r in Hr. rewrite sample_1845 in Hr.
    assert (H : 4 * PI * (sqrt 1479 / 20) < 4 * PI * (beta / (4 * PI))
                <= 4 * PI * (1 + 1845 / 1999))
      by (rewrite <- over_k0; lra).
    split; [apply (Rmult_lt_reg_l (4 * PI))|apply (Rmult_le_reg_l (4 * PI))];
      lra. }
  split; [|split; [exact Hr|]].
  - unfold modes_sorted. apply in_sorted_desc. apply in_modes.
    unfold even_roots. apply in_roots. split.
    + rewrite (over_k0 beta). apply valid_even_after_pole_1844. exact Hb.
    + exists 1844%nat. split; [unfold N_scan; lia|]. split; [|reflexivity].
      change (1844 + 1)%nat with 1845%nat.
      rewrite sample_1844, sample_1845.
      destruct (f_even_before_pole_1844 (1 + 1844 / 1999))
        as (u & Hu & Hun & _).
      { split; [lra|]. pose proof pole_marks_1844 as [Hm _].
        assert (0 <= 4 * PI / 1999 * IZR pole_mark_1844 / 2 ^ 50).
        { rewrite two_pow_50. unfold pole_mark_1844.
          apply Rmult_le_pos; [apply Rmult_le_pos|]; lra. }
        apply (Rmult_lt_reg_l (4 * PI)); lra. }
      destruct (f_even_after_pole_1844 (1 + 1845 / 1999))
        as (v & Hv & Hvp & _).
      { split; [|lra]. lra. }
      rewrite Hu, Hv. simpl. apply Rltb_true. nra.
  - rewrite (over_k0 beta).
    destruct (f_even_after_pole_1844 (beta / (4 * PI)) Hb)
      as (v & H1 & _ & _ & H4).
    exists v. split; assumption.
Qed.



(** * Further properties of the code *)

(** ** The characteristic functions and the filters *)

Lemma f_even_value w n_WG n0 k0 beta :
  0 <= n0 * k0 -> n0 * k0 < beta < n_WG * k0 ->
  f_even w n_WG n0 k0 beta =
  Some (sqrt (n_WG ^ 2 * k0 ^ 2 - beta ^ 2)
        * tan (sqrt (n_WG ^ 2 * k0 ^ 2 - beta ^ 2) * w / 2)
        - sqrt (beta ^ 2 - n0 ^ 2 * k0 ^ 2)).
Proof.
  intros H0 Hb. unfold f_even.
  rewrite (Rltb_false beta (n0 * k0)) by lra.
  rewrite (Rltb_false (n_WG * k0) beta) by lra. cbn [orb].
  rewrite (Rleb_false (n_WG ^ 2 * k0 ^ 2 - beta ^ 2) 0) by nra.
  rewrite (Rleb_false (beta ^ 2 - n0 ^ 2 * k0 ^ 2) 0) by nra.
  reflexivity.
Qed.

(** X1.  With n0 k0 >= 0, the even characteristic function has a value
    exactly for n0 k0 < beta < n_WG k0, and the odd one exactly where,
    in addition, the sine of kx w / 2 is at least 1e-12 in magnitude: at
    both ends of the scanned band neither has a value. *)
Theorem characteristic_domain w n_WG n0 k0 beta :
  0 <= n0 * k0 ->
  ((exists v, f_even w n_WG n0 k0 beta = Some v) <->
   n0 * k0 < beta < n_WG * k0) /\
  ((exists v, f_odd w n_WG n0 k0 beta = Some v) <->
   n0 * k0 < beta < n_WG * k0 /\
   tol_sin <= Rabs (sin (sqrt (n_WG ^ 2 * k0 ^ 2 - beta ^ 2) * w / 2))).
Proof.
  intros H0. split; split.
  - intros [v Hv]. exact (f_even_defined_range _ _ _ _ _ _ Hv).
  - intros Hb. eexists. apply f_even_value; assumption.
  - intros [v Hv]. split; [exact (f_odd_defined_range _ _ _ _ _ _ Hv)|].
    revert Hv. unfold f_odd.
    destruct (Rltb beta (n0 * k0) || Rltb (n_WG * k0) beta); [discriminate|].
    destruct (Rleb (n_WG ^ 2 * k0 ^ 2 - beta ^ 2) 0
              || Rleb (beta ^ 2 - n0 ^ 2 * k0 ^ 2) 0); [discriminate|].
    destruct (Rltb_spec
                (Rabs (sin (sqrt (n_WG ^ 2 * k0 ^ 2 - beta ^ 2) * w / 2)))
                tol_sin); [discriminate|]. intros _. lra.
  - intros [Hb Hs]. unfold f_odd.
    rewrite (Rltb_false beta (n0 * k0)) by lra.
    rewrite (Rltb_false (n_WG * k0) beta) by lra. cbn [orb].
    rewrite (Rleb_false (n_WG ^ 2 * k0 ^ 2 - beta ^ 2) 0) by nra.
    rewrite (Rleb_false (beta ^ 2 - n0 ^ 2 * k0 ^ 2) 0) by nra. cbn [orb].
    rewrite (Rltb_false _ _ Hs). eexists. reflexivity.
Qed.

Lemma characteristic_domain_witness :
  ((exists v, f_even 1 5 2 1 3 = Some v) <-> 2 * 1 < 3 < 5 * 1) /\
  ((exists v, f_odd 1 5 2 1 3 = Some v) <->
   2 * 1 < 3 < 5 * 1 /\
   tol_sin <= Rabs (sin (sqrt (5 ^ 2 * 1 ^ 2 - 3 ^ 2) * 1 / 2))).
Proof. apply (characteristic_domain 1 5 2 1 3). lra. Defined.


(** ** Bisection keeps the change of sign *)

Lemma tol_root_pos : 0 < tol_root.
Proof. apply tol_root_bounds. Qed.

Lemma refine_loop_sign f L R0 n : forall l r b0,
  (forall b, L <= b <= R0 -> exists v, f b = Some v) ->
  L <= l -> l < r -> r <= R0 -> opposite_signs f l r ->
  let b := refine_loop (S n) f l r b0 in
  (exists v, f b = Some v /\ Rabs v < tol_root) \/
  (exists l' r', l <= l' /\ l' < r' /\ r' <= r /\
     r' - l' = (r - l) / 2 ^ n /\ b = 0.5 * (l' + r') /\
     opposite_signs f l' r').
Proof.
  induction n as [|n IH]; intros l r b0 Htot Hl Hlr Hr Hop b; subst b.
  - cbn [refine_loop].
    destruct (Htot (0.5 * (l + r)) ltac:(lra)) as [vm Hm]. rewrite Hm.
    destruct (Rltb_spec (Rabs vm) tol_root) as [Hsmall|Hbig].
    + left. exists vm. split; assumption.
    + right. exists l, r.
      destruct (f l) as [vl|]; [destruct (Rltb 0 (vl * vm))|];
        (splits; first [lra | simpl; lra | reflexivity | exact Hop]).
  - remember (S n) as n1 eqn:En. cbn [refine_loop]. subst n1.
    set (mid := 0.5 * (l + r)).
    assert (Hmid : l < mid < r) by (unfold mid; lra).
    destruct (Htot mid ltac:(lra)) as [vm Hm]. rewrite Hm.
    destruct (Rltb_spec (Rabs vm) tol_root) as [Hsmall|Hbig].
    { left. exists vm. split; assumption. }
    assert (Hvm : vm <> 0).
    { intros ->. rewrite Rabs_R0 in Hbig. pose proof tol_root_pos. lra. }
    destruct Hop as (u & v & Hu & Hv & Huv). rewrite Hu.
    assert (Hpow : 0 < 2 ^ n) by (apply pow_lt; lra).
    destruct (Rltb_spec 0 (u * vm)) as [Hsame|Hdiff].
    + destruct (IH mid r mid Htot ltac:(lra) ltac:(lra) Hr) as [H|H].
      * exists vm, v. splits; try assumption. nra.
      * left; exact H.
      * right. destruct H as (l' & r' & H1 & H2 & H3 & H4 & H5 & H6).
        exists l', r'. splits; try lra; try assumption.
        rewrite H4. unfold mid. simpl. replace 0.5 with (/ 2) by lra.
        field. lra.
    + destruct (IH l mid mid Htot Hl ltac:(lra) ltac:(lra)) as [H|H].
      * exists u, vm. splits; try assumption.
        assert (u <> 0) by (intros ->; lra). nra.
      * left; exact H.
      * right. destruct H as (l' & r' & H1 & H2 & H3 & H4 & H5 & H6).
        exists l', r'. splits; try lra; try assumption.
        rewrite H4. unfold mid. simpl. replace 0.5 with (/ 2) by lra.
        field. lra.
Qed.

(** X2.  On a bracket over which the function has a value everywhere and
    values of opposite sign at the two ends, [refine_root] returns either
    a point where the value is below 1e-9 in magnitude or the midpoint of
    an interval inside the bracket, 2^49 times narrower, whose ends still
    carry values of opposite sign. *)
Theorem refine_root_keeps_sign_change f l r :
  l < r ->
  (forall b, l <= b <= r -> exists v, f b = Some v) ->
  opposite_signs f l r ->
  let b := refine_root f l r in
  (exists v, f b = Some v /\ Rabs v < tol_root) \/
  (exists l' r', l <= l' /\ l' < r' /\ r' <= r /\
     r' - l' = (r - l) / 2 ^ 49 /\ b = 0.5 * (l' + r') /\
     opposite_signs f l' r').
Proof.
  intros Hlr Htot Hop. unfold refine_root.
  apply (refine_loop_sign f l r 49 l r l); try assumption; lra.
Qed.

Lemma refine_root_keeps_sign_change_witness :
  let f := fun b : R => Some b in
  let b := refine_root f (-1) 2 in
  (exists v, f b = Some v /\ Rabs v < tol_root) \/
  (exists l' r', -1 <= l' /\ l' < r' /\ r' <= 2 /\
     r' - l' = (2 - -1) / 2 ^ 49 /\ b = 0.5 * (l' + r') /\
     opposite_signs f l' r').
Proof.
  apply (refine_root_keeps_sign_change (fun b : R => Some b) (-1) 2).
  - lra.
  - intros b _. exists b. reflexivity.
  - exists (-1), 2. splits; [reflexivity|reflexivity|lra].
Defined.

(** ** The order of the modes *)

Lemma insert_desc_sorted a l :
  StronglySorted (fun m1 m2 : parity * R => snd m2 <= snd m1) l ->
  StronglySorted (fun m1 m2 : parity * R => snd m2 <= snd m1)
    (insert_desc a l).
Proof.
  induction 1 as [|h t Hs IH Hall]; simpl.
  - constructor; constructor.
  - destruct (Rltb_spec (snd a) (snd h)) as [Hlt|Hge].
    + constructor; [exact IH|].
      apply Forall_forall. intros m Hm. apply in_insert_desc in Hm.
      destruct Hm as [->|Hm]; [lra|].
      exact (proj1 (Forall_forall _ _) Hall m Hm).
    + constructor; [constructor; assumption|].
      constructor; [lra|].
      apply Forall_forall. intros m Hm.
      pose proof (proj1 (Forall_forall _ _) Hall m Hm). simpl in *. lra.
Qed.

Lemma sorted_desc_sorted l :
  StronglySorted (fun m1 m2 : parity * R => snd m2 <= snd m1) (sorted_desc l).
Proof.
  induction l as [|a l IH]; simpl; [constructor|].
  apply insert_desc_sorted. exact IH.
Qed.

Lemma strongly_sorted_nth {A} (Rel : A -> A -> Prop) l :
  StronglySorted Rel l ->
  forall i j a b, (i < j)%nat ->
    nth_error l i = Some a -> nth_error l j = Some b -> Rel a b.
Proof.
  induction 1 as [|h t Hs IH Hall]; intros i j a b Hij Ha Hb.
  - destruct i; discriminate.
  - destruct j as [|j]; [lia|]. simpl in Hb. destruct i as [|i].
    + simpl in Ha. injection Ha as <-.
      exact (proj1 (Forall_forall _ _) Hall b (nth_error_In _ _ Hb)).
    + simpl in Ha. apply (IH i j); [lia|assumption|assumption].
Qed.

(** X3.  The sorted list holds exactly the modes found, as many as were
    found, by decreasing beta: a smaller mode index never has a smaller
    beta. *)
Theorem modes_sorted_descending w n_WG n0 k0 :
  length (modes_sorted w n_WG n0 k0) = length (modes w n_WG n0 k0) /\
  (forall m, In m (modes_sorted w n_WG n0 k0) <-> In m (modes w n_WG n0 k0)) /\
  forall i j mi mj, (i <= j)%nat ->
    nth_error (modes_sorted w n_WG n0 k0) i = Some mi ->
    nth_error (modes_sorted w n_WG n0 k0) j = Some mj ->
    snd mj <= snd mi.
Proof.
  unfold modes_sorted. split; [apply sorted_desc_length|].
  split; [intros m; apply in_sorted_desc|].
  intros i j mi mj Hij Hi Hj.
  destruct (Nat.eq_dec i j) as [->|Hne].
  - rewrite Hi in Hj. injection Hj as <-. lra.
  - exact (strongly_sorted_nth _ _ (sorted_desc_sorted _) i j mi mj
             ltac:(lia) Hi Hj).
Qed.

(** ** The field returned *)

Lemma slab_mode_source_ok_inv x w n_WG n0 wavelength ind_m x0 E ws :
  slab_mode_source x w n_WG n0 wavelength ind_m x0 = (Ok E, ws) ->
  validate x w n_WG n0 wavelength ind_m = None /\
  exists mode,
    chosen_mode w n_WG n0 wavelength ind_m = Some mode /\
    E = normalize
          (raw_field (flat x) w n_WG n0 (2 * PI / wavelength) x0 mode)
          (flat x).
Proof.
  intros Hs. pose proof Hs as Hs0. unfold slab_mode_source in Hs.
  destruct (validate x w n_WG n0 wavelength ind_m) as [e|] eqn:Hv;
    [discriminate|]. split; [reflexivity|].
  destruct (slab_mode_source_returns x w n_WG n0 wavelength ind_m x0 Hv)
    as (mode & Hc & Hs').
  { intros Hnil. rewrite Hnil in Hs. discriminate. }
  exists mode. split; [exact Hc|].
  rewrite Hs' in Hs0. injection Hs0 as <- _. reflexivity.
Qed.

(** X4.  The field returned has one entry per grid point, and when the
    trapezoidal integral of the squared profile of the mode selected is
    positive, every entry has imaginary part zero. *)
Theorem slab_mode_source_real_field
    x w n_WG n0 wavelength ind_m x0 E ws mode :
  slab_mode_source x w n_WG n0 wavelength ind_m x0 = (Ok E, ws) ->
  chosen_mode w n_WG n0 wavelength ind_m = Some mode ->
  length E = length (flat x) /\
  (0 < power (raw_field (flat x) w n_WG n0 (2 * PI / wavelength) x0 mode)
         (flat x) ->
   Forall (fun e => Im e = 0) E).
Proof.
  intros Hs Hc.
  destruct (slab_mode_source_ok_inv _ _ _ _ _ _ _ _ _ Hs)
    as (_ & mode' & Hc' & ->).
  rewrite Hc in Hc'. injection Hc' as <-.
  unfold normalize, raw_field. rewrite map_map. split.
  - apply length_map.
  - intros _. apply Forall_forall. intros e He. apply in_map_iff in He.
    destruct He as (xi & <- & _). simpl. unfold Rdiv. ring.
Qed.

Lemma slab_mode_source_real_field_witness :
  exists E ws mode,
    slab_mode_source x_three_points 1 5 2 2 (PyInt 0) 0 = (Ok E, ws) /\
    chosen_mode 1 5 2 2 (PyInt 0) = Some mode /\
    length E = length (flat x_three_points) /\
    (0 < power (raw_field (flat x_three_points) 1 5 2 (2 * PI / 2) 0 mode)
           (flat x_three_points) ->
     Forall (fun e => Im e = 0) E).
Proof.
  destruct (slab_mode_source_returns x_three_points 1 5 2 2 (PyInt 0) 0
              (validate_pole_case x_three_points 0 eq_refl (Z.le_refl 0))
              modes_pole_case_nonempty) as (mode & Hc & Hs).
  eexists. eexists. exists mode. split; [exact Hs|]. split; [exact Hc|].
  exact (slab_mode_source_real_field x_three_points 1 5 2 2 (PyInt 0) 0
           _ _ mode Hs Hc).
Defined.

Lemma trapezoid_shift c : forall y x,
  trapezoid y (map (fun t => t + c) x) = trapezoid y x.
Proof.
  induction y as [|y0 y IH]; intros x; [reflexivity|].
  destruct y as [|y1 y]; [reflexivity|].
  destruct x as [|x0 [|x1 x]]; try reflexivity.
  specialize (IH (x1 :: x)).
  change (trapezoid (y0 :: y1 :: y) (map (fun t => t + c) (x0 :: x1 :: x)))
    with ((x1 + c - (x0 + c)) * (y1 + y0) / 2
          + trapezoid (y1 :: y) (map (fun t => t + c) (x1 :: x))).
  rewrite IH.
  change (trapezoid (y0 :: y1 :: y) (x0 :: x1 :: x))
    with ((x1 - x0) * (y1 + y0) / 2 + trapezoid (y1 :: y) (x1 :: x)).
  field.
Qed.

(** X5.  Shifting the grid and the slab together changes nothing: the
    call on the grid x + c with lateral shift c gives what the call on
    the grid x with no shift gives, warnings and errors included. *)
Theorem slab_mode_source_shift sh xs w n_WG n0 wavelength ind_m c :
  slab_mode_source (mkArr sh (map (fun t => t + c) xs))
    w n_WG n0 wavelength ind_m c =
  slab_mode_source (mkArr sh xs) w n_WG n0 wavelength ind_m 0.
Proof.
  unfold slab_mode_source.
  change (validate (mkArr sh (map (fun t => t + c) xs)) w n_WG n0 wavelength
            ind_m)
    with (validate (mkArr sh xs) w n_WG n0 wavelength ind_m).
  destruct (validate (mkArr sh xs) w n_WG n0 wavelength ind_m);
    [reflexivity|].
  destruct (modes_sorted w n_WG n0 (2 * PI / wavelength)) as [|m rest];
    [reflexivity|].
  destruct (clamp_index _ _) as [ind ws].
  destruct (nth_error (m :: rest) ind) as [mode|]; [|reflexivity].
  cbn [flat].
  assert (Hraw :
    raw_field (map (fun t => t + c) xs) w n_WG n0 (2 * PI / wavelength) c mode
    = raw_field xs w n_WG n0 (2 * PI / wavelength) 0 mode).
  { unfold raw_field. rewrite map_map. apply map_ext. intros t.
    unfold mode_profile. replace (t + c - c) with (t - 0) by ring.
    reflexivity. }
  rewrite Hraw. unfold normalize, power. rewrite trapezoid_shift.
  reflexivity.
Qed.

(** X6.  With valid arguments and a mode index below the number of modes
    found, no warning is emitted; the mode used is the one at that index
    of the list of the modes found, ordered by decreasing beta: no mode
    before it has a smaller beta and no mode after it a larger one.  The
    field returned is the normalised field of that mode: one entry per
    grid point, the cosine or sine profile of the mode with its
    exponential tails, divided by the square root of its trapezoidal
    integral, and of integral 1, whenever that integral is positive. *)
Theorem slab_mode_source_index_in_range x w n_WG n0 wavelength ind_m x0 :
  validate x w n_WG n0 wavelength ind_m = None ->
  let sorted := modes_sorted w n_WG n0 (2 * PI / wavelength) in
  let ind := Z.to_nat (int_value ind_m) in
  (int_value ind_m < Z.of_nat (length sorted))%Z ->
  exists mode E,
    nth_error sorted ind = Some mode /\
    In mode (modes w n_WG n0 (2 * PI / wavelength)) /\
    (forall j m, nth_error sorted j = Some m ->
       ((j <= ind)%nat -> snd mode <= snd m) /\
       ((ind <= j)%nat -> snd m <= snd mode)) /\
    slab_mode_source x w n_WG n0 wavelength ind_m x0 = (Ok E, []) /\
    normalized_mode_field (flat x) w n_WG n0 (2 * PI / wavelength) x0 mode E.
Proof.
  intros Hv sorted ind Hlt.
  assert (Hne : sorted <> []).
  { intros E. rewrite E in Hlt. simpl in Hlt.
    apply validate_passes in Hv. lia. }
  destruct (slab_mode_source_returns x w n_WG n0 wavelength ind_m x0 Hv Hne)
    as (mode & Hc & Hs).
  exists mode. eexists. unfold chosen_mode, clamp_index in Hc.
  unfold clamp_index in Hs. fold sorted in Hc, Hs.
  destruct (Z.geb_spec (int_value ind_m) (Z.of_nat (length sorted)));
    [lia|].
  cbn [fst snd] in Hc, Hs. fold ind in Hc.
  split; [exact Hc|]. split.
  { apply nth_error_In in Hc. unfold sorted, modes_sorted in Hc.
    exact (proj1 (in_sorted_desc _ _) Hc). }
  split.
  { intros j m Hj.
    pose proof (sorted_desc_sorted (modes w n_WG n0 (2 * PI / wavelength)))
      as Hsorted.
    fold (modes_sorted w n_WG n0 (2 * PI / wavelength)) in Hsorted.
    fold sorted in Hsorted.
    split; intros Hij.
    - destruct (Nat.eq_dec j ind) as [->|Hne'].
      + rewrite Hc in Hj. injection Hj as <-. lra.
      + exact (strongly_sorted_nth _ _ Hsorted j ind m mode
                 ltac:(lia) Hj Hc).
    - destruct (Nat.eq_dec j ind) as [->|Hne'].
      + rewrite Hc in Hj. injection Hj as <-. lra.
      + exact (strongly_sorted_nth _ _ Hsorted ind j mode m
                 ltac:(lia) Hc Hj). }
  split; [exact Hs|]. apply normalized_mode_field_returned.
Qed.

Lemma slab_mode_source_index_in_range_witness :
  exists mode E,
    nth_error (modes_sorted 5 2 1 (2 * PI / (1 / 2)))
      (Z.to_nat (int_value (PyInt 0))) = Some mode /\
    In mode (modes 5 2 1 (2 * PI / (1 / 2))) /\
    (forall j m,
       nth_error (modes_sorted 5 2 1 (2 * PI / (1 / 2))) j = Some m ->
       ((j <= Z.to_nat (int_value (PyInt 0)))%nat -> snd mode <= snd m) /\
       ((Z.to_nat (int_value (PyInt 0)) <= j)%nat -> snd m <= snd mode)) /\
    slab_mode_source x_three_points 5 2 1 (1 / 2) (PyInt 0) 0 = (Ok E, []) /\
    normalized_mode_field (flat x_three_points) 5 2 1 (2 * PI / (1 / 2)) 0
      mode E.
Proof.
  apply (slab_mode_source_index_in_range x_three_points 5 2 1 (1 / 2)
           (PyInt 0) 0).
  - apply validate_passes. unfold other_arguments_valid. simpl.
    splits; try lra; auto. lia.
  - destruct first_mode_odd as (beta & rest & Hsorted & _).
    rewrite four_pi, Hsorted. simpl. lia.
Defined.

(** ** The march as an iteration from the launch column *)

Lemma column_at_step dx dz n0 sigma_x k0 k : forall E0 n_cols E_prev n_prev,
  column_at dx dz n0 sigma_x k0 k E0 n_cols = Some E_prev ->
  nth_error n_cols k = Some n_prev ->
  column_at dx dz n0 sigma_x k0 (S k) E0 n_cols =
  Some (rk4_value E_prev n_prev dx dz n0 sigma_x k0).
Proof.
  induction k as [|k IH]; intros E0 n_cols E_prev n_prev Hc Hn.
  - simpl in Hc. injection Hc as <-.
    destruct n_cols as [|n rest]; [discriminate|].
    simpl in Hn. injection Hn as <-. reflexivity.
  - destruct n_cols as [|n rest]; [discriminate|].
    simpl in Hn. change (column_at dx dz n0 sigma_x k0 (S (S k)) E0 (n :: rest))
      with (column_at dx dz n0 sigma_x k0 (S k)
              (rk4_value E0 n dx dz n0 sigma_x k0) rest).
    apply IH; assumption.
Qed.

(** With conforming shapes, column [zi] of the array left by [run_bpm]
    is the step's value on column [zi - 1]. *)
Lemma run_bpm_column_step Nx E n_r2 x z dx dz n0 sigma_x wavelength zi :
  conforming Nx (length z) E n_r2 sigma_x ->
  wavelength <> 0 -> n0 <> 0 ->
  (1 <= zi < length z)%nat ->
  let st := fst (run_bpm E n_r2 x z dx dz n0 sigma_x wavelength) in
  exists E_prev n_prev,
    nth_error (field st) (zi - 1) = Some E_prev /\
    nth_error n_r2 (zi - 1) = Some n_prev /\
    length E_prev = Nx /\ length n_prev = Nx /\
    nth_error (field st) zi =
    Some (rk4_value E_prev n_prev dx dz n0 sigma_x (2 * PI / wavelength)).
Proof.
  intros Hc Hw Hn0 Hzi st.
  pose proof (run_bpm_conforming Nx E n_r2 x z dx dz n0 sigma_x wavelength
                Hc Hw Hn0) as Hnone.
  destruct Hc as (HE & Hn & HFE & HFn & Hs).
  subst st. revert Hnone. unfold run_bpm. rewrite pydiv_ok by assumption.
  destruct (march (bpm_step n_r2 dx dz n0 sigma_x (2 * PI / wavelength))
              (seq 1 (length z - 1)) (mkState E [])) as [st out] eqn:Hm.
  cbn [fst snd]. intros ->.
  destruct (march_inv _ _ _ _ _ _ _ _ _ _ _ (Nat.le_refl 1) Hm)
    as (m & Hle & Hwr & Hout & Hlen & Hshape & Hframe & Hcols).
  specialize (Hout eq_refl). subst m. cbn [fst snd field written app] in *.
  destruct (Hcols zi ltac:(lia))
    as (E_prev & n_prev & v & c & H1 & H2 & H3 & H4 & H5).
  pose proof (Forall_forall (fun c => length c = Nx) E) as [FE _].
  pose proof (Forall_forall (fun c => length c = Nx) n_r2) as [Fn _].
  assert (Lcol : forall j col, nth_error (field st) j = Some col ->
                               length col = Nx).
  { intros j col0 Hj. specialize (Hshape j). rewrite Hj in Hshape.
    simpl in Hshape.
    destruct (nth_error E j) as [c0|] eqn:Hc0; [|discriminate].
    injection Hshape as ->. apply (FE HFE), (nth_error_In _ _ Hc0). }
  assert (L1 : length E_prev = Nx) by (apply (Lcol _ _ H1)).
  assert (L2 : length n_prev = Nx) by (apply (Fn HFn), (nth_error_In _ _ H2)).
  assert (L4 : length c = Nx) by (apply (Lcol _ _ H4)).
  pose proof (k0_nonzero wavelength Hw) as Hk.
  destruct (rk4_column_ok dx dz n0 _ sigma_x E_prev n_prev Hk Hn0)
    as [Hv Hvl]; [congruence|congruence|].
  rewrite Hv in H3. injection H3 as <-.
  rewrite fit_to_same in H5 by congruence. injection H5 as <-.
  exists E_prev, n_prev. splits; assumption.
Qed.

Lemma run_bpm_column_zero E n_r2 x z dx dz n0 sigma_x wavelength :
  nth_error (field (fst (run_bpm E n_r2 x z dx dz n0 sigma_x wavelength))) 0
  = nth_error E 0.
Proof.
  unfold run_bpm, pydiv.
  destruct (Req_dec_T wavelength 0) as [Hz|Hnz]; [reflexivity|].
  destruct (march (bpm_step n_r2 dx dz n0 sigma_x (2 * PI / wavelength))
              (seq 1 (length z - 1)) (mkState E [])) as [st out] eqn:Hm.
  destruct (march_inv _ _ _ _ _ _ _ _ _ _ _ (Nat.le_refl 1) Hm)
    as (m & _ & _ & _ & _ & _ & Hframe & _).
  cbn [fst field] in *. apply Hframe. lia.
Qed.

(** The closed form of the march. *)
Lemma run_bpm_closed_form Nx E n_r2 x z dx dz n0 sigma_x wavelength E0 :
  conforming Nx (length z) E n_r2 sigma_x ->
  wavelength <> 0 -> n0 <> 0 ->
  nth_error E 0 = Some E0 ->
  forall zi, (zi < length z)%nat ->
    nth_error (field (fst (run_bpm E n_r2 x z dx dz n0 sigma_x wavelength))) zi
    = column_at dx dz n0 sigma_x (2 * PI / wavelength) zi E0 n_r2.
Proof.
  intros Hc Hw Hn0 H0 zi. induction zi as [|zi IH]; intros Hzi.
  - rewrite run_bpm_column_zero. exact H0.
  - destruct (run_bpm_column_step Nx E n_r2 x z dx dz n0 sigma_x wavelength
                (S zi) Hc Hw Hn0 ltac:(lia))
      as (E_prev & n_prev & H1 & H2 & _ & _ & H3).
    replace (S zi - 1)%nat with zi in H1, H2 by lia.
    rewrite H3. symmetry. apply column_at_step; [|exact H2].
    rewrite <- IH by lia. exact H1.
Qed.

(** X7.  Only the launch column of the field is read: two conforming
    fields with the same column 0 are marched into the same columns
    0 to Nz - 1, whatever their other columns held. *)
Theorem run_bpm_reads_launch_column_only
    Nx E E' n_r2 x z dx dz n0 sigma_x wavelength :
  conforming Nx (length z) E n_r2 sigma_x ->
  conforming Nx (length z) E' n_r2 sigma_x ->
  wavelength <> 0 -> n0 <> 0 ->
  nth_error E 0 = nth_error E' 0 ->
  forall zi, (zi < length z)%nat ->
    nth_error (field (fst (run_bpm E n_r2 x z dx dz n0 sigma_x wavelength))) zi
    = nth_error
        (field (fst (run_bpm E' n_r2 x z dx dz n0 sigma_x wavelength))) zi.
Proof.
  intros Hc Hc' Hw Hn0 H0 zi Hzi.
  destruct (nth_error E 0) as [E0|] eqn:HE.
  - rewrite (run_bpm_closed_form Nx E n_r2 x z dx dz n0 sigma_x wavelength E0)
      by assumption.
    rewrite (run_bpm_closed_form Nx E' n_r2 x z dx dz n0 sigma_x wavelength E0)
      by (try assumption; symmetry; assumption).
    reflexivity.
  - apply nth_error_None in HE. destruct Hc as (Hlen & _). lia.
Qed.

Lemma run_bpm_reads_launch_column_only_witness :
  nth_error (field (fst (run_bpm E_two n_two [0] z_two 1 1 1 [0] 1))) 1
  = nth_error
      (field (fst (run_bpm [[RtoC 1]; [Ci]] n_two [0] z_two 1 1 1 [0] 1))) 1.
Proof.
  apply (run_bpm_reads_launch_column_only 1 E_two [[RtoC 1]; [Ci]] n_two [0]
           z_two 1 1 1 [0] 1).
  - exact conforming_two.
  - unfold conforming, n_two. simpl. repeat split; try lia; repeat constructor.
  - lra.
  - lra.
  - reflexivity.
  - simpl. lia.
Defined.

(** ** Linearity of the propagation step *)

Lemma dE_dz_value_nth E n_r2 dx n0 sigma_x k0 i :
  length n_r2 = length E -> length sigma_x = length E ->
  (i < length E)%nat ->
  nth i (dE_dz_value E n_r2 dx n0 sigma_x k0) C0 =
  dE_dz_formula E n_r2 dx n0 sigma_x k0 i.
Proof.
  intros H1 H2 Hi. unfold dE_dz_value, dE_dz_formula, wrap_index.
  rewrite (nth_map2 _ _ _ _ C0 C0);
    [|rewrite map2_length; len_simpl|len_simpl].
  rewrite (nth_map2 _ _ _ _ C0 C0); [|len_simpl|len_simpl].
  rewrite (nth_map2 _ _ _ _ (Cmulr (Cmulr Ci (k0 / (2 * n0))) (0 - n0 ^ 2)) C0);
    [|len_simpl|lia].
  rewrite (nth_map2 _ _ _ _ (- 0) C0); [|len_simpl|lia].
  rewrite (nth_map_in _ _ _ C0) by len_simpl.
  rewrite (nth_map_in _ _ _ C0) by len_simpl.
  rewrite (nth_map2 _ _ _ _ C0 C0); [|len_simpl|len_simpl].
  rewrite (nth_map2 _ _ _ _ C0 C0); [|len_simpl|len_simpl].
  rewrite (nth_map_in _ _ _ C0) by lia.
  rewrite (nth_map_in _ _ _ 0) by lia.
  rewrite (nth_map_in _ _ _ 0) by lia.
  rewrite !roll_nth by lia.
  replace (Z.of_nat i - -1)%Z with (Z.of_nat i + 1)%Z by lia.
  apply C_eq; simpl; unfold Rdiv; ring.
Qed.

Lemma vlin_length c1 c2 a b :
  length a = length b -> length (vlin c1 c2 a b) = length a.
Proof. apply map2_length. Qed.

Lemma vlin_nth c1 c2 a b i :
  length a = length b -> (i < length a)%nat ->
  nth i (vlin c1 c2 a b) C0 =
  Cadd (Cmul c1 (nth i a C0)) (Cmul c2 (nth i b C0)).
Proof.
  intros H Hi. unfold vlin.
  rewrite (nth_map2 _ _ _ _ C0 C0) by lia. reflexivity.
Qed.

Lemma wrap_bound (L : nat) (j : Z) :
  (0 < L)%nat -> (Z.to_nat (j mod Z.of_nat L) < L)%nat.
Proof.
  intros HL. pose proof (Z.mod_pos_bound j (Z.of_nat L) ltac:(lia)). lia.
Qed.

Lemma dE_dz_value_vlin c1 c2 a b n_r2 dx n0 sigma_x k0 :
  length b = length a -> length n_r2 = length a ->
  length sigma_x = length a ->
  dE_dz_value (vlin c1 c2 a b) n_r2 dx n0 sigma_x k0 =
  vlin c1 c2 (dE_dz_value a n_r2 dx n0 sigma_x k0)
             (dE_dz_value b n_r2 dx n0 sigma_x k0).
Proof.
  intros Hb Hn Hs.
  assert (Hl : length (vlin c1 c2 a b) = length a)
    by (apply vlin_length; congruence).
  apply (nth_ext _ _ C0 C0).
  - rewrite vlin_length;
      rewrite !dE_dz_value_length; congruence.
  - intros i Hi.
    rewrite dE_dz_value_length in Hi by congruence. rewrite Hl in Hi.
    rewrite dE_dz_value_nth by congruence.
    rewrite vlin_nth;
      [|rewrite !dE_dz_value_length; congruence
       |rewrite dE_dz_value_length; congruence].
    rewrite !dE_dz_value_nth by congruence.
    unfold dE_dz_formula, wrap_index. rewrite Hl, Hb.
    assert (HL : (0 < length a)%nat) by lia.
    rewrite !vlin_nth by (try congruence; try apply wrap_bound; assumption).
    apply C_eq; simpl; unfold Rdiv; ring.
Qed.

Lemma vscale_vlin r c1 c2 a b :
  length b = length a ->
  vscale r (vlin c1 c2 a b) = vlin c1 c2 (vscale r a) (vscale r b).
Proof.
  intros Hb. apply (nth_ext _ _ C0 C0).
  - unfold vscale, vlin. solve_len.
  - intros i Hi. unfold vscale in Hi. rewrite length_map, vlin_length in Hi
      by congruence.
    unfold vscale at 1. rewrite (nth_map_in _ _ _ C0)
      by (rewrite vlin_length; congruence).
    rewrite !vlin_nth by (unfold vscale; rewrite ?length_map; congruence).
    unfold vscale. rewrite !(nth_map_in _ _ _ C0) by congruence.
    apply C_eq; simpl; ring.
Qed.

Lemma vdiv_vlin r c1 c2 a b :
  length b = length a ->
  vdiv (vlin c1 c2 a b) r = vlin c1 c2 (vdiv a r) (vdiv b r).
Proof.
  intros Hb. apply (nth_ext _ _ C0 C0).
  - unfold vdiv, vlin. solve_len.
  - intros i Hi. unfold vdiv in Hi. rewrite length_map, vlin_length in Hi
      by congruence.
    unfold vdiv at 1. rewrite (nth_map_in _ _ _ C0)
      by (rewrite vlin_length; congruence).
    rewrite !vlin_nth by (unfold vdiv; rewrite ?length_map; congruence).
    unfold vdiv. rewrite !(nth_map_in _ _ _ C0) by congruence.
    apply C_eq; simpl; unfold Rdiv; ring.
Qed.

Lemma vadd_vlin c1 c2 a b c d :
  length b = length a -> length c = length a -> length d = length a ->
  vadd (vlin c1 c2 a b) (vlin c1 c2 c d) =
  vlin c1 c2 (vadd a c) (vadd b d).
Proof.
  intros Hb Hc Hd. apply (nth_ext _ _ C0 C0).
  - unfold vadd, vlin. solve_len.
  - intros i Hi. rewrite vadd_length, vlin_length in Hi
      by (rewrite ?vlin_length; congruence).
    unfold vadd at 1. rewrite (nth_map2 _ _ _ _ C0 C0)
      by (rewrite vlin_length; congruence).
    rewrite !vlin_nth by (rewrite ?vadd_length; congruence).
    unfold vadd. rewrite !(nth_map2 _ _ _ _ C0 C0) by congruence.
    apply C_eq; simpl; ring.
Qed.

Lemma rk4_value_length E n dx dz n0 sigma_x k0 :
  length n = length E -> length sigma_x = length E ->
  length (rk4_value E n dx dz n0 sigma_x k0) = length E.
Proof.
  intros Hn Hs. unfold rk4_value, rk4_combine, vadd, vdiv, vscale.
  solve_len.
Qed.

Ltac vec_len := unfold rk4_value, rk4_combine, vlin, vadd, vdiv, vscale; solve_len.

Lemma rk4_value_vlin c1 c2 a b n dx dz n0 sigma_x k0 :
  length b = length a -> length n = length a ->
  length sigma_x = length a ->
  rk4_value (vlin c1 c2 a b) n dx dz n0 sigma_x k0 =
  vlin c1 c2 (rk4_value a n dx dz n0 sigma_x k0)
             (rk4_value b n dx dz n0 sigma_x k0).
Proof.
  intros Hb Hn Hs. unfold rk4_value, rk4_combine.
  repeat first
    [ rewrite dE_dz_value_vlin by vec_len
    | rewrite vscale_vlin by vec_len
    | rewrite vdiv_vlin by vec_len
    | rewrite vadd_vlin by vec_len ].
  reflexivity.
Qed.

Lemma column_at_vlin dx dz n0 sigma_x k0 c1 c2 k :
  forall a b n_cols,
    length b = length a -> length sigma_x = length a ->
    Forall (fun c => length c = length a) n_cols ->
    column_at dx dz n0 sigma_x k0 k (vlin c1 c2 a b) n_cols =
    match column_at dx dz n0 sigma_x k0 k a n_cols,
          column_at dx dz n0 sigma_x k0 k b n_cols with
    | Some A, Some B => Some (vlin c1 c2 A B)
    | _, _ => None
    end.
Proof.
  induction k as [|k IH]; intros a b n_cols Hb Hs HF; [reflexivity|].
  destruct n_cols as [|n rest]; [reflexivity|].
  inversion HF as [|? ? Hn HF']; subst.
  cbn [column_at]. rewrite rk4_value_vlin by congruence.
  assert (La : length (rk4_value a n dx dz n0 sigma_x k0) = length a)
    by (apply rk4_value_length; congruence).
  assert (Lb : length (rk4_value b n dx dz n0 sigma_x k0) = length a)
    by (rewrite rk4_value_length; congruence).
  apply IH; try congruence.
  rewrite La. exact HF'.
Qed.

Lemma column_at_some dx dz n0 sigma_x k0 k :
  forall E0 n_cols, (k <= length n_cols)%nat ->
    exists A, column_at dx dz n0 sigma_x k0 k E0 n_cols = Some A.
Proof.
  induction k as [|k IH]; intros E0 n_cols Hk; [exists E0; reflexivity|].
  destruct n_cols as [|n rest]; [simpl in Hk; lia|].
  cbn [column_at]. apply IH. simpl in Hk. lia.
Qed.

(** X8.  [compute_dE_dz] is linear in the field slice: on slices of one
    length, the derivative of c1 a + c2 b is c1 times the derivative of a
    plus c2 times the derivative of b, for complex c1 and c2. *)
Theorem compute_dE_dz_linear c1 c2 a b n_r2 dx n0 sigma_x k0 :
  length b = length a -> length n_r2 = length a ->
  length sigma_x = length a ->
  k0 <> 0 -> n0 <> 0 ->
  exists da db,
    compute_dE_dz a n_r2 dx n0 sigma_x k0 = Ok da /\
    compute_dE_dz b n_r2 dx n0 sigma_x k0 = Ok db /\
    compute_dE_dz (vlin c1 c2 a b) n_r2 dx n0 sigma_x k0 =
    Ok (vlin c1 c2 da db).
Proof.
  intros Hb Hn Hs Hk Hn0.
  exists (dE_dz_value a n_r2 dx n0 sigma_x k0),
         (dE_dz_value b n_r2 dx n0 sigma_x k0).
  splits.
  - apply compute_dE_dz_ok; assumption.
  - apply compute_dE_dz_ok; congruence.
  - rewrite compute_dE_dz_ok;
      try assumption; try (rewrite vlin_length; congruence).
    rewrite dE_dz_value_vlin by assumption. reflexivity.
Qed.

Lemma compute_dE_dz_linear_witness :
  exists da db,
    compute_dE_dz E_three n_slice_three 1 1 sigma_three 1 = Ok da /\
    compute_dE_dz [Ci; C0; RtoC 2] n_slice_three 1 1 sigma_three 1 = Ok db /\
    compute_dE_dz (vlin (RtoC 3) Ci E_three [Ci; C0; RtoC 2])
      n_slice_three 1 1 sigma_three 1 =
    Ok (vlin (RtoC 3) Ci da db).
Proof.
  apply (compute_dE_dz_linear (RtoC 3) Ci E_three [Ci; C0; RtoC 2]
           n_slice_three 1 1 sigma_three 1);
    try reflexivity; lra.
Defined.

(** X9.  Superposition: with conforming shapes, if the launch column of
    a third field is c1 times that of a first plus c2 times that of a
    second, then after [run_bpm] on one index map every column 0 to
    Nz - 1 of the third is the same combination of the columns of the
    first and the second. *)
Theorem run_bpm_superposition
    Nx E1 E2 E3 n_r2 x z dx dz n0 sigma_x wavelength c1 c2 a b :
  conforming Nx (length z) E1 n_r2 sigma_x ->
  conforming Nx (length z) E2 n_r2 sigma_x ->
  conforming Nx (length z) E3 n_r2 sigma_x ->
  wavelength <> 0 -> n0 <> 0 ->
  nth_error E1 0 = Some a -> nth_error E2 0 = Some b ->
  nth_error E3 0 = Some (vlin c1 c2 a b) ->
  forall zi, (zi < length z)%nat ->
    exists A B,
      nth_error
        (field (fst (run_bpm E1 n_r2 x z dx dz n0 sigma_x wavelength))) zi
      = Some A /\
      nth_error
        (field (fst (run_bpm E2 n_r2 x z dx dz n0 sigma_x wavelength))) zi
      = Some B /\
      nth_error
        (field (fst (run_bpm E3 n_r2 x z dx dz n0 sigma_x wavelength))) zi
      = Some (vlin c1 c2 A B).
Proof.
  intros H1 H2 H3 Hw Hn0 Ha Hb Hc zi Hzi.
  rewrite (run_bpm_closed_form Nx E1 n_r2 x z dx dz n0 sigma_x wavelength a)
    by assumption.
  rewrite (run_bpm_closed_form Nx E2 n_r2 x z dx dz n0 sigma_x wavelength b)
    by assumption.
  rewrite (run_bpm_closed_form Nx E3 n_r2 x z dx dz n0 sigma_x wavelength
             (vlin c1 c2 a b)) by assumption.
  pose proof (Forall_forall (fun c => length c = Nx) E1) as [F1 _].
  pose proof (Forall_forall (fun c => length c = Nx) E2) as [F2 _].
  destruct H1 as (_ & Hn & HF1 & HFn & Hs). destruct H2 as (_ & _ & HF2 & _).
  assert (La : length a = Nx) by (apply (F1 HF1), (nth_error_In _ _ Ha)).
  assert (Lb : length b = Nx) by (apply (F2 HF2), (nth_error_In _ _ Hb)).
  rewrite column_at_vlin; [|congruence|congruence|rewrite La; exact HFn].
  destruct (column_at_some dx dz n0 sigma_x (2 * PI / wavelength) zi a n_r2
              ltac:(lia)) as [A HA].
  destruct (column_at_some dx dz n0 sigma_x (2 * PI / wavelength) zi b n_r2
              ltac:(lia)) as [B HB].
  exists A, B. rewrite HA, HB. splits; reflexivity.
Qed.

Lemma run_bpm_superposition_witness :
  exists A B,
    nth_error (field (fst (run_bpm E_two n_two [0] z_two 1 1 1 [0] 1))) 1
    = Some A /\
    nth_error
      (field (fst (run_bpm [[Ci]; [C0]] n_two [0] z_two 1 1 1 [0] 1))) 1
    = Some B /\
    nth_error
      (field (fst (run_bpm [vlin (RtoC 2) Ci [RtoC 1] [Ci]; [C0]] n_two
                     [0] z_two 1 1 1 [0] 1))) 1
    = Some (vlin (RtoC 2) Ci A B).
Proof.
  apply (run_bpm_superposition 1 E_two [[Ci]; [C0]]
           [vlin (RtoC 2) Ci [RtoC 1] [Ci]; [C0]] n_two [0] z_two 1 1 1 [0] 1
           (RtoC 2) Ci [RtoC 1] [Ci]);
    try reflexivity; try lra; try (simpl; lia);
    unfold conforming, E_two, n_two; simpl;
    repeat split; try lia; repeat constructor.
Defined.

(** ** A uniform field in a uniform medium *)

Lemma nth_repeat_lt {A} (a d : A) n i :
  (i < n)%nat -> nth i (repeat a n) d = a.
Proof.
  intros Hi. rewrite (nth_indep _ d a) by (rewrite repeat_length; exact Hi).
  apply nth_repeat.
Qed.

Lemma dE_dz_value_uniform a N dx n0 k0 :
  dE_dz_value (repeat a N) (repeat (n0 ^ 2) N) dx n0 (repeat 0 N) k0 =
  repeat C0 N.
Proof.
  apply (nth_ext _ _ C0 C0).
  - rewrite dE_dz_value_length; rewrite !repeat_length; reflexivity.
  - intros i Hi.
    rewrite dE_dz_value_length, repeat_length in Hi
      by (rewrite !repeat_length; reflexivity).
    rewrite dE_dz_value_nth by (rewrite !repeat_length; auto).
    unfold dE_dz_formula, wrap_index. rewrite repeat_length.
    rewrite !nth_repeat_lt by (try apply wrap_bound; lia).
    apply C_eq; simpl; unfold Rdiv; ring.
Qed.

Lemma vscale_zero r N : vscale r (repeat C0 N) = repeat C0 N.
Proof.
  unfold vscale. rewrite map_repeat. f_equal. apply C_eq; simpl; ring.
Qed.

Lemma vdiv_zero r N : vdiv (repeat C0 N) r = repeat C0 N.
Proof.
  unfold vdiv. rewrite map_repeat. f_equal.
  apply C_eq; simpl; unfold Rdiv; ring.
Qed.

Lemma vadd_zero a N : vadd (repeat a N) (repeat C0 N) = repeat a N.
Proof.
  induction N as [|N IH]; [reflexivity|].
  unfold vadd, map2 in *. simpl. rewrite IH. f_equal.
  apply C_eq; simpl; ring.
Qed.

Lemma rk4_value_uniform a N dx dz n0 k0 :
  rk4_value (repeat a N) (repeat (n0 ^ 2) N) dx dz n0 (repeat 0 N) k0 =
  repeat a N.
Proof.
  unfold rk4_value, rk4_combine.
  repeat first
    [ rewrite dE_dz_value_uniform
    | rewrite vscale_zero
    | rewrite vdiv_zero
    | rewrite vadd_zero ].
  reflexivity.
Qed.

Lemma column_at_uniform a N dx dz n0 k0 k :
  forall n_cols,
    (k <= length n_cols)%nat ->
    Forall (fun c => c = repeat (n0 ^ 2) N) n_cols ->
    column_at dx dz n0 (repeat 0 N) k0 k (repeat a N) n_cols =
    Some (repeat a N).
Proof.
  induction k as [|k IH]; intros n_cols Hk HF; [reflexivity|].
  destruct n_cols as [|n rest]; [simpl in Hk; lia|].
  inversion HF as [|? ? Hn HF']; subst.
  cbn [column_at]. rewrite rk4_value_uniform.
  apply IH; [simpl in Hk; lia|exact HF'].
Qed.

(** X10.  With a non-zero transverse spacing dx, a uniform launch column
    in a medium whose squared index is n0^2 everywhere, without damping,
    is carried unchanged: every column 0 to Nz - 1 of the returned array
    equals the launch column.
    The wrap-around of the transverse difference is what makes the edge
    samples behave like the inner ones. *)
Theorem run_bpm_uniform_field_unchanged
    Nx E n_r2 x z dx dz n0 wavelength a :
  conforming Nx (length z) E n_r2 (repeat 0 Nx) ->
  wavelength <> 0 -> n0 <> 0 -> dx <> 0 ->
  nth_error E 0 = Some (repeat a Nx) ->
  Forall (fun c => c = repeat (n0 ^ 2) Nx) n_r2 ->
  forall zi, (zi < length z)%nat ->
    nth_error
      (field (fst (run_bpm E n_r2 x z dx dz n0 (repeat 0 Nx) wavelength))) zi
    = Some (repeat a Nx).
Proof.
  intros Hc Hw Hn0 _ H0 HF zi Hzi.
  rewrite (run_bpm_closed_form Nx E n_r2 x z dx dz n0 (repeat 0 Nx)
             wavelength (repeat a Nx)) by assumption.
  destruct Hc as (_ & Hn & _).
  apply column_at_uniform; [lia|exact HF].
Qed.

Lemma run_bpm_uniform_field_unchanged_witness :
  nth_error
    (field (fst (run_bpm [repeat Ci 2; [C0; C0]; [C0; C0]]
                   [repeat (3 ^ 2) 2; repeat (3 ^ 2) 2; repeat (3 ^ 2) 2]
                   [0; 1] z_three 1 1 3 (repeat 0 2) 1))) 2
  = Some (repeat Ci 2).
Proof.
  apply (run_bpm_uniform_field_unchanged 2
           [repeat Ci 2; [C0; C0]; [C0; C0]]
           [repeat (3 ^ 2) 2; repeat (3 ^ 2) 2; repeat (3 ^ 2) 2]
           [0; 1] z_three 1 1 3 1 Ci).
  - unfold conforming. simpl. repeat split; try lia; repeat constructor.
  - lra.
  - lra.
  - lra.
  - reflexivity.
  - repeat constructor.
  - simpl. lia.
Defined.

(** ** Errors raised in the first step *)

Lemma broadcast_mismatch {A B T} (op : A -> B -> T) a b :
  length a <> length b -> length a <> 1%nat -> length b <> 1%nat ->
  broadcast op a b =
  Err (ValueError "operands could not be broadcast together").
Proof.
  intros H Ha Hb. unfold broadcast.
  destruct (Nat.eqb_spec (length a) (length b)) as [He|_]; [contradiction|].
  destruct a as [|u [|u' a]], b as [|v [|v' b]]; simpl in *;
    try congruence; try reflexivity.
Qed.

(** X11.  When the first column of the index map has not the length of
    the launch column, and neither has length one, the first step raises
    numpy's broadcasting [ValueError]: [run_bpm] stops with the field as
    it was given and no column assigned. *)
Theorem run_bpm_transverse_mismatch
    E n_r2 x z dx dz n0 sigma_x wavelength E0 n_first :
  wavelength <> 0 -> n0 <> 0 ->
  (2 <= length z)%nat ->
  nth_error E 0 = Some E0 ->
  nth_error n_r2 0 = Some n_first ->
  length n_first <> length E0 ->
  length n_first <> 1%nat -> length E0 <> 1%nat ->
  run_bpm E n_r2 x z dx dz n0 sigma_x wavelength =
  (mkState E [],
   Some (ValueError "operands could not be broadcast together")).
Proof.
  intros Hw Hn0 Hz HE Hn Hne Hn1 HE1.
  unfold run_bpm. rewrite pydiv_ok by assumption.
  destruct (length z) as [|[|m]] eqn:Hlz; [lia|lia|].
  cbn [Nat.sub seq march]. replace (S m - 0)%nat with (S m) by lia.
  cbn [seq march].
  unfold bpm_step at 1. cbn [field Nat.sub]. unfold col.
  rewrite HE, Hn. cbn [bind].
  unfold rk4_column, compute_dE_dz at 1.
  pose proof (k0_nonzero wavelength Hw) as Hk.
  rewrite pydiv_c_ok by (intros H; apply Rmult_integral in H;
    destruct H as [H|H]; [apply Rmult_integral in H; destruct H; lra|lra]).
  cbn [bind]. rewrite pydiv_ok by lra. cbn [bind].
  rewrite broadcast_mismatch by (rewrite ?length_map; assumption).
  reflexivity.
Qed.

Lemma run_bpm_transverse_mismatch_witness :
  run_bpm [[C0; C0]; [C0; C0]] [[1; 1; 1]; [1; 1; 1]] [0; 1] z_two 1 1 1
    [0; 0] 1 =
  (mkState [[C0; C0]; [C0; C0]] [],
   Some (ValueError "operands could not be broadcast together")).
Proof.
  apply (run_bpm_transverse_mismatch [[C0; C0]; [C0; C0]]
           [[1; 1; 1]; [1; 1; 1]] [0; 1] z_two 1 1 1 [0; 0] 1
           [C0; C0] [1; 1; 1]);
    try reflexivity; try lra; simpl; lia.
Defined.

(** X12.  With a background index n0 = 0 and at least two axial
    positions, the first step divides by zero: [run_bpm] raises
    [ZeroDivisionError] with the field as it was given and no column
    assigned. *)
Theorem run_bpm_zero_background_index
    E n_r2 x z dx dz sigma_x wavelength E0 n_first :
  wavelength <> 0 ->
  (2 <= length z)%nat ->
  nth_error E 0 = Some E0 ->
  nth_error n_r2 0 = Some n_first ->
  run_bpm E n_r2 x z dx dz 0 sigma_x wavelength =
  (mkState E [], Some ZeroDivisionError).
Proof.
  intros Hw Hz HE Hn.
  unfold run_bpm. rewrite pydiv_ok by assumption.
  destruct (length z) as [|[|m]] eqn:Hlz; [lia|lia|].
  cbn [Nat.sub seq march]. replace (S m - 0)%nat with (S m) by lia.
  cbn [seq march].
  unfold bpm_step at 1. cbn [field Nat.sub]. unfold col.
  rewrite HE, Hn. cbn [bind].
  unfold rk4_column, compute_dE_dz at 1. unfold pydiv_c.
  destruct (Req_dec_T (2 * (2 * PI / wavelength) * 0) 0) as [_|Hne];
    [reflexivity|exfalso; apply Hne; ring].
Qed.

Lemma run_bpm_zero_background_index_witness :
  run_bpm E_two n_two [0] z_two 1 1 0 [0] 1 =
  (mkState E_two [], Some ZeroDivisionError).
Proof.
  apply (run_bpm_zero_background_index E_two n_two [0] z_two 1 1 [0] 1
           [RtoC 1] [1]);
    try reflexivity; try lra; simpl; lia.
Defined.

(** * [generate_waveguide_n_r2] *)

Lemma fold_columns {A} (g : nat -> A -> A) n :
  forall a (M : list A),
    (a + n <= length M)%nat ->
    forall j,
      nth_error
        (fold_left
           (fun M iz => match nth_error M iz with
                        | Some c => update_nth iz (g iz c) M
                        | None => M
                        end) (seq a n) M) j =
      if (a <=? j)%nat && (j <? a + n)%nat
      then option_map (g j) (nth_error M j)
      else nth_error M j.
Proof.
  induction n as [|n IH]; intros a M Ha j.
  - simpl. destruct (Nat.leb_spec a j), (Nat.ltb_spec j (a + 0));
      simpl; try reflexivity; lia.
  - cbn [seq fold_left].
    destruct (nth_error M a) as [c|] eqn:Hc;
      [|apply nth_error_None in Hc; lia].
    rewrite IH by (rewrite update_nth_length; lia).
    destruct (Nat.eq_dec j a) as [->|Hne].
    + rewrite nth_error_update_same by lia. rewrite Hc.
      destruct (Nat.leb_spec (S a) a), (Nat.leb_spec a a),
        (Nat.ltb_spec a (a + S n)); simpl; try reflexivity; lia.
    + rewrite nth_error_update_other by assumption.
      destruct (Nat.leb_spec (S a) j), (Nat.leb_spec a j),
        (Nat.ltb_spec j (S a + n)), (Nat.ltb_spec j (a + S n));
        simpl; try reflexivity; lia.
Qed.

Lemma mask_assign_repeat {A} (p : A -> bool) (v b : R) (x : list A) :
  mask_assign (map p x) v (repeat b (length x)) =
  map (fun xi => if p xi then v else b) x.
Proof.
  unfold mask_assign, map2. induction x as [|h t IH]; [reflexivity|].
  simpl. rewrite IH. reflexivity.
Qed.

Lemma waveguide_loop x x_c w n_WG n0 :
  fold_left (waveguide_step x x_c w n_WG) (seq 0 (length x_c))
    (full (length x) (length x_c) (n0 ^ 2)) =
  map (fun xc => guide_profile x xc w n_WG n0) x_c.
Proof.
  apply nth_error_ext. intros j.
  pose proof (fold_columns
    (fun iz c =>
       mask_assign
         (map (fun xi => Rleb (nth iz x_c 0 - w / 2) xi
                         && Rleb xi (nth iz x_c 0 + w / 2)) x)
         (n_WG ^ 2) c)
    (length x_c) 0 (full (length x) (length x_c) (n0 ^ 2))) as HF.
  unfold waveguide_step. rewrite HF
    by (unfold full; rewrite repeat_length; lia).
  clear HF. rewrite nth_error_map. unfold full.
  destruct (Nat.ltb_spec j (0 + length x_c)) as [Hj|Hj].
  - rewrite nth_error_repeat by lia.
    rewrite (nth_error_nth' x_c 0) by lia. simpl.
    rewrite mask_assign_repeat. reflexivity.
  - rewrite Bool.andb_false_r.
    destruct (nth_error_None x_c j) as [_ ->]; [|lia].
    apply nth_error_None. rewrite repeat_length. lia.
Qed.

Lemma generate_waveguide_ok x z l L w n_WG n0 :
  waveguide_arguments_valid x z L w n_WG n0 ->
  generate_waveguide_n_r2 x z l L w n_WG n0 =
  Ok (map (fun zz => guide_profile (flat x) (clip (bend l L zz) 0 l)
                       w n_WG n0) (flat z)).
Proof.
  intros (Hx & Hz & HL & Hw & Hn & Hn0). unfold generate_waveguide_n_r2.
  rewrite Hx, Hz. cbn [Nat.eqb negb orb].
  rewrite (Rleb_false L 0), (Rleb_false w 0), (Rleb_false n_WG n0),
    (Rleb_false n0 0) by assumption.
  f_equal.
  pose proof (waveguide_loop (flat x)
    (map (fun c => clip c 0 l) (map (bend l L) (flat z))) w n_WG n0) as HL'.
  rewrite !length_map in HL'. rewrite HL'. rewrite !map_map. reflexivity.
Qed.

Lemma generate_waveguide_err x z l L w n_WG n0 :
  ~ waveguide_arguments_valid x z L w n_WG n0 ->
  exists msg,
    generate_waveguide_n_r2 x z l L w n_WG n0 = Err (ValueError msg) /\
    In msg [msg_xz; msg_L; msg_w; msg_core; msg_background].
Proof.
  intros Hnot. unfold generate_waveguide_n_r2.
  assert (Hin : forall msg,
            In msg [msg_xz; msg_L; msg_w; msg_core; msg_background] ->
            exists msg', @Err (array2 R) (ValueError msg) = Err (ValueError msg') /\
              In msg' [msg_xz; msg_L; msg_w; msg_core; msg_background])
    by (intros msg Hm; exists msg; split; [reflexivity|exact Hm]).
  destruct (Nat.eqb_spec (ndim x) 1) as [Hx|Hx];
    [|apply Hin; simpl; tauto].
  destruct (Nat.eqb_spec (ndim z) 1) as [Hz|Hz];
    [|apply Hin; simpl; tauto].
  cbn [negb orb].
  destruct (Rleb_spec L 0) as [HL|HL]; [apply Hin; simpl; tauto|].
  destruct (Rleb_spec w 0) as [Hw|Hw]; [apply Hin; simpl; tauto|].
  destruct (Rleb_spec n_WG n0) as [Hn|Hn]; [apply Hin; simpl; tauto|].
  destruct (Rleb_spec n0 0) as [H0|H0]; [apply Hin; simpl; tauto|].
  exfalso. apply Hnot. unfold waveguide_arguments_valid.
  splits; try assumption; lra.
Qed.

Lemma generate_waveguide_ok_inv x z l L w n_WG n0 n_r2 :
  generate_waveguide_n_r2 x z l L w n_WG n0 = Ok n_r2 ->
  waveguide_arguments_valid x z L w n_WG n0.
Proof.
  unfold generate_waveguide_n_r2, waveguide_arguments_valid.
  destruct (Nat.eqb_spec (ndim x) 1) as [Hx|Hx]; [|discriminate].
  destruct (Nat.eqb_spec (ndim z) 1) as [Hz|Hz]; [|discriminate].
  cbn [negb orb].
  destruct (Rleb_spec L 0) as [HL|HL]; [discriminate|].
  destruct (Rleb_spec w 0) as [Hw|Hw]; [discriminate|].
  destruct (Rleb_spec n_WG n0) as [Hn|Hn]; [discriminate|].
  destruct (Rleb_spec n0 0) as [H0|H0]; [discriminate|].
  intros _. splits; try assumption; lra.
Qed.

Lemma guide_profile_length x xc w n_WG n0 :
  length (guide_profile x xc w n_WG n0) = length x.
Proof. apply length_map. Qed.

Lemma guide_profile_nth x xc w n_WG n0 ix :
  (ix < length x)%nat ->
  (Rabs (nth ix x 0 - xc) <= w / 2 ->
   nth ix (guide_profile x xc w n_WG n0) 0 = n_WG ^ 2) /\
  (w / 2 < Rabs (nth ix x 0 - xc) ->
   nth ix (guide_profile x xc w n_WG n0) 0 = n0 ^ 2).
Proof.
  intros Hix. unfold guide_profile.
  rewrite (nth_map_in _ _ _ 0) by assumption.
  set (xi := nth ix x 0).
  destruct (Rleb_spec (xc - w / 2) xi) as [H1|H1],
           (Rleb_spec xi (xc + w / 2)) as [H2|H2]; cbn [andb];
    split; intros H; try reflexivity; exfalso; revert H;
    unfold Rabs; destruct (Rcase_abs (xi - xc)); lra.
Qed.

Lemma sin_le_x t : 0 <= t -> sin t <= t.
Proof.
  intros [Ht|<-]; [left; apply sin_lt_x; assumption|rewrite sin_0; lra].
Qed.

Lemma over_two_pi_nonneg l : 0 <= l -> 0 <= l / (2 * PI).
Proof.
  intros Hl. pose proof PI_RGT_0. unfold Rdiv. apply Rmult_le_pos; [lra|].
  left. apply Rinv_0_lt_compat. lra.
Qed.

Lemma bend_form l L zz :
  0 < L ->
  bend l L zz =
  l / (2 * PI) * (2 * PI / L * zz - sin (2 * PI / L * zz)).
Proof.
  intros HL. pose proof PI_RGT_0. unfold bend. field. lra.
Qed.

Lemma clip_before l L zz :
  0 < L -> 0 <= l -> zz <= 0 -> clip (bend l L zz) 0 l = 0.
Proof.
  intros HL Hl Hz. pose proof PI_RGT_0 as Hpi.
  rewrite bend_form by assumption.
  set (t := 2 * PI / L * zz).
  assert (Ht : t <= 0).
  { unfold t. assert (0 < 2 * PI / L)
      by (apply Rdiv_lt_0_compat; lra). nra. }
  pose proof (sin_le_x (- t) ltac:(lra)) as Hs. rewrite sin_neg in Hs.
  assert (Hc : 0 <= l / (2 * PI)) by (apply over_two_pi_nonneg; lra).
  assert (Hb : l / (2 * PI) * (t - sin t) <= 0) by nra.
  unfold clip. rewrite Rmax_right by assumption.
  apply Rmin_left; assumption.
Qed.

Lemma clip_after l L zz :
  0 < L -> 0 <= l -> L <= zz -> clip (bend l L zz) 0 l = l.
Proof.
  intros HL Hl Hz. pose proof PI_RGT_0 as Hpi.
  rewrite bend_form by assumption.
  set (t := 2 * PI / L * zz).
  assert (Ht : 2 * PI <= t).
  { unfold t. assert (Hq : 0 < 2 * PI / L)
      by (apply Rdiv_lt_0_compat; lra).
    replace (2 * PI) with (2 * PI / L * L) at 1 by (field; lra). nra. }
  pose proof (sin_le_x (t - 2 * PI) ltac:(lra)) as Hs.
  pose proof (sin_period (t - 2 * PI) 1) as Hp.
  change (INR 1) with 1 in Hp.
  replace (t - 2 * PI + 2 * 1 * PI) with t in Hp by ring.
  rewrite <- Hp in Hs.
  assert (Hc : 0 <= l / (2 * PI)) by (apply over_two_pi_nonneg; lra).
  assert (Hb : l <= l / (2 * PI) * (t - sin t)).
  { replace l with (l / (2 * PI) * (2 * PI)) at 1 by (field; lra). nra. }
  unfold clip. rewrite Rmax_left by lra.
  apply Rmin_right; assumption.
Qed.

Lemma clip_reversed a l : l < 0 -> clip a 0 l = l.
Proof.
  intros Hl. unfold clip. apply Rmin_right.
  pose proof (Rmax_r a 0). lra.
Qed.

(** X13.  [generate_waveguide_n_r2] rejects every violated precondition
    with a ValueError before any array is built; the checks are made in
    the order x and z one-dimensional, L > 0, w > 0, n_WG > n0, n0 > 0,
    and the message is that of the first check that fails. *)
Theorem generate_waveguide_n_r2_rejects x z l L w n_WG n0 :
  ~ waveguide_arguments_valid x z L w n_WG n0 ->
  exists msg,
    generate_waveguide_n_r2 x z l L w n_WG n0 = Err (ValueError msg) /\
    (ndim x <> 1%nat \/ ndim z <> 1%nat -> msg = msg_xz) /\
    (ndim x = 1%nat -> ndim z = 1%nat -> L <= 0 -> msg = msg_L) /\
    (ndim x = 1%nat -> ndim z = 1%nat -> 0 < L -> w <= 0 -> msg = msg_w) /\
    (ndim x = 1%nat -> ndim z = 1%nat -> 0 < L -> 0 < w -> n_WG <= n0 ->
       msg = msg_core) /\
    (ndim x = 1%nat -> ndim z = 1%nat -> 0 < L -> 0 < w -> n0 < n_WG ->
       n0 <= 0 -> msg = msg_background).
Proof.
  intros Hnot. unfold generate_waveguide_n_r2.
  destruct (Nat.eqb_spec (ndim x) 1) as [Hx|Hx];
    [|exists msg_xz; cbn [negb orb]; validate_case].
  destruct (Nat.eqb_spec (ndim z) 1) as [Hz|Hz];
    [|exists msg_xz; cbn [negb orb]; validate_case].
  cbn [negb orb].
  destruct (Rleb_spec L 0) as [HL|HL];
    [exists msg_L; validate_case; tauto|].
  destruct (Rleb_spec w 0) as [Hw|Hw];
    [exists msg_w; validate_case; tauto|].
  destruct (Rleb_spec n_WG n0) as [Hn|Hn];
    [exists msg_core; validate_case; tauto|].
  destruct (Rleb_spec n0 0) as [H0|H0];
    [exists msg_background; validate_case; tauto|].
  exfalso. apply Hnot. unfold waveguide_arguments_valid.
  splits; try assumption; lra.
Qed.

Lemma generate_waveguide_n_r2_rejects_witness :
  exists msg,
    generate_waveguide_n_r2 x_three_points z_two_points
      1 1 1 1 2 = Err (ValueError msg) /\
    (ndim x_three_points <> 1%nat \/
     ndim z_two_points <> 1%nat -> msg = msg_xz) /\
    (ndim x_three_points = 1%nat -> ndim z_two_points = 1%nat ->
       1 <= 0 -> msg = msg_L) /\
    (ndim x_three_points = 1%nat -> ndim z_two_points = 1%nat ->
       0 < 1 -> 1 <= 0 -> msg = msg_w) /\
    (ndim x_three_points = 1%nat -> ndim z_two_points = 1%nat ->
       0 < 1 -> 0 < 1 -> 1 <= 2 -> msg = msg_core) /\
    (ndim x_three_points = 1%nat -> ndim z_two_points = 1%nat ->
       0 < 1 -> 0 < 1 -> 2 < 1 -> 2 <= 0 -> msg = msg_background).
Proof.
  apply (generate_waveguide_n_r2_rejects x_three_points
           z_two_points 1 1 1 1 2).
  unfold waveguide_arguments_valid. lra.
Defined.

(** X14.  On valid arguments [generate_waveguide_n_r2] returns an array
    of Nz columns of Nx entries; the entry at (ix, iz) is n_WG^2 when
    x[ix] lies within w/2 of the centre line at z[iz], and n0^2
    otherwise, the centre line being
    (l/L) z - (l/(2 pi)) sin(2 pi z/L) clipped by [np.clip(., 0, l)]. *)
Theorem generate_waveguide_n_r2_values x z l L w n_WG n0 :
  waveguide_arguments_valid x z L w n_WG n0 ->
  exists n_r2,
    generate_waveguide_n_r2 x z l L w n_WG n0 = Ok n_r2 /\
    length n_r2 = length (flat z) /\
    forall iz, (iz < length (flat z))%nat ->
      exists c,
        nth_error n_r2 iz = Some c /\ length c = length (flat x) /\
        forall ix, (ix < length (flat x))%nat ->
          let xc := clip (bend l L (nth iz (flat z) 0)) 0 l in
          let xi := nth ix (flat x) 0 in
          (Rabs (xi - xc) <= w / 2 -> nth ix c 0 = n_WG ^ 2) /\
          (w / 2 < Rabs (xi - xc) -> nth ix c 0 = n0 ^ 2).
Proof.
  intros Hv. eexists. split; [apply generate_waveguide_ok; exact Hv|].
  split; [apply length_map|].
  intros iz Hiz.
  exists (guide_profile (flat x) (clip (bend l L (nth iz (flat z) 0)) 0 l)
            w n_WG n0).
  splits.
  - rewrite nth_error_map, (nth_error_nth' (flat z) 0) by assumption.
    reflexivity.
  - apply guide_profile_length.
  - intros ix Hix. apply guide_profile_nth. assumption.
Qed.

Lemma generate_waveguide_n_r2_values_witness :
  exists n_r2,
    generate_waveguide_n_r2 x_three_points z_two_points
      1 1 1 2 1 = Ok n_r2 /\
    length n_r2 = length (flat z_two_points) /\
    forall iz, (iz < length (flat z_two_points))%nat ->
      exists c,
        nth_error n_r2 iz = Some c /\
        length c = length (flat x_three_points) /\
        forall ix, (ix < length (flat x_three_points))%nat ->
          let xc :=
            clip (bend 1 1 (nth iz (flat z_two_points) 0)) 0 1 in
          let xi := nth ix (flat x_three_points) 0 in
          (Rabs (xi - xc) <= 1 / 2 -> nth ix c 0 = 2 ^ 2) /\
          (1 / 2 < Rabs (xi - xc) -> nth ix c 0 = 1 ^ 2).
Proof.
  apply (generate_waveguide_n_r2_values x_three_points
           z_two_points 1 1 1 2 1).
  unfold waveguide_arguments_valid. simpl. splits; try reflexivity; lra.
Defined.

(** X15.  For a lateral displacement l >= 0 the bend has straight ends:
    every column at an axial position z <= 0 is the profile of a guide
    centred at x = 0, and every column at z >= L is the profile of a
    guide centred at x = l. *)
Theorem generate_waveguide_n_r2_straight_ends x z l L w n_WG n0 :
  waveguide_arguments_valid x z L w n_WG n0 ->
  0 <= l ->
  exists n_r2,
    generate_waveguide_n_r2 x z l L w n_WG n0 = Ok n_r2 /\
    forall iz, (iz < length (flat z))%nat ->
      (nth iz (flat z) 0 <= 0 ->
       nth_error n_r2 iz = Some (guide_profile (flat x) 0 w n_WG n0)) /\
      (L <= nth iz (flat z) 0 ->
       nth_error n_r2 iz = Some (guide_profile (flat x) l w n_WG n0)).
Proof.
  intros Hv Hl. eexists. split; [apply generate_waveguide_ok; exact Hv|].
  destruct Hv as (_ & _ & HL & _).
  intros iz Hiz.
  rewrite nth_error_map, (nth_error_nth' (flat z) 0) by assumption.
  cbn [option_map]. split; intros Hz.
  - rewrite clip_before by assumption. reflexivity.
  - rewrite clip_after by assumption. reflexivity.
Qed.

Lemma generate_waveguide_n_r2_straight_ends_witness :
  exists n_r2,
    generate_waveguide_n_r2 x_three_points z_two_points
      1 1 1 2 1 = Ok n_r2 /\
    forall iz, (iz < length (flat z_two_points))%nat ->
      (nth iz (flat z_two_points) 0 <= 0 ->
       nth_error n_r2 iz =
       Some (guide_profile (flat x_three_points) 0 1 2 1)) /\
      (1 <= nth iz (flat z_two_points) 0 ->
       nth_error n_r2 iz =
       Some (guide_profile (flat x_three_points) 1 1 2 1)).
Proof.
  apply (generate_waveguide_n_r2_straight_ends x_three_points
           z_two_points 1 1 1 2 1).
  - unfold waveguide_arguments_valid. simpl. splits; try reflexivity; lra.
  - lra.
Defined.

(** X16.  For a negative lateral displacement the clip [np.clip(., 0, l)]
    has its bounds reversed and returns l everywhere: the array is that
    of a straight guide centred at x = l, the same profile in every
    column, with no bend. *)
Theorem generate_waveguide_n_r2_negative_displacement x z l L w n_WG n0 :
  waveguide_arguments_valid x z L w n_WG n0 ->
  l < 0 ->
  generate_waveguide_n_r2 x z l L w n_WG n0 =
  Ok (repeat (guide_profile (flat x) l w n_WG n0) (length (flat z))).
Proof.
  intros Hv Hl. rewrite generate_waveguide_ok by assumption. f_equal.
  induction (flat z) as [|zz zs IH]; [reflexivity|].
  cbn [map length repeat]. rewrite IH, clip_reversed by assumption.
  reflexivity.
Qed.

Lemma generate_waveguide_n_r2_negative_displacement_witness :
  generate_waveguide_n_r2 x_three_points z_two_points
    (-1) 1 1 2 1 =
  Ok (repeat (guide_profile (flat x_three_points) (-1) 1 2 1)
        (length (flat z_two_points))).
Proof.
  apply (generate_waveguide_n_r2_negative_displacement
           x_three_points z_two_points (-1) 1 1 2 1).
  - unfold waveguide_arguments_valid. simpl. splits; try reflexivity; lra.
  - lra.
Defined.

(** X17.  The generator feeds the propagator: on valid arguments the
    array of [generate_waveguide_n_r2] has the shape [run_bpm] needs,
    and its check n0 > 0 keeps the propagator's division by n0 defined;
    with a field of at least Nz columns of Nx entries, a damping profile
    of Nx entries and a non-zero wavelength, [run_bpm] on that array
    raises nothing and assigns the columns 1 to Nz - 1. *)
Theorem generate_waveguide_n_r2_feeds_run_bpm
    x z l L w n_WG n0 E dx dz sigma_x wavelength :
  waveguide_arguments_valid x z L w n_WG n0 ->
  (length (flat z) <= length E)%nat ->
  Forall (fun c => length c = length (flat x)) E ->
  length sigma_x = length (flat x) ->
  wavelength <> 0 ->
  exists n_r2,
    generate_waveguide_n_r2 x z l L w n_WG n0 = Ok n_r2 /\
    run_bpm E n_r2 (flat x) (flat z) dx dz n0 sigma_x wavelength =
    (mkState
       (field (fst (run_bpm E n_r2 (flat x) (flat z) dx dz n0 sigma_x
                      wavelength)))
       (seq 1 (length (flat z) - 1)),
     None).
Proof.
  intros Hv HE HF Hs Hw. eexists.
  split; [apply generate_waveguide_ok; exact Hv|].
  destruct Hv as (_ & _ & _ & _ & _ & Hn0).
  set (n_r2 := map _ (flat z)).
  assert (Hc : conforming (length (flat x)) (length (flat z)) E n_r2 sigma_x).
  { unfold conforming. splits; try assumption.
    - unfold n_r2. rewrite length_map. lia.
    - unfold n_r2. apply Forall_forall. intros c Hin.
      apply in_map_iff in Hin. destruct Hin as (zz & <- & _).
      apply guide_profile_length. }
  pose proof (run_bpm_conforming _ E n_r2 (flat x) (flat z) dx dz n0 sigma_x
                wavelength Hc Hw ltac:(lra)) as Hnone.
  pose proof (run_bpm_written _ E n_r2 (flat x) (flat z) dx dz n0 sigma_x
                wavelength Hc Hw ltac:(lra)) as Hwr.
  destruct (run_bpm E n_r2 (flat x) (flat z) dx dz n0 sigma_x wavelength)
    as [[F wr] out].
  cbn [fst snd field written] in *. subst. reflexivity.
Qed.

Lemma generate_waveguide_n_r2_feeds_run_bpm_witness :
  exists n_r2,
    generate_waveguide_n_r2 x_one_point z_two_points
      1 1 1 2 1 = Ok n_r2 /\
    run_bpm E_two n_r2 (flat x_one_point)
      (flat z_two_points) 1 1 1 [0] 1 =
    (mkState
       (field (fst (run_bpm E_two n_r2 (flat x_one_point)
                      (flat z_two_points) 1 1 1 [0] 1)))
       (seq 1 (length (flat z_two_points) - 1)),
     None).
Proof.
  apply (generate_waveguide_n_r2_feeds_run_bpm x_one_point
           z_two_points 1 1 1 2 1 E_two 1 1 [0] 1).
  - unfold waveguide_arguments_valid. simpl. splits; try reflexivity; lra.
  - simpl. lia.
  - unfold E_two. repeat constructor.
  - reflexivity.
  - lra.
Defined.

(** * [generate_MMI_n_r2] *)

Lemma full_map (x z : list R) (b : R) :
  full (length x) (length z) b = map (fun _ => map (fun _ => b) x) z.
Proof.
  unfold full.
  assert (Hx : repeat b (length x) = map (fun _ => b) x)
    by (induction x as [|h t IH]; [reflexivity|simpl; rewrite IH; reflexivity]).
  rewrite Hx. induction z as [|h t IH]; [reflexivity|].
  simpl. rewrite IH. reflexivity.
Qed.

Lemma mask_assign_map {A} (p : A -> bool) (v : R) (f : A -> R) (x : list A) :
  mask_assign (map p x) v (map f x) =
  map (fun xi => if p xi then v else f xi) x.
Proof.
  unfold mask_assign, map2. induction x as [|h t IH]; [reflexivity|].
  simpl. rewrite IH. reflexivity.
Qed.

Lemma mask_assign2_map (p : R -> R -> bool) (v : R) (f : R -> R -> R)
    (x z : list R) :
  mask_assign2 (mask2 p x z) v (map (fun Z => map (fun X => f X Z) x) z) =
  map (fun Z => map (fun X => if p X Z then v else f X Z) x) z.
Proof.
  unfold mask_assign2, mask2, map2. induction z as [|h t IH]; [reflexivity|].
  simpl. rewrite IH.
  rewrite (mask_assign_map (fun X => p X h) v (fun X => f X h)).
  reflexivity.
Qed.

(** The value the three assignments leave at the point (X, Z). *)
Lemma generate_MMI_closed x z z_MMI_start L_MMI w_MMI w_wg d n_WG n_MMI n0 :
  generate_MMI_n_r2 x z z_MMI_start L_MMI w_MMI w_wg d n_WG n_MMI n0 =
  map (fun Z =>
         map (fun X =>
                if Rleb z_MMI_start Z && Rleb Z (z_MMI_start + L_MMI)
                   && Rleb (Rabs X) (w_MMI / 2)
                then n_MMI ^ 2
                else if Rltb (z_MMI_start + L_MMI) Z && in_port d w_wg X
                then n_WG ^ 2
                else if Rltb Z z_MMI_start && in_port d w_wg X
                then n_WG ^ 2
                else n0 ^ 2) x) z.
Proof.
  unfold generate_MMI_n_r2. cbv zeta. rewrite full_map.
  rewrite (mask_assign2_map _ _ (fun _ _ => n0 ^ 2)).
  rewrite (mask_assign2_map _ _
             (fun X Z => if Rltb Z z_MMI_start && in_port d w_wg X
                         then n_WG ^ 2 else n0 ^ 2)).
  rewrite (mask_assign2_map _ _
             (fun X Z =>
                if Rltb (z_MMI_start + L_MMI) Z && in_port d w_wg X
                then n_WG ^ 2
                else if Rltb Z z_MMI_start && in_port d w_wg X
                then n_WG ^ 2 else n0 ^ 2)).
  reflexivity.
Qed.

Lemma in_port_true d w_wg X :
  in_port d w_wg X = true <->
  Rabs (X + d / 2) <= w_wg / 2 \/ Rabs (X - d / 2) <= w_wg / 2.
Proof.
  unfold in_port. rewrite Bool.orb_true_iff.
  destruct (Rleb_spec (Rabs (X + d / 2)) (w_wg / 2)),
           (Rleb_spec (Rabs (X - d / 2)) (w_wg / 2)); split; intros H;
    try tauto; destruct H; try discriminate; try contradiction.
Qed.

Lemma in_port_mirror d w_wg X : in_port d w_wg (- X) = in_port d w_wg X.
Proof.
  unfold in_port.
  replace (- X + d / 2) with (- (X - d / 2)) by ring.
  replace (- X - d / 2) with (- (X + d / 2)) by ring.
  rewrite !Rabs_Ropp. apply Bool.orb_comm.
Qed.

(** X18.  [generate_MMI_n_r2] returns Nz columns of Nx entries.  The
    entry at (ix, iz) is n_MMI^2 inside the multimode section
    (z_MMI_start <= z <= z_MMI_start + L_MMI and |x| <= w_MMI/2); it is
    n_WG^2 before and after that section, within w_wg/2 of x = -d/2 or
    of x = d/2; and n0^2 everywhere else. *)
Theorem generate_MMI_n_r2_values
    x z z_MMI_start L_MMI w_MMI w_wg d n_WG n_MMI n0 :
  let n_r2 :=
    generate_MMI_n_r2 x z z_MMI_start L_MMI w_MMI w_wg d n_WG n_MMI n0 in
  let z_MMI_end := z_MMI_start + L_MMI in
  length n_r2 = length z /\
  forall iz, (iz < length z)%nat ->
    exists c,
      nth_error n_r2 iz = Some c /\ length c = length x /\
      forall ix, (ix < length x)%nat ->
        let X := nth ix x 0 in
        let Z := nth iz z 0 in
        let in_section :=
          z_MMI_start <= Z <= z_MMI_end /\ Rabs X <= w_MMI / 2 in
        let in_ports :=
          (Z < z_MMI_start \/ z_MMI_end < Z) /\
          (Rabs (X + d / 2) <= w_wg / 2 \/ Rabs (X - d / 2) <= w_wg / 2) in
        (in_section -> nth ix c 0 = n_MMI ^ 2) /\
        (~ in_section -> in_ports -> nth ix c 0 = n_WG ^ 2) /\
        (~ in_section -> ~ in_ports -> nth ix c 0 = n0 ^ 2).
Proof.
  intros n_r2 z_MMI_end. subst n_r2. rewrite generate_MMI_closed.
  split; [apply length_map|].
  intros iz Hiz. rewrite nth_error_map, (nth_error_nth' z 0) by assumption.
  cbn [option_map]. eexists. split; [reflexivity|].
  split; [apply length_map|].
  intros ix Hix. cbv zeta.
  rewrite (nth_map_in _ _ _ 0) by assumption.
  set (X := nth ix x 0). set (Z := nth iz z 0). fold z_MMI_end.
  pose proof (in_port_true d w_wg X) as Hp.
  destruct (Rleb_spec z_MMI_start Z), (Rleb_spec Z z_MMI_end),
    (Rleb_spec (Rabs X) (w_MMI / 2)), (Rltb_spec z_MMI_end Z),
    (Rltb_spec Z z_MMI_start), (in_port d w_wg X);
    cbn [andb]; splits; intros; try reflexivity; exfalso;
    try tauto; try lra;
    try (assert (true = true) by reflexivity; tauto);
    try (assert (false = true -> False) by discriminate; tauto).
Qed.

(** X19.  The splitter is mirror-symmetric about x = 0: on the mirrored
    transverse grid -x, [generate_MMI_n_r2] returns the array it returns
    on x. *)
Theorem generate_MMI_n_r2_mirror
    x z z_MMI_start L_MMI w_MMI w_wg d n_WG n_MMI n0 :
  generate_MMI_n_r2 (map Ropp x) z z_MMI_start L_MMI w_MMI w_wg d n_WG
    n_MMI n0 =
  generate_MMI_n_r2 x z z_MMI_start L_MMI w_MMI w_wg d n_WG n_MMI n0.
Proof.
  rewrite !generate_MMI_closed. apply map_ext. intros Z.
  rewrite map_map. apply map_ext. intros X.
  rewrite in_port_mirror, Rabs_Ropp. reflexivity.
Qed.

(** * [generate_lens_n_r2] *)

Lemma map2_keep {A B} (z : list A) : forall a : list B,
  length a = length z -> map2 (fun _ c => c) z a = a.
Proof.
  unfold map2. induction z as [|h t IH]; intros [|c a] H; simpl in *;
    try reflexivity; try discriminate.
  rewrite IH by lia. reflexivity.
Qed.

Lemma map2_map_l {A A' B T} (p : A -> A') (op : A' -> B -> T) (z : list A) :
  forall a, map2 op (map p z) a = map2 (fun zz c => op (p zz) c) z a.
Proof.
  unfold map2. induction z as [|h t IH]; intros [|c a]; simpl;
    try reflexivity.
  rewrite IH. reflexivity.
Qed.

Lemma map2_map2_r {A B} (f g : A -> B -> B) (z : list A) :
  forall a, map2 g z (map2 f z a) = map2 (fun zz c => g zz (f zz c)) z a.
Proof.
  unfold map2. induction z as [|h t IH]; intros [|c a]; simpl;
    try reflexivity.
  rewrite IH. reflexivity.
Qed.

Lemma map2_repeat_r {A B T} (op : A -> B -> T) (z : list A) (c : B) :
  map2 op z (repeat c (length z)) = map (fun zz => op zz c) z.
Proof.
  unfold map2. induction z as [|h t IH]; [reflexivity|].
  simpl. rewrite IH. reflexivity.
Qed.

(** A loop whose body acts on every column independently acts on the
    columns one by one. *)
Lemma fold_by_columns {A B I} (F : list B -> I -> list B)
    (f : A -> B -> I -> B) (z : list A) :
  (forall a i, length a = length z ->
               F a i = map2 (fun zz c => f zz c i) z a) ->
  forall rows a, length a = length z ->
    fold_left F rows a = map2 (fun zz c => fold_left (f zz) rows c) z a.
Proof.
  intros HF rows. induction rows as [|i rows IH]; intros a Ha.
  - simpl. symmetry. apply map2_keep. exact Ha.
  - cbn [fold_left]. rewrite HF by exact Ha.
    rewrite IH by (rewrite map2_length; congruence).
    apply map2_map2_r.
Qed.

Lemma fold_left_pointwise {A I} (f g : A -> I -> A) :
  (forall a i, f a i = g a i) ->
  forall rows a, fold_left f rows a = fold_left g rows a.
Proof.
  intros H rows. induction rows as [|i rows IH]; intros a; [reflexivity|].
  simpl. rewrite H. apply IH.
Qed.

Lemma update_nth_id {A} (l : list A) : forall j e,
  nth_error l j = Some e -> update_nth j e l = l.
Proof.
  induction l as [|h t IH]; intros [|j] e H; simpl in *;
    try discriminate.
  - congruence.
  - rewrite IH by exact H. reflexivity.
Qed.

Lemma update_nth_beyond {A} (l : list A) : forall j v,
  nth_error l j = None -> update_nth j v l = l.
Proof.
  induction l as [|h t IH]; intros [|j] v H; simpl in *;
    try reflexivity; try discriminate.
  rewrite IH by exact H. reflexivity.
Qed.

(** The loop over the rows, seen from one column: row [ix] takes the
    value [v] when [sel ix] holds. *)
Lemma fold_rows (sel : nat -> bool) (v b : R) (Nx : nat) :
  fold_left (fun c ix => if sel ix then update_nth ix v c else c)
    (seq 0 Nx) (repeat b Nx) =
  map (fun ix => if sel ix then v else b) (seq 0 Nx).
Proof.
  rewrite (fold_left_pointwise _
    (fun c ix => match nth_error c ix with
                 | Some e => update_nth ix ((fun i e => if sel i then v else e)
                                              ix e) c
                 | None => c
                 end)).
  - apply nth_error_ext. intros j.
    rewrite fold_columns by (rewrite repeat_length; lia).
    rewrite nth_error_map, nth_error_seq.
    destruct (Nat.ltb_spec j Nx) as [Hj|Hj].
    + rewrite nth_error_repeat by assumption.
      destruct (Nat.ltb_spec j (0 + Nx)); [|lia]. reflexivity.
    + destruct (Nat.ltb_spec j (0 + Nx)); [lia|].
      rewrite Bool.andb_false_r. apply nth_error_None.
      rewrite repeat_length. lia.
  - intros c ix. destruct (nth_error c ix) as [e|] eqn:He.
    + destruct (sel ix); [reflexivity|].
      symmetry. apply update_nth_id. exact He.
    + destruct (sel ix); [|reflexivity].
      apply update_nth_beyond. exact He.
Qed.

Lemma map_seq_nth {A B} (f : A -> B) (g : nat -> B) (x : list A) (d : A) :
  (forall i, (i < length x)%nat -> g i = f (nth i x d)) ->
  map g (seq 0 (length x)) = map f x.
Proof.
  intros H. apply nth_error_ext. intros j.
  rewrite !nth_error_map, nth_error_seq.
  destruct (Nat.ltb_spec j (length x)) as [Hj|Hj].
  - rewrite (nth_error_nth' x d) by assumption. simpl.
    rewrite H by assumption. reflexivity.
  - destruct (nth_error_None x j) as [_ ->]; [reflexivity|lia].
Qed.

(** The value the loop leaves at the point (xi, zz). *)
Lemma generate_lens_closed
    x z lens_diameter lens_thickness R1 R2 n_lens n0 lens_center_z x_lens :
  generate_lens_n_r2 x z lens_diameter lens_thickness R1 R2 n_lens n0
    lens_center_z x_lens =
  map (fun zz =>
         map (fun xi =>
                if negb (Rltb (lens_diameter / 2) (Rabs (xi - x_lens)))
                   && (Rleb (surface_first
                               (lens_center_z - lens_thickness / 2) R1
                               x_lens xi) zz
                       && Rleb zz (surface_second
                                     (lens_center_z + lens_thickness / 2) R2
                                     x_lens xi))
                then n_lens ^ 2 else n0 ^ 2) x) z.
Proof.
  unfold generate_lens_n_r2. cbv zeta.
  set (z1 := lens_center_z - lens_thickness / 2).
  set (z2 := lens_center_z + lens_thickness / 2).
  set (zf := map (surface_first z1 R1 x_lens) x).
  set (zs := map (surface_second z2 R2 x_lens) x).
  set (sel := fun zz ix =>
         negb (Rltb (lens_diameter / 2) (Rabs (nth ix x 0 - x_lens)))
         && (Rleb (nth ix zf 0) zz && Rleb zz (nth ix zs 0))).
  rewrite (fold_by_columns _
             (fun zz c ix => if sel zz ix
                             then update_nth ix (n_lens ^ 2) c else c) z).
  - unfold full. rewrite map2_repeat_r. apply map_ext. intros zz.
    rewrite (fold_rows (sel zz)).
    apply (map_seq_nth _ _ x 0). intros i Hi. unfold sel, zf, zs.
    rewrite !(nth_map_in _ _ _ 0) by assumption. reflexivity.
  - intros a ix Ha. unfold lens_step, sel.
    destruct (Rltb (lens_diameter / 2) (Rabs (nth ix x 0 - x_lens))).
    + cbn [negb andb]. symmetry. apply map2_keep. exact Ha.
    + cbn [negb andb]. unfold row_assign. apply map2_map_l.
  - unfold full. apply repeat_length.
Qed.

Lemma generate_lens_column
    x z lens_diameter lens_thickness R1 R2 n_lens n0 lens_center_z x_lens
    ix iz :
  (ix < length x)%nat -> (iz < length z)%nat ->
  exists c,
    nth_error
      (generate_lens_n_r2 x z lens_diameter lens_thickness R1 R2 n_lens n0
         lens_center_z x_lens) iz = Some c /\
    length c = length x /\
    nth ix c 0 =
    if negb (Rltb (lens_diameter / 2) (Rabs (nth ix x 0 - x_lens)))
       && (Rleb (surface_first (lens_center_z - lens_thickness / 2) R1
                   x_lens (nth ix x 0)) (nth iz z 0)
           && Rleb (nth iz z 0)
                (surface_second (lens_center_z + lens_thickness / 2) R2
                   x_lens (nth ix x 0)))
    then n_lens ^ 2 else n0 ^ 2.
Proof.
  intros Hix Hiz. rewrite generate_lens_closed.
  rewrite nth_error_map, (nth_error_nth' z 0) by assumption.
  cbn [option_map]. eexists. split; [reflexivity|].
  split; [apply length_map|].
  rewrite (nth_map_in _ _ _ 0) by assumption. reflexivity.
Qed.

(** X20.  [generate_lens_n_r2] returns Nz columns of Nx entries.  The
    entry at (ix, iz) is n_lens^2 when x[ix] is within the aperture,
    |x - x_lens| <= lens_diameter/2, and z[iz] lies between the two
    surfaces z1 + (R1 - sqrt(max(R1^2 - (x - x_lens)^2, 0))) and
    z2 - (R2 - sqrt(max(R2^2 - (x - x_lens)^2, 0))), with
    z1, z2 = lens_center_z -/+ lens_thickness/2; it is n0^2 otherwise. *)
Theorem generate_lens_n_r2_values
    x z lens_diameter lens_thickness R1 R2 n_lens n0 lens_center_z x_lens :
  let n_r2 :=
    generate_lens_n_r2 x z lens_diameter lens_thickness R1 R2 n_lens n0
      lens_center_z x_lens in
  let z1 := lens_center_z - lens_thickness / 2 in
  let z2 := lens_center_z + lens_thickness / 2 in
  length n_r2 = length z /\
  forall iz, (iz < length z)%nat ->
    exists c,
      nth_error n_r2 iz = Some c /\ length c = length x /\
      forall ix, (ix < length x)%nat ->
        let xi := nth ix x 0 in
        let zz := nth iz z 0 in
        let inside :=
          Rabs (xi - x_lens) <= lens_diameter / 2 /\
          surface_first z1 R1 x_lens xi <= zz /\
          zz <= surface_second z2 R2 x_lens xi in
        (inside -> nth ix c 0 = n_lens ^ 2) /\
        (~ inside -> nth ix c 0 = n0 ^ 2).
Proof.
  intros n_r2 z1 z2. subst n_r2. split.
  - rewrite generate_lens_closed. apply length_map.
  - intros iz Hiz. rewrite generate_lens_closed.
    rewrite nth_error_map, (nth_error_nth' z 0) by assumption.
    unfold option_map. eexists. split; [reflexivity|].
    split; [apply length_map|].
    intros ix Hix. cbv zeta.
    rewrite (nth_map_in _ _ _ 0) by assumption. fold z1 z2.
    set (xi := nth ix x 0). set (zz := nth iz z 0).
    destruct (Rltb_spec (lens_diameter / 2) (Rabs (xi - x_lens))),
      (Rleb_spec (surface_first z1 R1 x_lens xi) zz),
      (Rleb_spec zz (surface_second z2 R2 x_lens xi));
      cbn [negb andb]; split; intros H; try reflexivity; exfalso;
      try (apply H; splits; lra); destruct H as (? & ? & ?); lra.
Qed.

(** X21.  On the axis of the lens, for radii R1, R2 >= 0 and a
    non-negative diameter, the lens is exactly lens_thickness thick: at
    x[ix] = x_lens the entry is n_lens^2 when
    |z - lens_center_z| <= lens_thickness/2 and n0^2 otherwise. *)
Theorem generate_lens_n_r2_on_axis
    x z lens_diameter lens_thickness R1 R2 n_lens n0 lens_center_z x_lens
    ix iz :
  0 <= R1 -> 0 <= R2 -> 0 <= lens_diameter ->
  (ix < length x)%nat -> (iz < length z)%nat ->
  nth ix x 0 = x_lens ->
  exists c,
    nth_error
      (generate_lens_n_r2 x z lens_diameter lens_thickness R1 R2 n_lens n0
         lens_center_z x_lens) iz = Some c /\
    (Rabs (nth iz z 0 - lens_center_z) <= lens_thickness / 2 ->
     nth ix c 0 = n_lens ^ 2) /\
    (lens_thickness / 2 < Rabs (nth iz z 0 - lens_center_z) ->
     nth ix c 0 = n0 ^ 2).
Proof.
  intros H1 H2 HD Hix Hiz Hx.
  destruct (generate_lens_column x z lens_diameter lens_thickness R1 R2
              n_lens n0 lens_center_z x_lens ix iz Hix Hiz)
    as (c & Hc & _ & Hv).
  exists c. split; [exact Hc|]. rewrite Hv, Hx. clear Hv Hc.
  unfold surface_first, surface_second.
  replace (x_lens - x_lens) with 0 by ring.
  replace (R1 ^ 2 - 0 ^ 2) with (R1 ^ 2) by ring.
  replace (R2 ^ 2 - 0 ^ 2) with (R2 ^ 2) by ring.
  rewrite !Rmax_left by nra. rewrite !sqrt_pow2 by assumption.
  rewrite Rabs_R0. rewrite (Rltb_false (lens_diameter / 2) 0) by lra.
  cbn [negb andb]. set (zz := nth iz z 0).
  destruct (Rleb_spec (lens_center_z - lens_thickness / 2 + (R1 - R1)) zz),
    (Rleb_spec zz (lens_center_z + lens_thickness / 2 - (R2 - R2)));
    cbn [andb]; split; intros H; try reflexivity; exfalso; revert H;
    unfold Rabs; destruct (Rcase_abs (zz - lens_center_z)); lra.
Qed.

Lemma generate_lens_n_r2_on_axis_witness :
  exists c,
    nth_error (generate_lens_n_r2 [-1; 0; 1] [0; 1] 2 1 3 3 2 1 0 0) 1
    = Some c /\
    (Rabs (nth 1%nat [0; 1] 0 - 0) <= 1 / 2 -> nth 1%nat c 0 = 2 ^ 2) /\
    (1 / 2 < Rabs (nth 1%nat [0; 1] 0 - 0) -> nth 1%nat c 0 = 1 ^ 2).
Proof.
  apply (generate_lens_n_r2_on_axis [-1; 0; 1] [0; 1] 2 1 3 3 2 1 0 0 1 1);
    try lra; try (simpl; lia); reflexivity.
Defined.
